(** * Sequential agent queue: a shallow embedding of the workflow core

    The development follows the JavaScript sources of the queue:
    - [ErrorHandler]: the error classifier and the retry decision
      (error-handler.js);
    - [Persistence]: the workflow state store (persistence.js);
    - [Queue]: the dependency sorter, the evidence validator, the stage
      executor, the scheduler and the iteration controller (queue.js).
    - [ResourceManager]: the cleanup of old outputs, the resource validation
      and the memory monitor (resource-manager.js).

    JavaScript objects used as dictionaries are finite maps over strings,
    arrays are lists, thrown errors are the left summand of a sum type, and
    everything the program asks of its surroundings (the agent spawner, the
    session listing, the file system, the clock) is read from an explicit
    environment. The two dictionaries of the sorter are keyed by stage names
    that the validation does not restrict, so their model keeps the
    prototype of a plain object next to the map of own keys.

    Strings are sequences of 8-bit characters. Text outside ASCII is outside
    the model: [\s] and the case folding of the [i] flag are the ASCII
    ones, and a character outside ASCII counts as its bytes, where the
    source counts UTF-16 code units. *)

From Stdlib Require Import ZArith Lia Bool Ascii String List.
From stdpp Require Import gmap strings list pretty sorting.

Open Scope string_scope.
Open Scope list_scope.
Open Scope nat_scope.

(** ** Text helpers shared by all modules *)

Module Text.

(** The double quote character, which the messages of the program embed. *)
Definition dq : string := String (ascii_of_nat 34) EmptyString.

(** Case folding of the [i] flag of a regular expression, on ASCII letters. *)
Definition to_lower (c : ascii) : ascii :=
  let n := nat_of_ascii c in
  if (65 <=? n)%nat && (n <=? 90)%nat then ascii_of_nat (n + 32) else c.

Fixpoint lower (s : string) : string :=
  match s with
  | EmptyString => EmptyString
  | String c s' => String (to_lower c) (lower s')
  end.

Fixpoint prefix_ci (p s : string) : bool :=
  match p, s with
  | EmptyString, _ => true
  | String a p', String b s' =>
      Ascii.eqb (to_lower a) (to_lower b) && prefix_ci p' s'
  | String _ _, EmptyString => false
  end.

(** [/p/i.test(s)] for a literal [p]: [p] occurs somewhere in [s]. *)
Fixpoint includes_ci (p s : string) : bool :=
  prefix_ci p s ||
  match s with
  | EmptyString => false
  | String _ s' => includes_ci p s'
  end.

(** [/p1|p2|.../i.test(s)] for literal alternatives. *)
Definition test_any_ci (alts : list string) (s : string) : bool :=
  existsb (fun p => includes_ci p s) alts.

(** [arr.join(sep)] *)
Fixpoint join (sep : string) (l : list string) : string :=
  match l with
  | [] => ""
  | [x] => x
  | x :: rest => x +:+ sep +:+ join sep rest
  end.

End Text.

(** ** error-handler.js *)

Module ErrorHandler.
Import Text.

Inductive ERROR_TYPES : Set :=
  | TIMEOUT
  | RESOURCE_EXHAUSTED
  | INVALID_INPUT
  | NETWORK_ERROR
  | AGENT_SPAWN_FAILED
  | VALIDATION_FAILED
  | ABANDONED_STAGE
  | UNKNOWN.

(** The string value of each member of [ERROR_TYPES]. *)
Definition type_name (t : ERROR_TYPES) : string :=
  match t with
  | TIMEOUT => "timeout"
  | RESOURCE_EXHAUSTED => "resource_exhausted"
  | INVALID_INPUT => "invalid_input"
  | NETWORK_ERROR => "network_error"
  | AGENT_SPAWN_FAILED => "agent_spawn_failed"
  | VALIDATION_FAILED => "validation_failed"
  | ABANDONED_STAGE => "abandoned_stage"
  | UNKNOWN => "unknown"
  end.

Definition RETRYABILITY (t : ERROR_TYPES) : bool :=
  match t with
  | TIMEOUT => true
  | RESOURCE_EXHAUSTED => true
  | NETWORK_ERROR => true
  | AGENT_SPAWN_FAILED => true
  | INVALID_INPUT => false
  | VALIDATION_FAILED => false
  | ABANDONED_STAGE => false
  | UNKNOWN => false
  end.

Record Classification := {
  cl_type : ERROR_TYPES;
  cl_retryable : bool;
  cl_suggestion : string
}.

Definition classified (t : ERROR_TYPES) (suggestion : string) : Classification :=
  {| cl_type := t; cl_retryable := RETRYABILITY t; cl_suggestion := suggestion |}.

(** [classifyError(error)], on [error.message]. *)
Definition classifyError (message : string) : Classification :=
  if test_any_ci ["timeout"; "exceeded"; "time limit"] message then
    classified TIMEOUT
      "Consider increasing stageTimeoutMinutes in workflow configuration"
  else if test_any_ci ["memory"; "disk"; "space"; "resource"; "exhausted"; "heap"]
            message then
    classified RESOURCE_EXHAUSTED
      "Check system resources and consider reducing workflow complexity"
  else if test_any_ci ["invalid"; "validation"; "format"; "schema"; "parse"; "syntax"]
            message then
    classified INVALID_INPUT
      "Review workflow configuration and stage definitions for errors"
  else if test_any_ci
            ["network"; "connection"; "fetch"; "request"; "ECONNREFUSED";
             "ETIMEDOUT"; "ENOTFOUND"] message then
    classified NETWORK_ERROR "Check network connectivity and retry"
  else if test_any_ci ["spawn"; "agent"; "session"] message then
    classified AGENT_SPAWN_FAILED
      "Check OpenClaw Gateway status and try fallback spawner"
  else if test_any_ci ["evidence"; "validation"; "proof"; "verify"] message then
    classified VALIDATION_FAILED
      "Review agent output for proper evidence and verification"
  else if test_any_ci ["abandoned"] message then
    classified ABANDONED_STAGE
      "Agent failed without producing output - may require manual review"
  else
    classified UNKNOWN "Review error details and logs for more information".

Inductive Action : Set := retry | halt.

Record Decision := {
  d_action : Action;
  d_reason : string;
  d_suggestion : string
}.

(** [decideRecoveryAction(classification, {attempt, maxRetries})] *)
Definition decideRecoveryAction (c : Classification) (attempt maxRetries : nat)
  : Decision :=
  if negb (cl_retryable c) then
    {| d_action := halt;
       d_reason := type_name (cl_type c) +:+ " is not retryable";
       d_suggestion := cl_suggestion c |}
  else if (maxRetries + 1 <=? attempt)%nat then
    {| d_action := halt;
       d_reason := "Maximum retry attempts exhausted";
       d_suggestion :=
         "Review error logs and consider increasing retryOnFailure in workflow configuration" |}
  else
    {| d_action := retry;
       d_reason := type_name (cl_type c) +:+ " is retryable, attempting recovery";
       d_suggestion := cl_suggestion c |}.

(** The delay (in milliseconds) that the recovery strategy of a network
    error computes and waits: [min(1000 * 2^(attempt-1), 30000)]. No other
    strategy returns a [backoff] field. *)
Definition recovery_backoff (t : ERROR_TYPES) (attempt : nat) : option Z :=
  match t with
  | NETWORK_ERROR => Some (Z.min (1000 * 2 ^ (Z.of_nat attempt - 1)) 30000)%Z
  | _ => None
  end.

(** The fields of the result of [handleWorkflowError] that the stage
    executor reads. *)
Record Handling := {
  h_errorType : ERROR_TYPES;
  h_retryable : bool;
  h_shouldRetry : bool;
  h_backoff : option Z;
  h_haltReason : option string
}.

Definition handleWorkflowError (message : string) (attempt maxRetries : nat)
  : Handling :=
  let classification := classifyError message in
  let decision := decideRecoveryAction classification attempt maxRetries in
  let retrying :=
    match d_action decision with retry => true | halt => false end in
  {| h_errorType := cl_type classification;
     h_retryable := cl_retryable classification;
     h_shouldRetry := retrying;
     h_backoff :=
       if retrying && cl_retryable classification
       then recovery_backoff (cl_type classification) attempt
       else None;
     h_haltReason :=
       match d_action decision with
       | halt => Some (d_reason decision)
       | retry => None
       end |}.

End ErrorHandler.

(** ** The data shared by the store and the queue *)

Module Data.

(** A parsed JSON value. Numbers are kept as integers: the program only
    tests them for truthiness. *)
#[local] Unset Elimination Schemes.
Inductive Json :=
  | JNull
  | JBool (b : bool)
  | JNum (n : Z)
  | JStr (s : string)
  | JArr (items : list Json)
  | JObj (fields : list (string * Json)).
#[local] Set Elimination Schemes.

(** [obj[key]], [undefined] being [None]. *)
Fixpoint assoc (key : string) (fields : list (string * Json)) : option Json :=
  match fields with
  | [] => None
  | (k, v) :: rest => if String.eqb k key then Some v else assoc key rest
  end.

(** JSON.parse keeps the last binding of a repeated key, so a parsed object
    has at most one binding per key and [assoc] reads it. *)
Definition get (key : string) (j : Json) : option Json :=
  match j with
  | JObj fields => assoc key fields
  | _ => None
  end.

(** JavaScript truthiness of a property read. *)
Definition truthy (v : option Json) : bool :=
  match v with
  | None | Some JNull => false
  | Some (JBool b) => b
  | Some (JNum n) => negb (n =? 0)%Z
  | Some (JStr s) => negb (String.eqb s "")
  | Some (JArr _) | Some (JObj _) => true
  end.

(** A message of a session transcript. *)
Record Message := {
  m_role : option string;
  m_content : option string
}.

Inductive Status : Set := pending | complete | failed | skipped.

(** [error: { message, attempts }] of a failed stage result. *)
Record StageError := {
  e_message : string;
  e_attempts : nat
}.

(** The result of [checkAndCommitChanges]. *)
Record GitResult := {
  g_committed : bool;
  g_reason : option string
}.

(** A stage result: the union of the fields of the object literals that the
    executor and the scheduler build. [sr_transcript] is the property
    [transcript] that [checkCriticalGaps] reads; no object literal of the
    program has it. *)
Record StageResult := {
  sr_status : Status;
  sr_output : option string;
  sr_file : option string;
  sr_duration : Z;
  sr_attempts : option nat;
  sr_error : option StageError;
  sr_reason : option string;
  sr_unmetDependencies : list string;
  sr_sessionId : option string;
  sr_evidence : option Json;
  sr_gitCommit : option GitResult;
  sr_sessionTranscript : option (list Message);
  sr_transcript : option string;
  sr_message : option string
}.

(** The attempt count that a stage result carries: [attempts] of a complete
    or skipped result, [error.attempts] of a failed one. *)
Definition result_attempts (r : StageResult) : option nat :=
  match sr_error r with
  | Some e => Some (e_attempts e)
  | None => sr_attempts r
  end.

(** An entry of [context.previousIterations]. *)
Record IterationRecord := {
  ir_iteration : nat;
  ir_stageOutputs : gmap string StageResult;
  ir_gaps : option (list Json)
}.

(** The context object: the keys that the program reads, and the remaining
    keys, which only feed placeholder substitution. *)
Record Context := {
  ctx_iteration : option nat;
  ctx_previousIterations : option (list IterationRecord);
  ctx_workflowId : option string;
  ctx_requireResume : option bool;
  ctx_vars : list (string * string)
}.

Definition empty_context : Context :=
  {| ctx_iteration := None; ctx_previousIterations := None;
     ctx_workflowId := None; ctx_requireResume := None; ctx_vars := [] |}.

Definition or_else {A} (a b : option A) : option A :=
  match a with Some _ => a | None => b end.

(** [{ ...a, ...b }]: the keys of [b] win. *)
Definition spread (a b : Context) : Context :=
  {| ctx_iteration := or_else (ctx_iteration b) (ctx_iteration a);
     ctx_previousIterations :=
       or_else (ctx_previousIterations b) (ctx_previousIterations a);
     ctx_workflowId := or_else (ctx_workflowId b) (ctx_workflowId a);
     ctx_requireResume := or_else (ctx_requireResume b) (ctx_requireResume a);
     ctx_vars := ctx_vars b ++ ctx_vars a |}.

End Data.

(** ** persistence.js *)

Module Persistence.
Import Data.

Inductive WorkflowStatus : Set :=
  | running | paused | completed | workflow_failed | cancelled.

(** The WorkflowState class. Time stamps are milliseconds. [stageOutputs]
    is a plain object in the source; as a finite map it is faithful for
    the stage names other than [__proto__], which an assignment does not
    store as a key. *)
Record WorkflowState := {
  workflowId : string;
  workflowName : string;
  startedAt : Z;
  lastUpdated : Z;
  status : WorkflowStatus;
  iteration : nat;
  maxIterations : nat;
  completedStages : list string;
  failedStage : option string;
  pausedStage : option string;
  stageOutputs : gmap string StageResult;
  context : Context;
  executionOrder : list string;
  errorMessage : option string
}.

(** The state directory: one JSON file per workflow id. *)
Abbreviation Store := (gmap string WorkflowState).

Definition set_lastUpdated (now : Z) (st : WorkflowState) : WorkflowState :=
  {| workflowId := workflowId st; workflowName := workflowName st;
     startedAt := startedAt st; lastUpdated := now; status := status st;
     iteration := iteration st; maxIterations := maxIterations st;
     completedStages := completedStages st; failedStage := failedStage st;
     pausedStage := pausedStage st; stageOutputs := stageOutputs st;
     context := context st; executionOrder := executionOrder st;
     errorMessage := errorMessage st |}.

(** [saveWorkflowState(state)]: the file receives [state.toJSON()], taken
    before the in-memory [lastUpdated] is refreshed ([set_lastUpdated], where
    the caller keeps the object). *)
Definition saveWorkflowState (st : WorkflowState) (σ : Store) : Store :=
  <[workflowId st := st]> σ.

(** [loadWorkflowState(workflowId)], [null] being [None]. *)
Definition loadWorkflowState (id : string) (σ : Store) : option WorkflowState :=
  σ !! id.

(** [arr.includes(x)] on strings. *)
Definition includes (x : string) (l : list string) : bool :=
  existsb (String.eqb x) l.

(** [arr.indexOf(x)], [-1] being [None]. *)
Fixpoint indexOf (x : string) (l : list string) : option nat :=
  match l with
  | [] => None
  | y :: rest =>
      if String.eqb y x then Some 0 else option_map S (indexOf x rest)
  end.

Record ResumeData := {
  rd_state : WorkflowState;
  rd_context : Context;
  rd_resumeFromStage : option string;
  rd_stageOutputs : gmap string StageResult
}.

Definition resumeFromStage (st : WorkflowState) : option string :=
  match pausedStage st with
  | Some p => Some p
  | None =>
    match failedStage st with
    | Some f => Some f
    | None =>
      match last (completedStages st) with
      | None => None
      | Some lastCompleted =>
        match indexOf lastCompleted (executionOrder st) with
        | Some i => executionOrder st !! (i + 1)
        | None => executionOrder st !! 0
        end
      end
    end
  end.

(** [resumeWorkflow(workflowId, workflow)]; the left summand is the message
    of the error thrown. *)
Definition resumeWorkflow (now : Z) (id : string) (σ : Store)
  : string + (ResumeData * Store) :=
  match loadWorkflowState id σ with
  | None => inl ("Workflow state not found: " +:+ id)
  | Some st =>
    match status st with
    | completed => inl ("Workflow is already completed: " +:+ id)
    | cancelled => inl ("Workflow was cancelled: " +:+ id)
    | _ =>
      let st' :=
        {| workflowId := workflowId st; workflowName := workflowName st;
           startedAt := startedAt st; lastUpdated := lastUpdated st;
           status := running;
           iteration := iteration st; maxIterations := maxIterations st;
           completedStages := completedStages st; failedStage := None;
           pausedStage := None; stageOutputs := stageOutputs st;
           context := context st; executionOrder := executionOrder st;
           errorMessage := None |} in
      inr ({| rd_state := set_lastUpdated now st'; rd_context := context st';
              rd_resumeFromStage := resumeFromStage st;
              rd_stageOutputs := stageOutputs st' |},
           saveWorkflowState st' σ)
    end
  end.

(** [cancelWorkflow(workflowId)] *)
Definition cancelWorkflow (now : Z) (id : string) (σ : Store) : bool * Store :=
  match loadWorkflowState id σ with
  | None => (false, σ)
  | Some st =>
    match status st with
    | completed => (false, σ)
    | cancelled => (true, σ)
    | _ =>
      let st' :=
        {| workflowId := workflowId st; workflowName := workflowName st;
           startedAt := startedAt st; lastUpdated := now;
           status := cancelled;
           iteration := iteration st; maxIterations := maxIterations st;
           completedStages := completedStages st; failedStage := failedStage st;
           pausedStage := pausedStage st; stageOutputs := stageOutputs st;
           context := context st; executionOrder := executionOrder st;
           errorMessage := errorMessage st |} in
      (true, saveWorkflowState st' σ)
    end
  end.

Definition clear_if (stageName : string) (o : option string) : option string :=
  match o with
  | Some n => if String.eqb n stageName then None else Some n
  | None => None
  end.

(** [updateStageCompletion(workflowId, stageName, stageResult)] *)
Definition updateStageCompletion (now : Z) (id stageName : string)
    (stageResult : StageResult) (σ : Store) : Store :=
  match loadWorkflowState id σ with
  | None => σ
  | Some st =>
    saveWorkflowState
      {| workflowId := workflowId st; workflowName := workflowName st;
         startedAt := startedAt st; lastUpdated := now;
         status := status st;
         iteration := iteration st; maxIterations := maxIterations st;
         completedStages :=
           if includes stageName (completedStages st)
           then completedStages st
           else completedStages st ++ [stageName];
         failedStage := clear_if stageName (failedStage st);
         pausedStage := clear_if stageName (pausedStage st);
         stageOutputs := <[stageName := stageResult]> (stageOutputs st);
         context := context st; executionOrder := executionOrder st;
         errorMessage := None |} σ
  end.

(** [updateStageFailure(workflowId, stageName, error)] *)
Definition updateStageFailure (now : Z) (id stageName message : string)
    (σ : Store) : Store :=
  match loadWorkflowState id σ with
  | None => σ
  | Some st =>
    saveWorkflowState
      {| workflowId := workflowId st; workflowName := workflowName st;
         startedAt := startedAt st; lastUpdated := now;
         status := workflow_failed;
         iteration := iteration st; maxIterations := maxIterations st;
         completedStages := completedStages st;
         failedStage := Some stageName;
         pausedStage := pausedStage st; stageOutputs := stageOutputs st;
         context := context st; executionOrder := executionOrder st;
         errorMessage := Some message |} σ
  end.

(** [markWorkflowCompleted(workflowId)] *)
Definition markWorkflowCompleted (now : Z) (id : string) (σ : Store) : Store :=
  match loadWorkflowState id σ with
  | None => σ
  | Some st =>
    saveWorkflowState
      {| workflowId := workflowId st; workflowName := workflowName st;
         startedAt := startedAt st; lastUpdated := now;
         status := completed;
         iteration := iteration st; maxIterations := maxIterations st;
         completedStages := completedStages st;
         failedStage := None; pausedStage := None;
         stageOutputs := stageOutputs st;
         context := context st; executionOrder := executionOrder st;
         errorMessage := None |} σ
  end.

(** The operations of the store, as calls. *)
Inductive Operation :=
  | Save (st : WorkflowState)
  | StageCompletion (now : Z) (id stageName : string) (r : StageResult)
  | StageFailure (now : Z) (id stageName message : string)
  | MarkCompleted (now : Z) (id : string)
  | Resume (now : Z) (id : string)
  | Cancel (now : Z) (id : string).

Definition run (op : Operation) (σ : Store) : Store :=
  match op with
  | Save st => saveWorkflowState st σ
  | StageCompletion now id n r => updateStageCompletion now id n r σ
  | StageFailure now id n msg => updateStageFailure now id n msg σ
  | MarkCompleted now id => markWorkflowCompleted now id σ
  | Resume now id =>
      match resumeWorkflow now id σ with
      | inl _ => σ
      | inr (_, σ') => σ'
      end
  | Cancel now id => snd (cancelWorkflow now id σ)
  end.

(** [status=completed] implies [failedStage=null] and [errorMessage=null]. *)
Definition completed_clean (st : WorkflowState) : Prop :=
  status st = completed → failedStage st = None ∧ errorMessage st = None.

Definition store_clean (σ : Store) : Prop :=
  ∀ id st, σ !! id = Some st → completed_clean st.

(** What an operation writes must itself respect the invariant: only
    [Save] takes a whole state from its caller. *)
Definition op_clean (op : Operation) : Prop :=
  match op with
  | Save st => completed_clean st
  | _ => True
  end.

End Persistence.

(** ** queue.js: workflow definitions and the dependency sorter *)

Module Queue.
Import Text Data.

(** A stage definition. [contextFrom] returns the derived context or the
    message of the error it throws. *)
Record Stage := {
  name : string;
  task : string;
  dependencies : list string;
  agentId : option string;
  timeoutMinutes : option nat;
  retries : option nat;
  contextFrom :
    option (gmap string StageResult → string + list (string * string))
}.

Record Workflow := {
  wf_name : string;
  stages : list Stage;
  stopOnError : option bool;
  retryOnFailure : option nat;
  stageTimeoutMinutes : option nat;
  workingDirectory : option string;
  wf_agentId : option string;
  iterationEnabled : option bool;
  maxIterations : option nat
}.

Definition stageNames (stages : list Stage) : list string := map name stages.

(** What [topologicalSort] throws: the TypeErrors of [adj[dep].push] on a
    dependency that names no stage ([adj[dep]] is [undefined], or an
    inherited value without a [push] method), and the two
    circular-dependency errors. [Unfinished] marks a loop cut short by its
    iteration budget; on a stage list that passes validation
    [topologicalSort] never returns it (see [topologicalSort_spec]). *)
Inductive SortError :=
  | TypeError
  | NotAFunction
  | CircularDetected (current : string)
  | CircularInvolving (remaining : list string)
  | Unfinished.

Definition sort_error_message (e : SortError) : string :=
  match e with
  | TypeError => "Cannot read properties of undefined (reading 'push')"
  | NotAFunction => "adj[dep].push is not a function"
  | CircularDetected current => "Circular dependency detected: " +:+ current
  | CircularInvolving remaining =>
      "Circular dependency detected involving: " +:+ join ", " remaining
  | Unfinished => "unfinished"
  end.

(** [adj] and [indegree] are plain objects, written and read at computed
    keys. An assignment makes every key an own property but [__proto__],
    the accessor of [Object.prototype]: [adj.__proto__ = []] makes the array
    the prototype of [adj], and [indegree.__proto__ = 0] does nothing, since
    0 is no object. Reading [indegree.__proto__] yields [Object.prototype],
    which is not [=== 0] and which [++] and [--] turn into NaN, written
    back to no effect.

    So [indegree] is the finite map of its own properties, which never has
    the key [__proto__], and [adj] is the finite map of its own properties
    together with its prototype: [Some] of the array that replaced
    [Object.prototype], if any. *)
Definition proto_key : string := "__proto__".

(** The string keys of [Object.prototype] and of [Array.prototype]
    (ECMAScript 2023, with Annex B). *)
Definition Object_prototype : list string :=
  ["constructor"; "hasOwnProperty"; "isPrototypeOf"; "propertyIsEnumerable";
   "toLocaleString"; "toString"; "valueOf"; "__proto__"; "__defineGetter__";
   "__defineSetter__"; "__lookupGetter__"; "__lookupSetter__"].

Definition Array_prototype : list string :=
  ["at"; "concat"; "copyWithin"; "entries"; "every"; "fill"; "filter"; "find";
   "findIndex"; "findLast"; "findLastIndex"; "flat"; "flatMap"; "forEach";
   "includes"; "indexOf"; "join"; "keys"; "lastIndexOf"; "map"; "pop"; "push";
   "reduce"; "reduceRight"; "reverse"; "shift"; "slice"; "some"; "sort";
   "splice"; "toReversed"; "toSorted"; "toSpliced"; "unshift"; "values";
   "with"].

(** Whether [adj[key]], for a key that is no own property of [adj], reads
    an inherited value: a property of [Object.prototype], or one of the
    array that is the prototype (an element, its length, a method). None of
    these values has a [push] method. *)
Definition inherits (proto : option (list string)) (key : string) : bool :=
  existsb (String.eqb key) Object_prototype ||
  match proto with
  | Some elements =>
      existsb (String.eqb key) Array_prototype || String.eqb key "length" ||
      existsb (λ i, String.eqb key (pretty i)) (seq 0 (length elements))
  | None => false
  end.

(** The first loop: [adj[stage.name] = []; indegree[stage.name] = 0]. *)
Fixpoint initialize (stages : list Stage)
    (adj : gmap string (list string)) (proto : option (list string))
    (indegree : gmap string Z)
  : gmap string (list string) * option (list string) * gmap string Z :=
  match stages with
  | [] => (adj, proto, indegree)
  | stage :: rest =>
      if String.eqb (name stage) proto_key
      then initialize rest adj (Some []) indegree
      else initialize rest (<[name stage := []]> adj) proto
             (<[name stage := 0%Z]> indegree)
  end.

(** The inner loop of the second: [adj[dep].push(stage.name);
    indegree[stage.name]++] for each dependency. For the stage named
    [__proto__], which has no own property in [indegree], the increment
    changes nothing. *)
Fixpoint add_edges (stageName : string) (deps : list string)
    (adj : gmap string (list string)) (proto : option (list string))
    (indegree : gmap string Z)
  : SortError +
    (gmap string (list string) * option (list string) * gmap string Z) :=
  match deps with
  | [] => inr (adj, proto, indegree)
  | dep :: rest =>
      if String.eqb dep proto_key then
        match proto with
        | Some elements =>
            add_edges stageName rest adj (Some (elements ++ [stageName]))
              (alter Z.succ stageName indegree)
        | None => inl NotAFunction
        end
      else
        match adj !! dep with
        | Some dependents =>
            add_edges stageName rest
              (<[dep := dependents ++ [stageName]]> adj) proto
              (alter Z.succ stageName indegree)
        | None => inl (if inherits proto dep then NotAFunction else TypeError)
        end
  end.

Fixpoint build_edges (stages : list Stage)
    (adj : gmap string (list string)) (proto : option (list string))
    (indegree : gmap string Z)
  : SortError +
    (gmap string (list string) * option (list string) * gmap string Z) :=
  match stages with
  | [] => inr (adj, proto, indegree)
  | stage :: rest =>
      match add_edges (name stage) (dependencies stage) adj proto indegree with
      | inl e => inl e
      | inr (adj', proto', indegree') => build_edges rest adj' proto' indegree'
      end
  end.

(** [for (const neighbor of adj[current])]: decrement, and push the
    neighbours whose indegree reaches zero. A key that is no own property
    of [indegree], as [__proto__] is, reads as a value that decrements to
    NaN, which never equals 0. *)
Fixpoint relax (neighbors : list string) (indegree : gmap string Z)
    (queue : list string) : gmap string Z * list string :=
  match neighbors with
  | [] => (indegree, queue)
  | neighbor :: rest =>
      match indegree !! neighbor with
      | None => relax rest indegree queue
      | Some d =>
          relax rest (<[neighbor := (d - 1)%Z]> indegree)
            (if (d - 1 =? 0)%Z then queue ++ [neighbor] else queue)
      end
  end.

(** [adj[current]], where [None] is a value that [for ... of] cannot
    iterate. The queue only ever holds names of stages other than
    [__proto__], which are own properties of [adj]. *)
Definition neighbors_of (adj : gmap string (list string))
    (proto : option (list string)) (current : string) : option (list string) :=
  if String.eqb current proto_key then proto else adj !! current.

(** The [while (queue.length > 0)] loop of Kahn's algorithm. *)
Fixpoint kahn (budget : nat) (adj : gmap string (list string))
    (proto : option (list string))
    (queue result : list string) (visited : gset string)
    (indegree : gmap string Z) : SortError + list string :=
  match queue with
  | [] => inr result
  | current :: queue' =>
      match budget with
      | 0 => inl Unfinished
      | S budget' =>
          if decide (current ∈ visited) then inl (CircularDetected current)
          else
            match neighbors_of adj proto current with
            | None => inl TypeError
            | Some neighbors =>
                let '(indegree', queue'') := relax neighbors indegree queue' in
                kahn budget' adj proto queue'' (result ++ [current])
                  ({[current]} ∪ visited) indegree'
            end
      end
  end.

(** [indegree[name] === 0] *)
Definition is_zero (indegree : gmap string Z) (n : string) : bool :=
  match indegree !! n with
  | Some d => (d =? 0)%Z
  | None => false
  end.

(** [topologicalSort(stages)]. Every turn of the loop either throws or adds
    a stage name to [visited], so one turn per stage is budget enough. *)
Definition topologicalSort (stages : list Stage) : SortError + list string :=
  let names := stageNames stages in
  let '(adj0, proto0, indegree0) := initialize stages ∅ None ∅ in
  match build_edges stages adj0 proto0 indegree0 with
  | inl e => inl e
  | inr (adj, proto, indegree) =>
      let queue := List.filter (is_zero indegree) names in
      match kahn (length names) adj proto queue [] ∅ indegree with
      | inl e => inl e
      | inr result =>
          if negb (length result =? length names)%nat then
            inl (CircularInvolving
                   (List.filter (λ n, negb (Persistence.includes n result)) names))
          else inr result
      end
  end.

(** [validateWorkflow(workflow)]: the list of violations. The checks on the
    JavaScript type of a field are discharged by the record types. *)
Definition stage_errors (all : list Stage) (i : nat) (stage : Stage)
  : list string :=
  (if String.eqb (name stage) ""
   then ["Stage " +:+ pretty i +:+
         ": stage.name is required and must be a string"] else []) ++
  (if String.eqb (task stage) ""
   then ["Stage " +:+ pretty i +:+
         ": stage.task is required and must be a string"] else []) ++
  (if existsb (λ '(j, s), String.eqb (name s) (name stage) && negb (j =? i)%nat)
        (imap pair all)
   then ["Duplicate stage name: " +:+ name stage] else []).

Definition dependency_errors (all : list Stage) (stage : Stage) : list string :=
  flat_map
    (λ dep,
       if Persistence.includes dep (stageNames all) then []
       else ["Stage " +:+ dq +:+ name stage +:+ dq +:+
             " depends on unknown stage: " +:+ dq +:+ dep +:+ dq])
    (dependencies stage).

Definition validateWorkflow (workflow : Workflow) : list string :=
  (if String.eqb (wf_name workflow) ""
   then ["workflow.name is required and must be a string"] else []) ++
  (match stages workflow with
   | [] => ["workflow.stages must have at least one stage"]
   | _ => []
   end) ++
  concat (imap (stage_errors (stages workflow)) (stages workflow)) ++
  flat_map (dependency_errors (stages workflow)) (stages workflow).

End Queue.

(** ** Regular expressions, by derivatives *)

Module Regex.
Import Text.

Inductive re :=
  | Never
  | Eps
  | Chr (p : ascii → bool)
  | Seq (r1 r2 : re)
  | Alt (r1 r2 : re)
  | Star (r : re).

Fixpoint nullable (r : re) : bool :=
  match r with
  | Never => false
  | Eps => true
  | Chr _ => false
  | Seq r1 r2 => nullable r1 && nullable r2
  | Alt r1 r2 => nullable r1 || nullable r2
  | Star _ => true
  end.

Fixpoint deriv (c : ascii) (r : re) : re :=
  match r with
  | Never => Never
  | Eps => Never
  | Chr p => if p c then Eps else Never
  | Seq r1 r2 =>
      if nullable r1
      then Alt (Seq (deriv c r1) r2) (deriv c r2)
      else Seq (deriv c r1) r2
  | Alt r1 r2 => Alt (deriv c r1) (deriv c r2)
  | Star r1 => Seq (deriv c r1) (Star r1)
  end.

Fixpoint matches (r : re) (s : string) : bool :=
  match s with
  | EmptyString => nullable r
  | String c s' => matches (deriv c r) s'
  end.

Definition any : re := Chr (λ _, true).
Definition Plus (r : re) : re := Seq r (Star r).
Definition Opt (r : re) : re := Alt r Eps.

(** [r.test(s)]: a match anywhere in [s]. *)
Definition test (r : re) (s : string) : bool :=
  matches (Seq (Star any) (Seq r (Star any))) s.

(** A literal under the [i] flag. *)
Fixpoint lit_ci (s : string) : re :=
  match s with
  | EmptyString => Eps
  | String c s' =>
      Seq (Chr (λ x, Ascii.eqb (to_lower x) (to_lower c))) (lit_ci s')
  end.

(** [\s] and [\d], on ASCII. *)
Definition is_space (c : ascii) : bool :=
  let n := nat_of_ascii c in
  (n =? 32) || ((9 <=? n) && (n <=? 13)).

Definition is_digit (c : ascii) : bool :=
  let n := nat_of_ascii c in (48 <=? n) && (n <=? 57).

Definition space : re := Chr is_space.
Definition digit : re := Chr is_digit.

End Regex.

(** ** queue.js: the evidence validator *)

Module Evidence.
Import Text Data Regex.

(** An entry of the file system: a regular file with its modification time
    and content, a directory, or a path at which [fs.stat] and [fs.access]
    fail with an error other than ENOENT (ENOTDIR below a regular file,
    EACCES, ENAMETOOLONG, a path with a null byte), with the message of that
    error. A path without an entry fails with ENOENT. *)
Inductive Entry :=
  | RegularFile (mtimeMs : Z) (content : string)
  | Directory (mtimeMs : Z)
  | Inaccessible (message : string).

Abbreviation FileSystem := (gmap string Entry).

Definition mtimeMs (e : Entry) : Z :=
  match e with
  | RegularFile t _ => t
  | Directory t => t
  | Inaccessible _ => 0
  end.

(** [stats.size]: the byte length of a file; a directory is never empty. *)
Definition size (e : Entry) : nat :=
  match e with
  | RegularFile _ c => String.length c
  | Directory _ => 4096
  | Inaccessible _ => 0
  end.

(** [content.length]: UTF-16 code units of UTF-8 encoded text. *)
Fixpoint utf16_length (s : string) : nat :=
  match s with
  | EmptyString => 0
  | String c s' =>
      let n := nat_of_ascii c in
      (if n <? 128 then 1
       else if n <? 192 then 0
       else if n <? 240 then 1
       else 2) + utf16_length s'
  end.

(** What the program reads from the JavaScript runtime: [JSON.parse] (the
    left summand is the message of the SyntaxError) and the working
    directory against which relative paths resolve. *)
Record Runtime := {
  JSON_parse : string → string + Json;
  cwd : string
}.

(** [path.isAbsolute(p) ? p : path.join(process.cwd(), p)] *)
Definition resolve (rt : Runtime) (p : string) : string :=
  match p with
  | String "/" _ => p
  | _ => cwd rt +:+ "/" +:+ p
  end.

(** The suffix of [s] that starts at the first [c]. *)
Fixpoint from_first (c : ascii) (s : string) : option string :=
  match s with
  | EmptyString => None
  | String a s' => if Ascii.eqb a c then Some s else from_first c s'
  end.

(** The prefix of [s] that ends at the last [c]. *)
Fixpoint upto_last (c : ascii) (s : string) : option string :=
  match s with
  | EmptyString => None
  | String a s' =>
      match upto_last c s' with
      | Some t => Some (String a t)
      | None => if Ascii.eqb a c then Some (String a EmptyString) else None
      end
  end.

Fixpoint has_prefix (p s : string) : bool :=
  match p, s with
  | EmptyString, _ => true
  | String a p', String b s' => Ascii.eqb a b && has_prefix p' s'
  | String _ _, EmptyString => false
  end.

(** The text that follows the first occurrence of [p] in [s]. *)
Fixpoint after_first (p s : string) : option string :=
  if has_prefix p s then Some (substring (String.length p) (String.length s) s)
  else
    match s with
    | EmptyString => None
    | String _ s' => after_first p s'
    end.

(** [output.match(/\{[\s\S]*"evidenceType"[\s\S]*\}/)]: the match starts at
    the first brace, needs the quoted key and a closing brace after it, and
    greedily extends to the last closing brace. *)
Definition match_evidence (output : string) : option string :=
  match from_first "{" output with
  | Some (String _ inner as candidate) =>
      match after_first (dq +:+ "evidenceType" +:+ dq) inner with
      | Some rest =>
          match from_first "}" rest with
          | Some _ => upto_last "}" candidate
          | None => None
          end
      | None => None
      end
  | _ => None
  end.

Definition fakeMarkers : list string :=
  ["i checked"; "looks good"; "seems fine"; "probably fine"; "should work";
   "verified mentally"].

(** U+2713 and U+2714 in UTF-8. *)
Definition check_mark : string :=
  String (ascii_of_nat 226) (String (ascii_of_nat 156)
    (String (ascii_of_nat 147) EmptyString)).
Definition heavy_check_mark : string :=
  String (ascii_of_nat 226) (String (ascii_of_nat 156)
    (String (ascii_of_nat 148) EmptyString)).

Definition counted (word : string) : re :=
  Seq (lit_ci word) (Seq (Star space) (Plus digit)).

Definition testMarkers : list re :=
  [ counted "passed:";
    counted "failed:";
    Alt (lit_ci check_mark) (Alt (lit_ci heavy_check_mark)
      (Alt (lit_ci "pass") (lit_ci "fail")));
    Seq (lit_ci "test") (Seq (Opt (lit_ci "s")) (Seq (Plus space)
      (Seq (lit_ci "run") (Seq (Opt (lit_ci "g")) (counted ":")))));
    Alt (lit_ci "PASS") (lit_ci "FAIL") ].

Definition defaultFixLog : string :=
  "/home/optimistprime/.openclaw/workspace/skills/sequential-agent-queue/fix-log-enhancement.md".

Record Validation := {
  valid : bool;
  evidence : option Json;
  errors : list string
}.

Definition is_nil {A} (l : list A) : bool :=
  match l with [] => true | _ => false end.

(** The checks on the content of the evidence file. *)
Definition content_errors (content path : string) (isDocStage : bool)
  : list string :=
  (match List.find (λ marker, includes_ci marker content) fakeMarkers with
   | Some marker =>
       if utf16_length content <? 200
       then ["Evidence contains fake verification marker: " +:+ dq +:+ "/" +:+
             marker +:+ "/i" +:+ dq +:+ " in " +:+ path]
       else []
   | None => []
   end) ++
  (if negb isDocStage && negb (existsb (λ m, test m content) testMarkers)
   then ["Evidence file lacks actual test output: " +:+ path] else []).

(** The body of the [try] around the evidence file. *)
Definition file_errors (rt : Runtime) (fs : FileSystem) (now : Z)
    (filePath : Json) (isDocStage : bool) : list string :=
  match filePath with
  | JStr path =>
      match fs !! resolve rt path with
      | None => ["Evidence file does not exist: " +:+ path]
      | Some (Inaccessible message) =>
          ["Error checking evidence file: " +:+ message]
      | Some entry =>
          let ageMs := (now - mtimeMs entry)%Z in
          (if (ageMs <? 100)%Z
           then ["Evidence file created too recently (" +:+ pretty ageMs +:+
                 "ms), appears fake: " +:+ path]
           else []) ++
          (if size entry =? 0
           then ["Evidence file is empty: " +:+ path] else []) ++
          match entry with
          | RegularFile _ content => content_errors content path isDocStage
          | _ =>
              ["Error checking evidence file: EISDIR: illegal operation on a directory, read"]
          end
      end
  | _ =>
      ["Error checking evidence file: The " +:+ dq +:+ "path" +:+ dq +:+
       " argument must be of type string"]
  end.

(** The fix log check. The handler reports the error ENOENT of [fs.access]
    and ignores every other: the one of a path that is [Inaccessible], and
    the one that [path.isAbsolute] throws for a fix log that is not a
    string. *)
Definition fixLog_errors (rt : Runtime) (fs : FileSystem)
    (fixLog : option Json) (isDocStage : bool) : list string :=
  if truthy fixLog || isDocStage then
    let fixLogPath :=
      if isDocStage && negb (truthy fixLog) then Some (JStr defaultFixLog)
      else fixLog in
    match fixLogPath with
    | Some (JStr path) =>
        match fs !! resolve rt path with
        | None => ["Fix log does not exist: " +:+ path]
        | Some _ => []
        end
    | _ => []
    end
  else [].

(** The entry that the validation of [output] stats as its evidence file,
    if it gets that far. *)
Definition evidence_file (rt : Runtime) (fs : FileSystem) (output : string)
  : option Entry :=
  match match_evidence output with
  | Some text =>
      match JSON_parse rt text with
      | inr ev =>
          match get "filePath" ev with
          | Some (JStr path) => fs !! resolve rt path
          | _ => None
          end
      | inl _ => None
      end
  | None => None
  end.

(** [validateCompletionEvidence(output, stageName, isDocStage)], reading the
    file system [fs] at clock time [now]. *)
Definition validateCompletionEvidence (rt : Runtime) (fs : FileSystem) (now : Z)
    (output stageName : string) (isDocStage : bool) : Validation :=
  match match_evidence output with
  | None =>
      {| valid := false; evidence := None;
         errors := ["No completionEvidence object found in agent output"] |}
  | Some text =>
      match JSON_parse rt text with
      | inl message =>
          {| valid := false; evidence := None;
             errors := ["Failed to parse evidence JSON: " +:+ message] |}
      | inr JNull =>
          {| valid := false; evidence := None;
             errors := ["Failed to parse evidence JSON: Cannot read properties of null (reading 'filePath')"] |}
      | inr ev =>
          let filePath := get "filePath" ev in
          let fixLog := get "fixLog" ev in
          let errs :=
            (if negb isDocStage && negb (truthy filePath) && negb (truthy fixLog)
             then ["Evidence missing required fields: filePath or fixLog"]
             else []) ++
            (match filePath with
             | Some p =>
                 if truthy filePath then file_errors rt fs now p isDocStage
                 else []
             | None => []
             end) ++
            fixLog_errors rt fs fixLog isDocStage in
          {| valid := is_nil errs; evidence := Some ev; errors := errs |}
      end
  end.

End Evidence.

(** ** queue.js: the stage executor *)

Module Executor.
Import Text Data Regex Evidence Queue.

(** An entry of [openclaw sessions --json]. *)
Record Session := {
  s_id : string;
  s_updatedAt : option Z;
  s_status : option string;
  s_messages : option (list Message)
}.

(** What the agent spawner returns. *)
Record SpawnResult := {
  sp_sessionId : option string;
  sp_output : option string
}.

(** What [waitForCompletion] returns. *)
Record Completion := {
  c_session : option Session;
  c_transcript : option (list Message)
}.

(** The polling of [waitForCompletion], summarised by how it ends: the
    stage timeout passes, or the session is found complete (or is gone). *)
Inductive WaitOutcome :=
  | TimedOut
  | Completed (session : option Session).

(** What the surroundings answer during one attempt of a stage. *)
Record AttemptEnv := {
  ae_spawn : string + SpawnResult;
  ae_duration : Z;
  ae_wait : WaitOutcome;
  ae_sessions : option (list Session);
  ae_now : Z;
  ae_outputFiles : option (list string);
  ae_saveError : option string;
  ae_fs : FileSystem;
  ae_validateAt : Z;
  ae_git : GitResult
}.

(** What the surroundings answer during one pass of the scheduler. *)
Record PassEnv := {
  pe_now : Z;
  pe_freshId : string;
  pe_cleanupErrors : list string;
  pe_fs : FileSystem
}.

Record Environment := {
  attemptEnv : nat → AttemptEnv;
  passEnv : nat → PassEnv
}.

(** Which of the optional modules were loaded. *)
Record Modules := {
  checkpoint : bool;
  errorHandler : bool;
  resourceManager : bool;
  persistence : bool
}.

(** The lines of the console log that matter to the properties. A
    [StageStarted] line is followed by the call of the spawner. *)
Inductive Event :=
  | WorkflowStarted (iteration : nat)
  | StageAlreadyComplete (stage : string)
  | StageSkipped (stage : string)
  | StageStarted (stage : string) (attempt : nat)
  | StageFailed (stage : string) (attempt : nat) (message : string)
  | StageHalted (stage : string) (attempt : nat)
  | StageRetry (stage : string) (delaySeconds : Z)
  | StageComplete (stage : string)
  | IterationRestart (iteration : nat).

(** The state that a run threads: the state store, the number of spawner
    calls and of scheduler passes so far, and the log. *)
Record World := {
  store : Persistence.Store;
  calls : nat;
  passes : nat;
  log : list Event
}.

Definition emit (e : Event) (w : World) : World :=
  {| store := store w; calls := calls w; passes := passes w;
     log := log w ++ [e] |}.

Definition count_call (w : World) : World :=
  {| store := store w; calls := S (calls w); passes := passes w;
     log := log w |}.

Definition count_pass (w : World) : World :=
  {| store := store w; calls := calls w; passes := S (passes w);
     log := log w |}.

Definition with_store (σ : Persistence.Store) (w : World) : World :=
  {| store := σ; calls := calls w; passes := passes w; log := log w |}.

(** [o || fallback] on an optional string. *)
Definition string_or (o : option string) (fallback : string) : string :=
  match o with
  | Some s => if String.eqb s "" then fallback else s
  | None => fallback
  end.

(** A truthy optional string. *)
Definition nonempty (o : option string) : option string :=
  match o with
  | Some s => if String.eqb s "" then None else Some s
  | None => None
  end.

Definition nat_or (o : option nat) (fallback : nat) : nat :=
  match o with
  | Some 0 | None => fallback
  | Some n => n
  end.

Definition newline : string := String (ascii_of_nat 10) EmptyString.

Definition formatTranscript (transcript : list Message) : string :=
  join (newline +:+ newline)
    (map (λ m, "[" +:+ string_or (m_role m) "assistant" +:+ "] " +:+
               string_or (m_content m) "") transcript).

(** [detectAbandonedStage(sessionId, stageName, workingDir)], on the session
    listing, the clock and the listing of the output directory that it
    reads; [None] is a failed read. *)
Definition detectAbandonedStage (sessions : option (list Session)) (now : Z)
    (outputFiles : option (list string)) (sessionId : string) : bool :=
  match sessions with
  | None => false
  | Some listing =>
      match List.find (λ s, String.eqb (s_id s) sessionId) listing with
      | None => false
      | Some session =>
          let lastUpdated := default 0%Z (s_updatedAt session) in
          if (600 * 1000 <? now - lastUpdated)%Z then
            negb (match outputFiles with
                  | Some (_ :: _) => true
                  | _ => false
                  end)
          else false
      end
  end.

Definition abandoned_message (stageName : string) : string :=
  "Stage " +:+ dq +:+ stageName +:+ dq +:+
  " was abandoned: session inactive but no output generated".

(** [stageName.replace(/[^a-zA-Z0-9-_]/g, '_')] *)
Definition keep_char (c : ascii) : bool :=
  let n := nat_of_ascii c in
  ((48 <=? n) && (n <=? 57)) || ((65 <=? n) && (n <=? 90)) ||
  ((97 <=? n) && (n <=? 122)) || (n =? 45) || (n =? 95).

Fixpoint sanitize (s : string) : string :=
  match s with
  | EmptyString => EmptyString
  | String c s' => String (if keep_char c then c else "_"%char) (sanitize s')
  end.

Definition outputFile (rt : Runtime) (workflow : Workflow) (stageName : string)
  : string :=
  string_or (workingDirectory workflow) (cwd rt) +:+ "/" +:+
  wf_name workflow +:+ "/outputs/" +:+ sanitize stageName +:+ "-output.txt".

Definition isDocStage (stageName : string) : bool :=
  test_any_ci ["doc"; "design"; "api"; "requirements"] stageName.

Definition effective_timeout (stage : Stage) (workflow : Workflow) : nat :=
  nat_or (timeoutMinutes stage) (nat_or (stageTimeoutMinutes workflow) 15).

(** [stage.retries !== undefined ? stage.retries : (workflow.retryOnFailure || 0)] *)
Definition effective_retries (stage : Stage) (workflow : Workflow) : nat :=
  match retries stage with
  | Some r => r
  | None => default 0 (retryOnFailure workflow)
  end.

(** The steps of an attempt after the session has been awaited: save the
    output, validate the evidence, commit, assemble the result. *)
Definition finish_attempt (rt : Runtime) (ae : AttemptEnv) (stage : Stage)
    (workflow : Workflow) (attempt : nat) (spawned : SpawnResult)
    (output : string) (sessionInfo : option Completion)
  : string + StageResult :=
  match ae_saveError ae with
  | Some message => inl message
  | None =>
      let validation :=
        validateCompletionEvidence rt (ae_fs ae) (ae_validateAt ae) output
          (name stage) (isDocStage (name stage)) in
      if negb (valid validation) then
        inl ("Stage " +:+ dq +:+ name stage +:+ dq +:+
             " failed evidence validation: " +:+ join "; " (errors validation))
      else
        inr {| sr_status := complete;
               sr_output := Some output;
               sr_file := Some (outputFile rt workflow (name stage));
               sr_duration := ae_duration ae;
               sr_attempts := Some attempt;
               sr_error := None;
               sr_reason := None;
               sr_unmetDependencies := [];
               sr_sessionId := sp_sessionId spawned;
               sr_evidence := evidence validation;
               sr_gitCommit := Some (ae_git ae);
               sr_sessionTranscript := sessionInfo ≫= c_transcript;
               sr_transcript := None;
               sr_message := None |}
  end.

(** The body of the [try] of one attempt: its outcome (the message of the
    error thrown, or the stage result) and the value of [sessionInfo], a
    variable that outlives the attempt, when it ends. *)
Definition run_attempt (rt : Runtime) (ae : AttemptEnv) (stage : Stage)
    (workflow : Workflow) (attempt : nat) (sessionInfo : option Completion)
  : (string + StageResult) * option Completion :=
  match ae_spawn ae with
  | inl message => (inl message, sessionInfo)
  | inr spawned =>
      let output := string_or (sp_output spawned) "(No output)" in
      match nonempty (sp_sessionId spawned) with
      | None =>
          (finish_attempt rt ae stage workflow attempt spawned output
             sessionInfo,
           sessionInfo)
      | Some sessionId =>
          match ae_wait ae with
          | TimedOut =>
              (inl ("Session " +:+ sessionId +:+ " did not complete within " +:+
                    pretty (effective_timeout stage workflow * 60) +:+ " seconds"),
               sessionInfo)
          | Completed session =>
              let completion :=
                {| c_session := session;
                   c_transcript := session ≫= s_messages |} in
              let output' :=
                match c_transcript completion with
                | Some ((_ :: _) as transcript) => formatTranscript transcript
                | _ => output
                end in
              if detectAbandonedStage (ae_sessions ae) (ae_now ae)
                   (ae_outputFiles ae) sessionId
              then (inl (abandoned_message (name stage)), Some completion)
              else
                (finish_attempt rt ae stage workflow attempt spawned output'
                   (Some completion),
                 Some completion)
          end
      end
  end.

(** The report that [executeStage] throws when it gives up. *)
Record ErrorReport := {
  er_stage : string;
  er_attempts : nat;
  er_lastError : string;
  er_sessionId : option string;
  er_sessionTranscript : option (list Message)
}.

(** What [executeStage] throws to the scheduler: the error of
    [contextFrom], the ReferenceError of the [catch] block, or the report. *)
Inductive StageFailure :=
  | ContextFromFailed (message : string)
  | ReferenceError
  | GaveUp (report : ErrorReport).

Definition report (stage : Stage) (workflow : Workflow)
    (sessionInfo : option Completion) (lastError : string) : StageFailure :=
  GaveUp
    {| er_stage := name stage;
       er_attempts := effective_retries stage workflow + 1;
       er_lastError := lastError;
       er_sessionId := s_id <$> (sessionInfo ≫= c_session);
       er_sessionTranscript := sessionInfo ≫= c_transcript |}.

(** The retry loop [for (attempt = 1; attempt <= maxRetries + 1; attempt++)],
    over the attempt numbers still to run.

    The [catch] block builds the arguments of [handleWorkflowError] and of
    the checkpoint with [result?.sessionId], but [result] is a [const] of
    the [try] block and is not in scope there: when the error handler or
    the checkpoint library is loaded, evaluating it throws a ReferenceError
    out of [executeStage]. Otherwise [errorHandlingResult] stays [null],
    the retry test is [attempt <= maxRetries] and the delay [5 * attempt]. *)
Fixpoint attempts_loop (rt : Runtime) (mods : Modules) (env : Environment)
    (stage : Stage) (workflow : Workflow) (attempts : list nat)
    (sessionInfo : option Completion) (lastError : string) (w : World)
  : (StageFailure + StageResult) * World :=
  match attempts with
  | [] => (inl (report stage workflow sessionInfo lastError), w)
  | attempt :: rest =>
      let ae := attemptEnv env (calls w) in
      let w1 := count_call (emit (StageStarted (name stage) attempt) w) in
      let '(outcome, sessionInfo') :=
        run_attempt rt ae stage workflow attempt sessionInfo in
      match outcome with
      | inr result => (inr result, emit (StageComplete (name stage)) w1)
      | inl message =>
          let w2 := emit (StageFailed (name stage) attempt message) w1 in
          let maxRetries := effective_retries stage workflow in
          if errorHandler mods || checkpoint mods then (inl ReferenceError, w2)
          else
            let shouldRetry := attempt <=? maxRetries in
            if negb shouldRetry then
              (inl (report stage workflow sessionInfo' message),
               emit (StageHalted (name stage) attempt) w2)
            else
              attempts_loop rt mods env stage workflow rest sessionInfo' message
                (emit (StageRetry (name stage) (5 * Z.of_nat attempt)%Z) w2)
      end
  end.

(** [executeStage(stage, workflow, stageOutputs, context, agentSpawner)].
    The task text handed to the spawner is not part of the model: it
    reaches no field of the result except through the spawner's answer,
    which the environment supplies. The substitution of the placeholders
    by [injectContext] is taken to succeed: the [SyntaxError] of
    [new RegExp] for a context key that is not a well-formed pattern (an
    unbalanced parenthesis, say) is outside the model. *)
Definition executeStage (rt : Runtime) (mods : Modules) (env : Environment)
    (stage : Stage) (workflow : Workflow)
    (stageOutputs : gmap string StageResult) (w : World)
  : (StageFailure + StageResult) * World :=
  match
    match contextFrom stage with
    | Some callback =>
        match callback stageOutputs with
        | inl message => Some message
        | inr _ => None
        end
    | None => None
    end
  with
  | Some message =>
      (inl (ContextFromFailed
              ("contextFrom callback failed for stage " +:+ dq +:+ name stage +:+
               dq +:+ ": " +:+ message)), w)
  | None =>
      attempts_loop rt mods env stage workflow
        (seq 1 (effective_retries stage workflow + 1)) None "" w
  end.

(** The failed attempts that the log records for a stage. *)
Definition is_failure_of (stage : string) (e : Event) : bool :=
  match e with
  | StageFailed s _ _ => String.eqb s stage
  | _ => false
  end.

Definition failures_encountered (stage : string) (events : list Event) : nat :=
  length (List.filter (is_failure_of stage) events).

End Executor.

(** ** queue.js: the scheduler and the iteration controller *)

Module Scheduler.
Import Text Data Regex Evidence Queue Executor.

(** What [checkCriticalGaps] returns: [false], or an object. *)
Inductive GapCheck :=
  | NoCheck
  | Gaps (hasCriticalGaps : bool) (count : nat) (gaps : option (list Json))
         (fromTranscript : bool).

(** [gapCheck.hasCriticalGaps], [undefined] on [false]. *)
Definition hasCriticalGaps (g : GapCheck) : bool :=
  match g with
  | Gaps b _ _ _ => b
  | NoCheck => false
  end.

Definition gaps_of (g : GapCheck) : option (list Json) :=
  match g with
  | Gaps _ _ gaps _ => gaps
  | NoCheck => None
  end.

Definition settled : list string :=
  ["resolved"; "deferred"; "mitigated"; "accepted-risk"].

(** The filter callback on one gap; [None] when it throws a TypeError. *)
Definition critical (gap : Json) : option bool :=
  match gap with
  | JNull => None
  | _ =>
      match get "priority" gap with
      | Some (JStr "HIGH") =>
          if truthy (get "status" gap) then
            match get "status" gap with
            | Some (JStr status) =>
                Some (negb (Persistence.includes (lower status) settled))
            | _ => None
            end
          else Some false
      | _ => Some false
      end
  end.

Fixpoint filter_critical (gaps : list Json) : option (list Json) :=
  match gaps with
  | [] => Some []
  | gap :: rest =>
      match critical gap, filter_critical rest with
      | Some true, Some kept => Some (gap :: kept)
      | Some false, Some kept => Some kept
      | _, _ => None
      end
  end.

(** [[^\n]+?lit]: at least one character of the line, then the first [lit];
    the result is the text after the match. *)
Fixpoint lazy_line_until (lit s : string) : option string :=
  match s with
  | EmptyString => None
  | String c s' =>
      if Ascii.eqb c (ascii_of_nat 10) then None
      else if prefix_ci lit s'
      then Some (substring (String.length lit) (String.length s') s')
      else lazy_line_until lit s'
  end.

Fixpoint skip_spaces (s : string) : string :=
  match s with
  | String c s' => if is_space c then skip_spaces s' else s
  | EmptyString => s
  end.

Definition after_prefix_ci (lit s : string) : option string :=
  if prefix_ci lit s
  then Some (substring (String.length lit) (String.length s) s)
  else None.

(** A match of
    [/gap[^\n]+?high|high[^\n]+?gap|critical[^\n]+?gap|priority:\s*high/gi]
    at the start of [s]: the text after it. *)
Definition gap_match_at (s : string) : option string :=
  match after_prefix_ci "gap" s ≫= lazy_line_until "high" with
  | Some rest => Some rest
  | None =>
    match after_prefix_ci "high" s ≫= lazy_line_until "gap" with
    | Some rest => Some rest
    | None =>
      match after_prefix_ci "critical" s ≫= lazy_line_until "gap" with
      | Some rest => Some rest
      | None =>
          after_prefix_ci "priority:" s ≫=
            (λ rest, after_prefix_ci "high" (skip_spaces rest))
      end
    end
  end.

(** The number of matches that [transcript.match(...)] returns. *)
Fixpoint count_gap_mentions (budget : nat) (s : string) : nat :=
  match budget with
  | 0 => 0
  | S budget' =>
      match s with
      | EmptyString => 0
      | String _ s' =>
          match gap_match_at s with
          | Some rest => S (count_gap_mentions budget' rest)
          | None => count_gap_mentions budget' s'
          end
      end
  end.

(** The outcome of looking into the evidence file. *)
Inductive EvidenceGaps :=
  | Found (gaps : list Json)
  | Nothing
  | Raised.

Definition gaps_in_evidence (rt : Runtime) (fs : FileSystem) (ev : Json)
  : EvidenceGaps :=
  if truthy (get "filePath" ev) then
    match get "filePath" ev with
    | Some (JStr path) =>
        match fs !! resolve rt path with
        | Some (RegularFile _ content) =>
            match JSON_parse rt content with
            | inr JNull | inl _ => Raised
            | inr parsed =>
                match get "gaps" parsed with
                | Some (JArr gaps) =>
                    match filter_critical gaps with
                    | Some [] => Nothing
                    | Some criticalGaps => Found criticalGaps
                    | None => Raised
                    end
                | _ => Nothing
                end
            end
        | _ => Raised
        end
    | _ => Raised
    end
  else Nothing.

(** [checkCriticalGaps(stageOutput)], reading the file system [fs]. *)
Definition checkCriticalGaps (rt : Runtime) (fs : FileSystem)
    (stageOutput : option StageResult) : GapCheck :=
  match stageOutput with
  | None => NoCheck
  | Some out =>
      match nonempty (sr_transcript out), sr_evidence out with
      | Some transcript, Some ev =>
          if negb (truthy (Some ev)) then NoCheck
          else
            match gaps_in_evidence rt fs ev with
            | Found criticalGaps =>
                Gaps true (length criticalGaps) (Some criticalGaps) false
            | Raised => Gaps false 0 None false
            | Nothing =>
                let mentions :=
                  count_gap_mentions (String.length transcript) transcript in
                if 2 <? mentions then Gaps true mentions None true
                else Gaps false 0 None false
            end
      | _, _ => NoCheck
      end
  end.

Inductive IterationStatus : Set :=
  | restart_detected | no_gaps | reached_max | not_enabled.

Record IterationInfo := {
  it_current : nat;
  it_max : nat;
  it_enabled : bool;
  it_status : IterationStatus;
  it_previousIterations : list IterationRecord
}.

(** The aggregate that [executeWorkflow] returns. *)
Record WorkflowResult := {
  r_success : bool;
  r_workflow : string;
  r_workflowId : option string;
  r_stages : gmap string StageResult;
  r_failedStage : option string;
  r_executionOrder : list string;
  r_iteration : IterationInfo
}.

(** How a call of [executeWorkflow] ends. [OutOfBudget] marks a recursion
    cut short by its budget; [executeWorkflow] never ends so (see
    [executeWorkflow_finishes]). *)
Inductive Outcome :=
  | Returned (r : WorkflowResult)
  | Threw (message : string)
  | OutOfBudget.

(** The host of the queue: the runtime, the loaded modules, and
    [JSON.stringify] on the error report. *)
Record Host := {
  runtime : Runtime;
  modules : Modules;
  JSON_stringify : ErrorReport → string
}.

(** [error.message] of what [executeStage] throws. *)
Definition failure_message (host : Host) (f : StageFailure) : string :=
  match f with
  | ContextFromFailed message => message
  | ReferenceError => "result is not defined"
  | GaveUp r => JSON_stringify host r
  end.

Definition skipped_result (unmetDeps : list string) : StageResult :=
  {| sr_status := skipped; sr_output := None; sr_file := None;
     sr_duration := 0; sr_attempts := Some 0; sr_error := None;
     sr_reason := Some "Unmet dependencies";
     sr_unmetDependencies := unmetDeps; sr_sessionId := None;
     sr_evidence := None; sr_gitCommit := None;
     sr_sessionTranscript := None; sr_transcript := None;
     sr_message := None |}.

Definition resumed_result : StageResult :=
  {| sr_status := complete; sr_output := None; sr_file := None;
     sr_duration := 0; sr_attempts := Some 0; sr_error := None;
     sr_reason := None; sr_unmetDependencies := []; sr_sessionId := None;
     sr_evidence := None; sr_gitCommit := None;
     sr_sessionTranscript := None; sr_transcript := None;
     sr_message := Some "Completed in previous run (resumed)" |}.

Definition failed_result (message : string) (attempts : nat) : StageResult :=
  {| sr_status := failed; sr_output := None; sr_file := None;
     sr_duration := 0; sr_attempts := None;
     sr_error := Some {| e_message := message; e_attempts := attempts |};
     sr_reason := None; sr_unmetDependencies := []; sr_sessionId := None;
     sr_evidence := None; sr_gitCommit := None;
     sr_sessionTranscript := None; sr_transcript := None;
     sr_message := None |}.

Definition is_complete (stageOutputs : gmap string StageResult) (dep : string)
  : bool :=
  match stageOutputs !! dep with
  | Some r => match sr_status r with complete => true | _ => false end
  | None => false
  end.

(** The [try]/[catch] of the scheduler around [executeStage]: the stage
    result that it stores, whether the stage failed, and the world after
    the state store was updated. *)
Definition schedule_stage (host : Host) (env : Environment) (now : Z)
    (workflow : Workflow) (workflowState : option Persistence.WorkflowState)
    (stage : Stage) (stageOutputs : gmap string StageResult) (w : World)
  : StageResult * bool * World :=
  let persist (update : string → Persistence.Store → Persistence.Store)
              (w' : World) : World :=
    match workflowState with
    | Some st =>
        if persistence (modules host)
        then with_store (update (Persistence.workflowId st) (store w')) w'
        else w'
    | None => w'
    end in
  match executeStage (runtime host) (modules host) env stage workflow
          stageOutputs w with
  | (inr result, w') =>
      (result, false,
       persist (λ id, Persistence.updateStageCompletion now id (name stage) result)
         w')
  | (inl failure, w') =>
      let message := failure_message host failure in
      (failed_result message (effective_retries stage workflow + 1), true,
       persist (λ id, Persistence.updateStageFailure now id (name stage) message)
         w')
  end.

(** One turn of the loop over the execution order. *)
Inductive Turn :=
  | Continue (stageOutputs : gmap string StageResult)
             (failedStage : option string) (w : World)
  | Break (stageOutputs : gmap string StageResult)
          (failedStage : option string) (w : World)
  | Crash (w : World).

(** [isResume && workflowState && workflowState.completedStages.includes(stageName)] *)
Definition already_complete (isResume : bool)
    (workflowState : option Persistence.WorkflowState) (stageName : string)
  : option Persistence.WorkflowState :=
  match workflowState with
  | Some st =>
      if isResume &&
         Persistence.includes stageName (Persistence.completedStages st)
      then Some st else None
  | None => None
  end.

(** The body of the loop. [Crash] is the TypeError of reading
    [stage.dependencies] when no stage has the name. *)
Definition turn (host : Host) (env : Environment) (now : Z)
    (workflow : Workflow) (isResume : bool)
    (workflowState : option Persistence.WorkflowState) (stopOnError : bool)
    (stageName : string) (stageOutputs : gmap string StageResult)
    (failedStage : option string) (w : World) : Turn :=
  match List.find (λ s, String.eqb (name s) stageName) (stages workflow) with
  | None => Crash w
  | Some stage =>
      match already_complete isResume workflowState stageName with
      | Some st =>
          Continue
            (<[stageName :=
                 default resumed_result (Persistence.stageOutputs st !! stageName)]>
               stageOutputs)
            failedStage (emit (StageAlreadyComplete stageName) w)
      | None =>
          match List.filter (λ dep, negb (is_complete stageOutputs dep))
                  (dependencies stage) with
          | (_ :: _) as unmetDeps =>
              Continue (<[stageName := skipped_result unmetDeps]> stageOutputs)
                failedStage (emit (StageSkipped stageName) w)
          | [] =>
              let '(result, threw, w') :=
                schedule_stage host env now workflow workflowState stage
                  stageOutputs w in
              if threw then
                if stopOnError
                then Break (<[stageName := result]> stageOutputs)
                       (Some stageName) w'
                else Continue (<[stageName := result]> stageOutputs)
                       (Some stageName) w'
              else Continue (<[stageName := result]> stageOutputs) failedStage w'
          end
      end
  end.

(** The loop [for (let i = 0; i < executionOrder.length; i++)]: the stage
    outputs and the failed stage when it ends, [None] when a turn crashes. *)
Fixpoint run_stages (host : Host) (env : Environment) (now : Z)
    (workflow : Workflow) (isResume : bool)
    (workflowState : option Persistence.WorkflowState) (stopOnError : bool)
    (order : list string) (stageOutputs : gmap string StageResult)
    (failedStage : option string) (w : World)
  : option (gmap string StageResult * option string) * World :=
  match order with
  | [] => (Some (stageOutputs, failedStage), w)
  | stageName :: rest =>
      match turn host env now workflow isResume workflowState stopOnError
              stageName stageOutputs failedStage w with
      | Crash w' => (None, w')
      | Break outputs failedStage' w' => (Some (outputs, failedStage'), w')
      | Continue outputs failedStage' w' =>
          run_stages host env now workflow isResume workflowState stopOnError
            rest outputs failedStage' w'
      end
  end.

(** [Object.values(stageOutputs).some(s => s.status === 'failed')] *)
Definition is_failed (r : StageResult) : bool :=
  match sr_status r with failed => true | _ => false end.

Definition some_failed (stageOutputs : gmap string StageResult) : bool :=
  existsb (λ entry, is_failed entry.2) (map_to_list stageOutputs).

(** A pass that does not resume: a new state object is created and saved,
    when the persistence module is loaded. *)
Definition fresh_pass (host : Host) (pe : PassEnv) (workflow : Workflow)
    (executionOrder : list string) (currentIteration maxIterations : nat)
    (context : Context) (w : World)
  : option Persistence.WorkflowState * bool * Context * World :=
  if persistence (modules host) then
    let st :=
      {| Persistence.workflowId := pe_freshId pe;
         Persistence.workflowName := wf_name workflow;
         Persistence.startedAt := pe_now pe;
         Persistence.lastUpdated := pe_now pe;
         Persistence.status := Persistence.running;
         Persistence.iteration := currentIteration;
         Persistence.maxIterations := maxIterations;
         Persistence.completedStages := [];
         Persistence.failedStage := None;
         Persistence.pausedStage := None;
         Persistence.stageOutputs := ∅;
         Persistence.context := context;
         Persistence.executionOrder := executionOrder;
         Persistence.errorMessage := None |} in
    (Some st, false, context,
     with_store (Persistence.saveWorkflowState st (store w)) w)
  else (None, false, context, w).

(** The state that a pass starts from: the state object, whether the pass
    resumes, the context, and the world; or the message of the error that
    a required resume throws. *)
Definition begin_pass (host : Host) (pe : PassEnv) (workflow : Workflow)
    (executionOrder : list string) (currentIteration maxIterations : nat)
    (context : Context) (w : World)
  : string + (option Persistence.WorkflowState * bool * Context * World) :=
  let fresh :=
    fresh_pass host pe workflow executionOrder currentIteration maxIterations
      context w in
  match
    if persistence (modules host) then nonempty (ctx_workflowId context)
    else None
  with
  | Some id =>
      match Persistence.resumeWorkflow (pe_now pe) id (store w) with
      | inr (data, σ) =>
          inr (Some (Persistence.rd_state data), true,
               spread context (Persistence.rd_context data), with_store σ w)
      | inl message =>
          match ctx_requireResume context with
          | Some false => inr fresh
          | _ => inl message
          end
      end
  | None => inr fresh
  end.

Definition newContext (context : Context) (currentIteration : nat)
    (stageOutputs : gmap string StageResult) (gapCheck : GapCheck) : Context :=
  {| ctx_iteration := Some (currentIteration + 1);
     ctx_previousIterations :=
       Some (default [] (ctx_previousIterations context) ++
             [{| ir_iteration := currentIteration;
                 ir_stageOutputs := stageOutputs;
                 ir_gaps := gaps_of gapCheck |}]);
     ctx_workflowId := ctx_workflowId context;
     ctx_requireResume := ctx_requireResume context;
     ctx_vars := ctx_vars context |}.

Definition effective_maxIterations (workflow : Workflow) : nat :=
  nat_or (maxIterations workflow) 3.

Definition is_none {A} (o : option A) : bool :=
  match o with None => true | Some _ => false end.

(** How the body of [executeWorkflow] ends: with an outcome, or with the
    call of itself on the context of the next iteration. *)
Inductive PassEnd :=
  | Done (outcome : Outcome) (w : World)
  | Recurse (context : Context) (w : World).

(** [markWorkflowCompleted], when the module is loaded, a state object
    exists and the pass succeeded. *)
Definition mark_completed (host : Host) (now : Z)
    (workflowState : option Persistence.WorkflowState) (success : bool)
    (w : World) : World :=
  match workflowState with
  | Some st =>
      if persistence (modules host) && success
      then with_store
             (Persistence.markWorkflowCompleted now (Persistence.workflowId st)
                (store w)) w
      else w
  | None => w
  end.

(** The body of [executeWorkflow(workflow, context, agentSpawner)]. *)
Definition run_pass (host : Host) (env : Environment) (workflow : Workflow)
    (context : Context) (w : World) : PassEnd :=
  match validateWorkflow workflow with
  | (_ :: _) as violations =>
      Done (Threw ("Invalid workflow: " +:+ join ", " violations)) w
  | [] =>
    match topologicalSort (stages workflow) with
    | inl e => Done (Threw (sort_error_message e)) w
    | inr executionOrder =>
      let pe := passEnv env (passes w) in
      let stopOnError := default true (stopOnError workflow) in
      let iterationEnabled := default true (iterationEnabled workflow) in
      let maxIterations := effective_maxIterations workflow in
      let currentIteration := default 0 (ctx_iteration context) in
      match begin_pass host pe workflow executionOrder currentIteration
              maxIterations context (count_pass w) with
      | inl message => Done (Threw message) (count_pass w)
      | inr (workflowState, isResume, context', w1) =>
        if resourceManager (modules host) && negb (is_nil (pe_cleanupErrors pe))
        then
          Done (Threw ("Pre-workflow cleanup failed: " +:+
                       join ", " (pe_cleanupErrors pe))) w1
        else
          match run_stages host env (pe_now pe) workflow isResume workflowState
                  stopOnError executionOrder ∅ None
                  (emit (WorkflowStarted currentIteration) w1) with
          | (None, w2) =>
              Done (Threw "Cannot read properties of undefined (reading 'dependencies')")
                w2
          | (Some (stageOutputs, failedStage), w2) =>
            let success :=
              is_none failedStage && negb (some_failed stageOutputs) in
            let finish (status : IterationStatus) : PassEnd :=
              Done
                (Returned
                   {| r_success := success;
                      r_workflow := wf_name workflow;
                      r_workflowId := Persistence.workflowId <$> workflowState;
                      r_stages := stageOutputs;
                      r_failedStage := failedStage;
                      r_executionOrder := executionOrder;
                      r_iteration :=
                        {| it_current := currentIteration;
                           it_max := maxIterations;
                           it_enabled := iterationEnabled;
                           it_status := status;
                           it_previousIterations :=
                             default [] (ctx_previousIterations context') |} |})
                (mark_completed host (pe_now pe) workflowState success w2) in
            if success && iterationEnabled then
              if currentIteration <? maxIterations then
                let lastStageOutput :=
                  last executionOrder ≫= (λ lastStage, stageOutputs !! lastStage) in
                let gapCheck :=
                  checkCriticalGaps (runtime host) (pe_fs pe) lastStageOutput in
                if hasCriticalGaps gapCheck then
                  Recurse
                    (newContext context' currentIteration stageOutputs gapCheck)
                    (emit (IterationRestart currentIteration) w2)
                else finish no_gaps
              else finish reached_max
            else finish not_enabled
          end
      end
    end
  end.

(** [executeWorkflow] calling itself, with a budget for the calls. *)
Fixpoint executeWorkflow_rec (budget : nat) (host : Host) (env : Environment)
    (workflow : Workflow) (context : Context) (w : World) : Outcome * World :=
  match budget with
  | 0 => (OutOfBudget, w)
  | S budget' =>
      match run_pass host env workflow context w with
      | Done outcome w' => (outcome, w')
      | Recurse context' w' =>
          executeWorkflow_rec budget' host env workflow context' w'
      end
  end.

(** [executeWorkflow(workflow, context, agentSpawner)]: a restart needs
    [currentIteration < maxIterations] and adds one to the iteration, so
    [maxIterations + 1] calls are budget enough. *)
Definition executeWorkflow (host : Host) (env : Environment)
    (workflow : Workflow) (context : Context) (w : World) : Outcome * World :=
  executeWorkflow_rec (S (effective_maxIterations workflow)) host env workflow
    context w.

(** The restarts that a log records. *)
Definition is_restart (e : Event) : bool :=
  match e with IterationRestart _ => true | _ => false end.

Definition restarts (events : list Event) : nat :=
  length (List.filter is_restart events).

(** No stage result is still pending. *)
Definition terminal_outputs (stageOutputs : gmap string StageResult) : Prop :=
  ∀ n r, stageOutputs !! n = Some r → sr_status r ≠ pending.

(** No stage result has the [transcript] property. *)
Definition no_transcript (stageOutputs : gmap string StageResult) : Prop :=
  ∀ n r, stageOutputs !! n = Some r → sr_transcript r = None.

(** The stage results that the state store holds are terminal: they were
    written by [updateStageCompletion]. *)
Definition store_terminal (σ : Persistence.Store) : Prop :=
  ∀ id st, σ !! id = Some st → terminal_outputs (Persistence.stageOutputs st).

Definition state_terminal (workflowState : option Persistence.WorkflowState)
  : Prop :=
  ∀ st, workflowState = Some st → terminal_outputs (Persistence.stageOutputs st).

(** From [w] to [w'] the log grew, without a restart, within one pass. *)
Definition quiet_since (w w' : World) : Prop :=
  passes w' = passes w ∧
  ∃ new, log w' = log w ++ new ∧ restarts new = 0.

(** [Some r] when the call returned [r]. *)
Definition returned (o : Outcome) : option WorkflowResult :=
  match o with Returned r => Some r | _ => None end.

End Scheduler.

(** ** The dependency graph of a stage list *)

Module Graph.
Import Data Queue.

(** [depends_on stages n d]: a stage named [n] lists [d] as a dependency. *)
Definition depends_on (stages : list Stage) (n d : string) : Prop :=
  ∃ s, s ∈ stages ∧ name s = n ∧ d ∈ dependencies s.

(** Every dependency name refers to a defined stage. *)
Definition resolved (stages : list Stage) : Prop :=
  ∀ s d, s ∈ stages → d ∈ dependencies s → d ∈ stageNames stages.

(** A stage is on a cycle when it reaches itself along dependencies. *)
Definition on_cycle (stages : list Stage) (n : string) : Prop :=
  tc (depends_on stages) n n.

Definition acyclic (stages : list Stage) : Prop :=
  ∀ n, ¬ on_cycle stages n.

(** [before order a b]: [a] stands at a strictly smaller index than [b]. *)
Definition before (order : list string) (a b : string) : Prop :=
  ∃ i j, order !! i = Some a ∧ order !! j = Some b ∧ i < j.

End Graph.

Module Order.
Import Data Queue Graph.

(** A list built by appending, each name after all its dependencies. *)
Inductive topo (stages : list Stage) : list string → Prop :=
  | topo_nil : topo stages []
  | topo_snoc order n :
      topo stages order →
      (∀ d, depends_on stages n d → d ∈ order) →
      topo stages (order ++ [n]).

(** The dependencies of all stages named [n], in definition order. *)
Definition deps_all (stages : list Stage) (n : string) : list string :=
  flat_map dependencies (filter (λ s, name s = n) stages).

(** The stages that list [d], one entry per occurrence: what the sorter
    stores in [adj[d]]. *)
Definition dependents (stages : list Stage) (d : string) : list string :=
  flat_map (λ s, map (λ _, name s) (filter (λ x, x = d) (dependencies s))) stages.

(** Number of occurrences of [x] in [l]. *)
Definition occ (x : string) (l : list string) : nat :=
  length (filter (λ y, y = x) l).

(** The dependency entries of [n] not yet emitted. *)
Definition waiting (stages : list Stage) (result : list string) (n : string)
  : nat :=
  length (filter (λ d, d ∉ result) (deps_all stages n)).

(** The stage that [n] still waits for, if any. *)
Definition waits_for (stages : list Stage) (result : list string) (n : string)
  : string :=
  default n (head (filter (λ d, d ∉ result) (deps_all stages n))).

(** The loop invariant of Kahn's algorithm. The stage named [__proto__],
    if there is one, has no entry in [indegree] and is never queued. *)
Record kahn_inv (stages : list Stage) (queue result : list string)
    (visited : gset string) (indegree : gmap string Z) : Prop := {
  inv_visited : visited = list_to_set result;
  inv_nodup : NoDup (result ++ queue);
  inv_names : ∀ n, n ∈ result ++ queue → n ∈ stageNames stages;
  inv_proto : (proto_key ∉ result ++ queue) ∧ indegree !! proto_key = None;
  inv_indegree :
    ∀ n, n ∈ stageNames stages → n ≠ proto_key →
         indegree !! n = Some (Z.of_nat (waiting stages result n));
  inv_ready :
    ∀ n, n ∈ stageNames stages → n ≠ proto_key →
         (n ∈ result ++ queue ↔ waiting stages result n = 0);
  inv_topo : topo stages result
}.

End Order.

(** ** What a halted pass leaves behind *)

Module Halting.
Import Data Queue Scheduler Graph.

(** The pass stopped at [F]: the stages after [F] in the execution order
    have no result, and no stage that depends on [F], directly or through
    other stages, is complete. *)
Definition halted_at (stages : list Stage) (r : WorkflowResult) (F : string)
  : Prop :=
  (∃ pre post,
     r_executionOrder r = pre ++ F :: post ∧
     ∀ n, n ∈ post → r_stages r !! n = None) ∧
  ∀ D, tc (depends_on stages) D F → is_complete (r_stages r) D = false.

End Halting.

(** ** Concrete workflows and surroundings, for the examples *)

Module Scenario.
Import Text Data Evidence Queue Executor Scheduler.

Definition quoted (s : string) : string := dq +:+ s +:+ dq.

Definition simple_stage (n : string) (deps : list string) : Stage :=
  {| name := n; task := "Run " +:+ n; dependencies := deps; agentId := None;
     timeoutMinutes := None; retries := None; contextFrom := None |}.

Definition simple_workflow (stages : list Stage) : Workflow :=
  {| wf_name := "demo"; stages := stages; stopOnError := None;
     retryOnFailure := None; stageTimeoutMinutes := None;
     workingDirectory := None; wf_agentId := None;
     iterationEnabled := None; maxIterations := None |}.

(** The workflow [{A:[], B:[A], C:[B]}]. *)
Definition chain : list Stage :=
  [simple_stage "A" []; simple_stage "B" ["A"]; simple_stage "C" ["B"]].

(** The workflow [{X:[Y], Y:[X]}]. *)
Definition loop : list Stage :=
  [simple_stage "X" ["Y"]; simple_stage "Y" ["X"]].

(** A workflow whose only, hence last, stage reports the gaps. *)
Definition gap_analysis : list Stage := [simple_stage "gap-analysis" []].

(** The completion evidence of the final response of an agent:
    [{"evidenceType": "test-output", "filePath": "gaps.json"}]. *)
Definition evidence_text : string :=
  "{" +:+ quoted "evidenceType" +:+ ": " +:+ quoted "test-output" +:+ ", " +:+
  quoted "filePath" +:+ ": " +:+ quoted "gaps.json" +:+ "}".

Definition evidence_json : Json :=
  JObj [("evidenceType", JStr "test-output"); ("filePath", JStr "gaps.json")].

(** The evidence file:
    [{"gaps": [{"priority": "HIGH", "status": "open"}], "testResults": "pass"}]. *)
Definition gaps_text : string :=
  "{" +:+ quoted "gaps" +:+ ": [{" +:+ quoted "priority" +:+ ": " +:+
  quoted "HIGH" +:+ ", " +:+ quoted "status" +:+ ": " +:+ quoted "open" +:+
  "}], " +:+ quoted "testResults" +:+ ": " +:+ quoted "pass" +:+ "}".

Definition gaps_json : Json :=
  JObj [("gaps", JArr [JObj [("priority", JStr "HIGH"); ("status", JStr "open")]]);
        ("testResults", JStr "pass")].

(** [JSON.parse] on the two texts above. *)
Definition parse (text : string) : string + Json :=
  if String.eqb text evidence_text then inr evidence_json
  else if String.eqb text gaps_text then inr gaps_json
  else inl "Unexpected token".

Definition rt : Runtime := {| JSON_parse := parse; cwd := "/work" |}.

Definition files : FileSystem :=
  {[ "/work/gaps.json" := RegularFile 1000 gaps_text ]}.

Definition no_modules : Modules :=
  {| checkpoint := false; errorHandler := false; resourceManager := false;
     persistence := false |}.

Definition all_modules : Modules :=
  {| checkpoint := true; errorHandler := true; resourceManager := true;
     persistence := true |}.

Definition host (mods : Modules) : Host :=
  {| runtime := rt; modules := mods;
     JSON_stringify := λ r, "{" +:+ quoted "stage" +:+ ":" +:+
                            quoted (er_stage r) +:+ "}" |}.

(** An attempt in which the agent answers at once with the evidence. *)
Definition answering (validateAt : Z) : AttemptEnv :=
  {| ae_spawn :=
       inr {| sp_sessionId := None;
              sp_output := Some ("Done. " +:+ evidence_text) |};
     ae_duration := 1500;
     ae_wait := Completed None;
     ae_sessions := None;
     ae_now := validateAt;
     ae_outputFiles := None;
     ae_saveError := None;
     ae_fs := files;
     ae_validateAt := validateAt;
     ae_git := {| g_committed := false; g_reason := Some "No changes" |} |}.

(** An attempt in which the spawner throws. *)
Definition refusing (message : string) : AttemptEnv :=
  {| ae_spawn := inl message;
     ae_duration := 0;
     ae_wait := TimedOut;
     ae_sessions := None;
     ae_now := 0;
     ae_outputFiles := None;
     ae_saveError := None;
     ae_fs := files;
     ae_validateAt := 0;
     ae_git := {| g_committed := false; g_reason := None |} |}.

(** A session that was last updated 700 seconds before the clock reading
    of the abandonment check. *)
Definition stale_session : Session :=
  {| s_id := "s-1"; s_updatedAt := Some 0%Z; s_status := None;
     s_messages := None |}.

(** An attempt whose session went silent and left no output files. *)
Definition abandoning : AttemptEnv :=
  {| ae_spawn := inr {| sp_sessionId := Some "s-1"; sp_output := None |};
     ae_duration := 0;
     ae_wait := Completed (Some stale_session);
     ae_sessions := Some [stale_session];
     ae_now := 700000;
     ae_outputFiles := None;
     ae_saveError := None;
     ae_fs := files;
     ae_validateAt := 700000;
     ae_git := {| g_committed := false; g_reason := None |} |}.

(** A stage that allows one retry. *)
Definition build : Stage :=
  {| name := "build"; task := "Build it"; dependencies := []; agentId := None;
     timeoutMinutes := None; retries := Some 1; contextFrom := None |}.

Definition quiet_pass : PassEnv :=
  {| pe_now := 9000; pe_freshId := "wf-9000-00000000";
     pe_cleanupErrors := []; pe_fs := files |}.

(** Every agent answers with the evidence, long after the file was written. *)
Definition cooperative : Environment :=
  {| attemptEnv := λ _, answering 9000; passEnv := λ _, quiet_pass |}.

(** Every session is abandoned. *)
Definition silent : Environment :=
  {| attemptEnv := λ _, abandoning; passEnv := λ _, quiet_pass |}.

(** Every call of the spawner throws. *)
Definition hostile : Environment :=
  {| attemptEnv := λ _, refusing "agent crashed"; passEnv := λ _, quiet_pass |}.

Definition start : World :=
  {| store := ∅; calls := 0; passes := 0; log := [] |}.

(** A persisted state on which a stage failure was recorded. *)
Definition failed_state : Persistence.WorkflowState :=
  {| Persistence.workflowId := "wf-1";
     Persistence.workflowName := "demo";
     Persistence.startedAt := 1000;
     Persistence.lastUpdated := 2000;
     Persistence.status := Persistence.workflow_failed;
     Persistence.iteration := 0;
     Persistence.maxIterations := 3;
     Persistence.completedStages := ["A"];
     Persistence.failedStage := Some "B";
     Persistence.pausedStage := None;
     Persistence.stageOutputs := ∅;
     Persistence.context := empty_context;
     Persistence.executionOrder := ["A"; "B"; "C"];
     Persistence.errorMessage := Some "agent crashed" |}.

Definition failed_store : Persistence.Store := {[ "wf-1" := failed_state ]}.

(** A persisted result of the gap analysis that carries a [transcript]
    property: the executor never writes one, the state file was edited. *)
Definition reported : StageResult :=
  {| sr_status := complete; sr_output := Some ("Done. " +:+ evidence_text);
     sr_file := None; sr_duration := 1500; sr_attempts := Some 1;
     sr_error := None; sr_reason := None; sr_unmetDependencies := [];
     sr_sessionId := None; sr_evidence := Some evidence_json;
     sr_gitCommit := None; sr_sessionTranscript := None;
     sr_transcript := Some "[assistant] one gap is still open";
     sr_message := None |}.

Definition resumable_state : Persistence.WorkflowState :=
  {| Persistence.workflowId := "wf-2";
     Persistence.workflowName := "demo";
     Persistence.startedAt := 1000;
     Persistence.lastUpdated := 2000;
     Persistence.status := Persistence.running;
     Persistence.iteration := 0;
     Persistence.maxIterations := 3;
     Persistence.completedStages := ["gap-analysis"];
     Persistence.failedStage := None;
     Persistence.pausedStage := None;
     Persistence.stageOutputs := {[ "gap-analysis" := reported ]};
     Persistence.context := empty_context;
     Persistence.executionOrder := ["gap-analysis"];
     Persistence.errorMessage := None |}.

Definition resumable : World :=
  {| store := {[ "wf-2" := resumable_state ]}; calls := 0; passes := 0;
     log := [] |}.

Definition resuming : Context :=
  {| ctx_iteration := None; ctx_previousIterations := None;
     ctx_workflowId := Some "wf-2"; ctx_requireResume := None;
     ctx_vars := [] |}.

Definition with_iteration (i : nat) : Context :=
  {| ctx_iteration := Some i; ctx_previousIterations := None;
     ctx_workflowId := None; ctx_requireResume := None; ctx_vars := [] |}.

End Scenario.

(** ** resource-manager.js *)

Module ResourceManager.
Import Text Data Evidence Queue Executor.

Module CONFIG.
Definition outputRetentionDays : Z := 30.
Definition maxStagesPerWorkflow : nat := 50.
Definition maxMemoryUsageMB : Z := 1024.
End CONFIG.

(** A directory entry as [readdir] with [withFileTypes] reports it: a
    regular file, a directory with its own entries ([None] when it cannot
    be read), or an entry that is neither (a link, a socket). *)
#[local] Unset Elimination Schemes.
Inductive Node :=
  | File (name : string)
  | Folder (name : string) (entries : option (list Node))
  | Special (name : string).
#[local] Set Elimination Schemes.

Definition node_name (entry : Node) : string :=
  match entry with
  | File n => n
  | Folder n _ => n
  | Special n => n
  end.

(** The files below one entry of [dir], in the order of the walk. *)
Fixpoint files_of (dir : string) (entry : Node) : list string :=
  let fullPath := dir +:+ "/" +:+ node_name entry in
  match entry with
  | File _ => [fullPath]
  | Folder _ (Some entries) => flat_map (files_of fullPath) entries
  | Folder _ None => []
  | Special _ => []
  end.

(** [findFilesRecursive(dir)], on the entries of [dir]. *)
Definition findFilesRecursive (dir : string) (listing : option (list Node))
  : list string :=
  match listing with
  | Some entries => flat_map (files_of dir) entries
  | None => []
  end.

(** What the file system answers about one file while the cleanup looks at
    it: [fs.stat] (the message of its error, or the modification time in
    milliseconds and the size), the clock reading of [getFileAgeDays], and
    the message of the error of [fs.unlink], if it fails. *)
Record FileProbe := {
  fp_stat : string + (Z * Z);
  fp_now : Z;
  fp_unlink : option string
}.

(** [getFileAgeDays(filePath)]: whole days, and 0 when the file cannot be
    examined. *)
Definition getFileAgeDays (probe : FileProbe) : Z :=
  match fp_stat probe with
  | inr (mtime, _) => ((fp_now probe - mtime) / (1000 * 60 * 60 * 24))%Z
  | inl _ => 0%Z
  end.

Record CleanupStats := {
  filesScanned : nat;
  filesDeleted : nat;
  bytesFreed : Z;
  cs_errors : list (string * string)
}.

Definition count_deleted (size : Z) (stats : CleanupStats) : CleanupStats :=
  {| filesScanned := filesScanned stats;
     filesDeleted := filesDeleted stats + 1;
     bytesFreed := (bytesFreed stats + size)%Z;
     cs_errors := cs_errors stats |}.

Definition count_error (file message : string) (stats : CleanupStats)
  : CleanupStats :=
  {| filesScanned := filesScanned stats;
     filesDeleted := filesDeleted stats;
     bytesFreed := bytesFreed stats;
     cs_errors := cs_errors stats ++ [(file, message)] |}.

(** The loop [for (const filePath of files)] of [cleanupOldOutputs]: the
    statistics, and the files that it unlinked. *)
Fixpoint sweep (probe : string → FileProbe) (retentionDays : Z)
    (files : list string) (stats : CleanupStats) (deleted : list string)
  : CleanupStats * list string :=
  match files with
  | [] => (stats, deleted)
  | filePath :: rest =>
      let p := probe filePath in
      if (retentionDays <? getFileAgeDays p)%Z then
        match fp_stat p with
        | inl message =>
            sweep probe retentionDays rest (count_error filePath message stats)
              deleted
        | inr (_, size) =>
            match fp_unlink p with
            | Some message =>
                sweep probe retentionDays rest
                  (count_error filePath message stats) deleted
            | None =>
                sweep probe retentionDays rest (count_deleted size stats)
                  (deleted ++ [filePath])
            end
        end
      else sweep probe retentionDays rest stats deleted
  end.

(** A file that the loop unlinks was examined, is older in whole days than
    the retention, and its [unlink] went through. *)
Definition expired (probe : FileProbe) (retentionDays : Z) : Prop :=
  ∃ mtime size,
    fp_stat probe = inr (mtime, size) ∧
    ((retentionDays + 1) * 86400000 ≤ fp_now probe - mtime)%Z ∧
    fp_unlink probe = None.

(** The bytes of the files of a list, as [fs.stat] reports them. *)
Definition probed_size (probe : FileProbe) : Z :=
  match fp_stat probe with
  | inr (_, size) => size
  | inl _ => 0%Z
  end.

Definition total_size (probe : string → FileProbe) (files : list string) : Z :=
  foldr (λ p acc, (probed_size (probe p) + acc)%Z) 0%Z files.

(** How [fs.access(outputDir)] ends. *)
Inductive Access :=
  | Accessible
  | NoEntry
  | Denied (message : string).

(** What [cleanupOldOutputs] reads of the file system. *)
Record Disk := {
  d_access : Access;
  d_listing : option (list Node);
  d_probe : string → FileProbe
}.

(** [cleanupOldOutputs(outputDir, retentionDays)]: the message of the error
    thrown, or the statistics with the files unlinked. *)
Definition cleanupOldOutputs (disk : Disk) (outputDir : string)
    (retentionDays : Z) : string + (CleanupStats * list string) :=
  let stats :=
    {| filesScanned := 0; filesDeleted := 0; bytesFreed := 0; cs_errors := [] |} in
  match d_access disk with
  | NoEntry => inr (stats, [])
  | Denied message => inl message
  | Accessible =>
      let files := findFilesRecursive outputDir (d_listing disk) in
      inr (sweep (d_probe disk) retentionDays files
             {| filesScanned := length files; filesDeleted := 0;
                bytesFreed := 0; cs_errors := [] |} [])
  end.

Record ResourceValidation := {
  rv_valid : bool;
  rv_errors : list string;
  rv_warnings : list string
}.

(** [validateWorkflowResources(workflow)]. The module binds [fs] to
    [require('fs').promises], which has no [accessSync]: the call in the
    [try] block throws a TypeError whatever the directory is, and the
    [catch] block reports the directory as not writable. *)
Definition validateWorkflowResources (rt : Runtime) (workflow : Workflow)
  : ResourceValidation :=
  let stageCount := length (stages workflow) in
  let maxTimeout := nat_or (stageTimeoutMinutes workflow) 15 in
  let workingDir := string_or (workingDirectory workflow) (cwd rt) in
  let maxRetries := default 0 (retryOnFailure workflow) in
  let errors := ["Working directory is not writable: " +:+ workingDir] in
  let warnings :=
    (if CONFIG.maxStagesPerWorkflow <? stageCount
     then ["Workflow has " +:+ pretty stageCount +:+
           " stages (max recommended: " +:+
           pretty CONFIG.maxStagesPerWorkflow +:+ ")"]
     else []) ++
    (if 120 <? maxTimeout
     then ["Stage timeout is " +:+ pretty maxTimeout +:+
           " minutes (max recommended: 120)"]
     else []) ++
    (if 5 <? maxRetries
     then ["Retry count is " +:+ pretty maxRetries +:+ " (max recommended: 5)"]
     else []) in
  {| rv_valid := is_nil errors; rv_errors := errors; rv_warnings := warnings |}.

Inductive MemoryStatus : Set := ok | warning | critical.

Record MemoryMonitor := {
  currentMB : Z;
  thresholdMB : Z;
  usagePercent : Z;
  m_status : MemoryStatus;
  m_recommendations : list string
}.

(** [Math.round(x / 1024 * 100)] on a whole number [x]: the quotient and
    the product are exact in floating point (below 2^46), and [Math.round]
    rounds a half upwards. *)
Definition percent_of_threshold (currentUsageMB : Z) : Z :=
  ((100 * currentUsageMB + 512) / CONFIG.maxMemoryUsageMB)%Z.

(** [monitorMemoryUsage(currentUsageMB)] *)
Definition monitorMemoryUsage (currentUsageMB : Z) : MemoryMonitor :=
  let percent := percent_of_threshold currentUsageMB in
  if (80 <? percent)%Z then
    {| currentMB := currentUsageMB; thresholdMB := CONFIG.maxMemoryUsageMB;
       usagePercent := percent; m_status := warning;
       m_recommendations :=
         ["Memory usage is high (>80%)";
          "Consider running garbage collection: process.gc()"] |}
  else if (90 <? percent)%Z then
    {| currentMB := currentUsageMB; thresholdMB := CONFIG.maxMemoryUsageMB;
       usagePercent := percent; m_status := critical;
       m_recommendations :=
         ["Memory usage is critical (>90%)";
          "Trigger cleanup of old outputs";
          "Consider splitting workflow into smaller parts"] |}
  else
    {| currentMB := currentUsageMB; thresholdMB := CONFIG.maxMemoryUsageMB;
       usagePercent := percent; m_status := ok; m_recommendations := [] |}.

(** The [options] of [preWorkflowCleanup]. *)
Record CleanupOptions := {
  o_cleanupOldOutputs : option bool;
  o_retentionDays : option Z
}.

Record PreCleanup := {
  pre_cleanedUp : bool;
  pre_errors : list string;
  pre_warnings : list string
}.

(** [o || fallback] on an optional number. *)
Definition Z_or (o : option Z) (fallback : Z) : Z :=
  match o with
  | Some 0%Z | None => fallback
  | Some z => z
  end.

(** [preWorkflowCleanup(workflow, options)]: its result and the files that
    it unlinked. [diskError] is the message of the failed write test of
    [checkDiskSpace], if it fails. *)
Definition preWorkflowCleanup (rt : Runtime) (diskError : option string)
    (disk : Disk) (workflow : Workflow) (options : CleanupOptions)
  : PreCleanup * list string :=
  let resourceValidation := validateWorkflowResources rt workflow in
  let errors :=
    (if negb (rv_valid resourceValidation)
     then rv_errors resourceValidation else []) ++
    (match diskError with
     | Some message => ["Disk space check failed: " +:+ message]
     | None => []
     end) in
  let warnings :=
    if negb (rv_valid resourceValidation) then []
    else rv_warnings resourceValidation in
  let workingDir := string_or (workingDirectory workflow) (cwd rt) in
  match o_cleanupOldOutputs options with
  | Some false =>
      ({| pre_cleanedUp := false; pre_errors := errors;
          pre_warnings := warnings |}, [])
  | _ =>
      let retentionDays :=
        Z_or (o_retentionDays options) CONFIG.outputRetentionDays in
      match cleanupOldOutputs disk (workingDir +:+ "/*/outputs") retentionDays with
      | inr (cleanupStats, deleted) =>
          ({| pre_cleanedUp := 0 <? filesDeleted cleanupStats;
              pre_errors := errors; pre_warnings := warnings |}, deleted)
      | inl message =>
          ({| pre_cleanedUp := false;
              pre_errors :=
                errors ++ ["Pre-workflow cleanup failed: " +:+ message];
              pre_warnings := warnings |}, [])
      end
  end.

Record PostCleanup := {
  post_cleanedUp : bool;
  post_memoryUsage : Z;
  post_recommendations : list string
}.

(** [postWorkflowCleanup(workflowResult)], on the reading [memoryUsage] of
    [getMemoryUsageMB()]: its result and the files unlinked, or the message
    of the error thrown. The [catch] block pushes onto [result.errors],
    which the result object does not have. *)
Definition postWorkflowCleanup (rt : Runtime) (disk : Disk) (memoryUsage : Z)
  : string + (PostCleanup * list string) :=
  let memoryMonitor := monitorMemoryUsage memoryUsage in
  match m_status memoryMonitor with
  | ok =>
      inr ({| post_cleanedUp := false; post_memoryUsage := memoryUsage;
              post_recommendations := [] |}, [])
  | warning =>
      inr ({| post_cleanedUp := false; post_memoryUsage := memoryUsage;
              post_recommendations := m_recommendations memoryMonitor |}, [])
  | critical =>
      match cleanupOldOutputs disk (cwd rt +:+ "/*/outputs")
              (CONFIG.outputRetentionDays / 2) with
      | inr (_, deleted) =>
          inr ({| post_cleanedUp := true; post_memoryUsage := memoryUsage;
                  post_recommendations := m_recommendations memoryMonitor |},
               deleted)
      | inl _ => inl "Cannot read properties of undefined (reading 'push')"
      end
  end.

End ResourceManager.

(** ** queue.js with the resource manager loaded *)

Module Deployment.
Import Data Evidence Queue Executor Scheduler ResourceManager.

(** The surroundings answer a pass with the errors of the cleanup that the
    resource manager runs before it. *)
Definition cleanup_as_implemented (host : Host) (env : Environment)
    (workflow : Workflow) : Prop :=
  ∀ k, ∃ diskError disk options,
    pe_cleanupErrors (passEnv env k)
    = pre_errors
        (preWorkflowCleanup (runtime host) diskError disk workflow options).1.

End Deployment.

(** ** queue.js: waiting for a session *)

Module Sessions.
Import Text Data Executor.

(** [isSessionComplete(sessionId)], on the session listing that it reads
    ([None] when reading or parsing it throws) and the clock. *)
Definition isSessionComplete (sessions : option (list Session)) (now : Z)
    (sessionId : string) : bool :=
  match sessions with
  | None => true
  | Some listing =>
      match List.find (λ s, String.eqb (s_id s) sessionId) listing with
      | None => true
      | Some session =>
          let lastUpdated := default 0%Z (s_updatedAt session) in
          if (300 * 1000 <? now - lastUpdated)%Z then true
          else
            match s_status session with
            | Some status =>
                String.eqb status "complete" || String.eqb status "error"
            | None => false
            end
      end
  end.

(** What the surroundings answer during one turn of the polling loop: the
    clock at its top, the listing that [waitForCompletion] reads, and the
    listing and the clock that [isSessionComplete] reads. *)
Record Poll := {
  p_now : Z;
  p_sessions : option (list Session);
  p_recheck : option (list Session);
  p_recheckNow : Z
}.

Definition timeout_message (sessionId : string) (timeoutSeconds : nat) : string :=
  "Session " +:+ sessionId +:+ " did not complete within " +:+
  pretty timeoutSeconds +:+ " seconds".

Definition completion_of (session : option Session) : Completion :=
  {| c_session := session; c_transcript := session ≫= s_messages |}.

(** The loop [while (true)] of [waitForCompletion] from its turn [k] on,
    for at most [turns] turns: how the call ends (the message of the error
    thrown, or the completion) and the number of runs of the listing
    command, one by [waitForCompletion] in every turn that does not time
    out and one more by [isSessionComplete] in every turn that finds the
    session; [None] when the loop is still polling after [turns] turns. *)
Fixpoint poll_loop (turns : nat) (polls : nat → Poll) (k : nat)
    (startTime : Z) (timeoutSeconds : nat) (sessionId : string)
    (sessionData : option Session) (reads : nat)
  : option ((string + Completion) * nat) :=
  match turns with
  | 0 => None
  | S turns' =>
      let poll := polls k in
      let elapsed := (p_now poll - startTime)%Z in
      if (Z.of_nat timeoutSeconds * 1000 <? elapsed)%Z then
        Some (inl (timeout_message sessionId timeoutSeconds), reads)
      else
        match p_sessions poll with
        | None => Some (inr (completion_of sessionData), S reads)
        | Some sessions =>
            match List.find (λ s, String.eqb (s_id s) sessionId) sessions with
            | None => Some (inr (completion_of None), S reads)
            | Some session =>
                if isSessionComplete (p_recheck poll) (p_recheckNow poll)
                     sessionId
                then Some (inr (completion_of (Some session)), S (S reads))
                else
                  poll_loop turns' polls (S k) startTime timeoutSeconds
                    sessionId (Some session) (S (S reads))
            end
        end
  end.

(** [waitForCompletion(sessionId, timeoutSeconds, pollIntervalSeconds)].
    The interval only sets how long the loop sleeps between two turns; it
    shows in the clock readings of [polls]. *)
Definition waitForCompletion (turns : nat) (polls : nat → Poll)
    (startTime : Z) (sessionId : string) (timeoutSeconds : nat)
  : option ((string + Completion) * nat) :=
  poll_loop turns polls 0 startTime timeoutSeconds sessionId None 0.

(** The summary of an ended wait that the stage executor works with. *)
Definition outcome_of (ended : string + Completion) : WaitOutcome :=
  match ended with
  | inl _ => TimedOut
  | inr completion => Completed (c_session completion)
  end.

(** The clock of the polls: it starts no earlier than [startTime], and a
    turn starts at least one interval after the turn before. *)
Definition paced (polls : nat → Poll) (startTime : Z)
    (pollIntervalSeconds : nat) : Prop :=
  (startTime ≤ p_now (polls 0%nat))%Z ∧
  ∀ k, (p_now (polls k) + Z.of_nat pollIntervalSeconds * 1000
        ≤ p_now (polls (S k)))%Z.

End Sessions.

(** ** Stages that a cycle keeps from running *)

Module Blocking.
Import Data Queue Graph.

(** A stage that the sorter cannot emit by itself: one on a dependency
    cycle, and the stage named [__proto__]. *)
Definition stuck (stages : list Stage) (m : string) : Prop :=
  on_cycle stages m ∨ (m = proto_key ∧ m ∈ stageNames stages).

(** A stage that is stuck, or reaches a stuck stage along its
    dependencies. *)
Definition blocked (stages : list Stage) (n : string) : Prop :=
  ∃ m, rtc (depends_on stages) n m ∧ stuck stages m.

(** Every character of [s] passes [p]. *)
Fixpoint all_chars (p : ascii → bool) (s : string) : bool :=
  match s with
  | EmptyString => true
  | String c s' => p c && all_chars p s'
  end.

End Blocking.

(** ** What a pass over the stages keeps *)

Module Runs.
Import Text Data Queue Executor Scheduler Graph.

(** [workflow.stages[workflow.stages.findIndex(s => s.name === stageName)]] *)
Definition find_stage (workflow : Workflow) (stageName : string)
  : option Stage :=
  List.find (λ s, String.eqb (name s) stageName) (stages workflow).

(** The attempts that the retry loop allows a stage. *)
Definition name_budget (workflow : Workflow) (stageName : string) : nat :=
  match find_stage workflow stageName with
  | Some stage => effective_retries stage workflow + 1
  | None => 0
  end.

(** The attempts that the retry loops allow all stages of a workflow
    together. *)
Definition attempt_budget (workflow : Workflow) : nat :=
  sum_list (map (λ stage, effective_retries stage workflow + 1)
              (stages workflow)).

(** The dependencies of a stage that have no complete result. *)
Definition unmet (stageOutputs : gmap string StageResult) (stage : Stage)
  : list string :=
  List.filter (λ dep, negb (is_complete stageOutputs dep)) (dependencies stage).

(** What holds of the stage results between two turns of a pass that does
    not resume, after the stages [processed]: they are the stages with a
    result; a stage was run when all its dependencies were complete, and
    skipped otherwise; and as long as no stage has failed, all results are
    complete. *)
Record fresh_inv (workflow : Workflow) (stopOnError : bool)
    (processed : list string) (stageOutputs : gmap string StageResult)
    (failedStage : option string) : Prop := {
  fi_domain : ∀ n, is_Some (stageOutputs !! n) ↔ n ∈ processed;
  fi_status :
    ∀ n r stage,
      stageOutputs !! n = Some r → find_stage workflow n = Some stage →
      match sr_status r with
      | complete | failed => unmet stageOutputs stage = []
      | skipped =>
          sr_unmetDependencies r = unmet stageOutputs stage ∧
          unmet stageOutputs stage ≠ [] ∧
          stopOnError = false
      | pending => False
      end;
  fi_failed :
    match failedStage with
    | None => ∀ n r, stageOutputs !! n = Some r → sr_status r = complete
    | Some F => ∃ r, stageOutputs !! F = Some r ∧ sr_status r = failed
    end
}.

(** The world after a turn of the loop. *)
Definition turn_world (t : Turn) : World :=
  match t with
  | Continue _ _ w => w
  | Break _ _ w => w
  | Crash w => w
  end.

(** The attempts that a pass allows the stage of a turn: none when the pass
    resumes and the saved state lists the stage as completed. *)
Definition turn_budget (workflow : Workflow) (isResume : bool)
    (workflowState : option Persistence.WorkflowState) (stageName : string)
  : nat :=
  match already_complete isResume workflowState stageName with
  | Some _ => 0
  | None => name_budget workflow stageName
  end.

(** An event of the log that reports a retry. *)
Definition is_retry (e : Event) : bool :=
  match e with StageRetry _ _ => true | _ => false end.

(** The stage of which an event reports the start of an attempt. *)
Definition started_stage (e : Event) : option string :=
  match e with StageStarted n _ => Some n | _ => None end.

End Runs.

(** ** The saved workflows, by id and by name *)

Module Registry.
Import Data Persistence.

(** A state file holds the state of the workflow that it is named after, as
    the files that [saveWorkflowState] writes do. *)
Definition well_keyed (σ : Store) : Prop :=
  ∀ id st, σ !! id = Some st → workflowId st = id.

(** The state [st] with another time of the last update. *)
Definition with_lastUpdated (t : Z) (st : WorkflowState) : WorkflowState :=
  {| workflowId := workflowId st; workflowName := workflowName st;
     startedAt := startedAt st; lastUpdated := t; status := status st;
     iteration := iteration st; maxIterations := maxIterations st;
     completedStages := completedStages st; failedStage := failedStage st;
     pausedStage := pausedStage st; stageOutputs := stageOutputs st;
     context := context st; executionOrder := executionOrder st;
     errorMessage := errorMessage st |}.

(** An entry of [listWorkflowStates]. The [percent] of the progress, a
    rounded quotient of floating-point numbers, is left out. *)
Record StateSummary := {
  ss_workflowId : string;
  ss_workflowName : string;
  ss_status : WorkflowStatus;
  ss_startedAt : Z;
  ss_lastUpdated : Z;
  ss_completedStages : nat;
  ss_totalStages : nat
}.

Definition summarize (st : WorkflowState) : StateSummary :=
  {| ss_workflowId := workflowId st; ss_workflowName := workflowName st;
     ss_status := status st; ss_startedAt := startedAt st;
     ss_lastUpdated := lastUpdated st;
     ss_completedStages := length (completedStages st);
     ss_totalStages := length (executionOrder st) |}.

(** [states.sort((a, b) => new Date(b.lastUpdated) - new Date(a.lastUpdated))].
    The sort of an array is stable: the result is the one of inserting the
    entries, from the last to the first, each before the entries that are
    not newer than it. *)
Fixpoint insert_newest (x : StateSummary) (sorted : list StateSummary)
  : list StateSummary :=
  match sorted with
  | [] => [x]
  | y :: rest =>
      if (ss_lastUpdated x <? ss_lastUpdated y)%Z
      then y :: insert_newest x rest
      else x :: sorted
  end.

Definition newest_first (states : list StateSummary) : list StateSummary :=
  foldr insert_newest [] states.

(** [listWorkflowStates()], over the ids [entries] of the state files that
    reading the directory yields, in its order; an entry whose file cannot
    be read is left out. *)
Definition listWorkflowStates (entries : list string) (σ : Store)
  : list StateSummary :=
  newest_first (omap (λ id, summarize <$> loadWorkflowState id σ) entries).

(** The answer of [getWorkflowStatus(workflowId)], without the [percent]. *)
Record StatusReport := {
  ws_workflowId : string;
  ws_workflowName : string;
  ws_status : WorkflowStatus;
  ws_startedAt : Z;
  ws_lastUpdated : Z;
  ws_iteration : nat;
  ws_completedStages : list string;
  ws_totalStages : nat;
  ws_failedStage : option string;
  ws_pausedStage : option string;
  ws_errorMessage : option string
}.

Definition report (st : WorkflowState) : StatusReport :=
  {| ws_workflowId := workflowId st; ws_workflowName := workflowName st;
     ws_status := status st; ws_startedAt := startedAt st;
     ws_lastUpdated := lastUpdated st; ws_iteration := iteration st;
     ws_completedStages := completedStages st;
     ws_totalStages := length (executionOrder st);
     ws_failedStage := failedStage st; ws_pausedStage := pausedStage st;
     ws_errorMessage := errorMessage st |}.

(** [getWorkflowStatus(workflowId)] of persistence.js *)
Definition getWorkflowStatus (id : string) (σ : Store) : option StatusReport :=
  report <$> loadWorkflowState id σ.

(** [deleteWorkflowState(workflowId)]: whether a file was deleted. *)
Definition deleteWorkflowState (id : string) (σ : Store) : bool * Store :=
  match σ !! id with
  | Some _ => (true, delete id σ)
  | None => (false, σ)
  end.

(** The directory lists the state files, each once. *)
Definition lists_all (entries : list string) (σ : Store) : Prop :=
  NoDup entries ∧ ∀ id, id ∈ entries ↔ is_Some (σ !! id).

(** A state with this name, and a running one. *)
Definition named (workflowName : string) (s : StateSummary) : bool :=
  String.eqb (ss_workflowName s) workflowName.

Definition is_running (s : WorkflowStatus) : bool :=
  match s with running => true | _ => false end.

Definition named_running (workflowName : string) (s : StateSummary) : bool :=
  String.eqb (ss_workflowName s) workflowName && is_running (ss_status s).

End Registry.

(** ** queue.js: status and cancellation by name *)

Module Control.
Import Data Persistence Executor Registry.

(** [getWorkflowStatus(workflowName)] of queue.js *)
Definition getWorkflowStatus (mods : Modules) (entries : list string)
    (workflowName : string) (σ : Store) : option StatusReport :=
  if persistence mods then
    match List.find (named workflowName) (listWorkflowStates entries σ) with
    | Some matchingState =>
        Registry.getWorkflowStatus (ss_workflowId matchingState) σ
    | None => None
    end
  else None.

(** [cancelWorkflow(workflowName)] of queue.js *)
Definition cancelWorkflow (mods : Modules) (entries : list string) (now : Z)
    (workflowName : string) (σ : Store) : bool * Store :=
  if persistence mods then
    match List.find (named_running workflowName)
            (listWorkflowStates entries σ) with
    | Some matchingState =>
        Persistence.cancelWorkflow now (ss_workflowId matchingState) σ
    | None => (false, σ)
    end
  else (false, σ).

End Control.

(** ** Further surroundings, for the examples *)

Module Examples.
Import Text Data Evidence Queue Executor Scheduler ResourceManager Sessions.

(** An output directory that does not exist. *)
Definition no_outputs : Disk :=
  {| d_access := NoEntry; d_listing := None;
     d_probe := λ _, {| fp_stat := inl "ENOENT"; fp_now := 0; fp_unlink := None |} |}.

Definition default_options : CleanupOptions :=
  {| o_cleanupOldOutputs := Some true; o_retentionDays := Some 30%Z |}.

(** A pass before which the resource manager ran its cleanup. *)
Definition managed_pass (workflow : Workflow) : PassEnv :=
  {| pe_now := 9000; pe_freshId := "wf-9000-00000000";
     pe_cleanupErrors :=
       pre_errors
         (preWorkflowCleanup Scenario.rt None no_outputs workflow
            default_options).1;
     pe_fs := Scenario.files |}.

Definition managed (workflow : Workflow) : Environment :=
  {| attemptEnv := λ _, Scenario.answering 9000;
     passEnv := λ _, managed_pass workflow |}.

(** The chain of [A], [B] and [C] with [stopOnError: false]. *)
Definition tolerant : Workflow :=
  {| wf_name := "demo"; stages := Scenario.chain; stopOnError := Some false;
     retryOnFailure := None; stageTimeoutMinutes := None;
     workingDirectory := None; wf_agentId := None;
     iterationEnabled := None; maxIterations := None |}.

(** A state that a caller builds with status completed and a failed stage,
    as [new WorkflowState({status: 'completed', failedStage: 'B', ...})]. *)
Definition unclean_state : Persistence.WorkflowState :=
  {| Persistence.workflowId := "wf-9";
     Persistence.workflowName := "demo";
     Persistence.startedAt := 1000;
     Persistence.lastUpdated := 2000;
     Persistence.status := Persistence.completed;
     Persistence.iteration := 0;
     Persistence.maxIterations := 3;
     Persistence.completedStages := ["A"];
     Persistence.failedStage := Some "B";
     Persistence.pausedStage := None;
     Persistence.stageOutputs := ∅;
     Persistence.context := empty_context;
     Persistence.executionOrder := ["A"; "B"; "C"];
     Persistence.errorMessage := Some "agent crashed" |}.

(** The workflow of the single stage [__proto__], and the chain whose
    [maxIterations] is 0. *)
Definition proto_workflow : Workflow :=
  Scenario.simple_workflow [Scenario.simple_stage "__proto__" []].

Definition no_iterations : Workflow :=
  {| wf_name := "demo"; stages := Scenario.chain; stopOnError := None;
     retryOnFailure := None; stageTimeoutMinutes := None;
     workingDirectory := None; wf_agentId := None;
     iterationEnabled := None; maxIterations := Some 0 |}.

(** A third saved workflow of the same name, running and updated last. *)
Definition newer_state : Persistence.WorkflowState :=
  {| Persistence.workflowId := "wf-3";
     Persistence.workflowName := "demo";
     Persistence.startedAt := 2500;
     Persistence.lastUpdated := 3000;
     Persistence.status := Persistence.running;
     Persistence.iteration := 0;
     Persistence.maxIterations := 3;
     Persistence.completedStages := [];
     Persistence.failedStage := None;
     Persistence.pausedStage := None;
     Persistence.stageOutputs := ∅;
     Persistence.context := empty_context;
     Persistence.executionOrder := ["A"; "B"; "C"];
     Persistence.errorMessage := None |}.

Definition registry : Persistence.Store :=
  <["wf-1" := Scenario.failed_state]>
    (<["wf-2" := Scenario.resumable_state]> {[ "wf-3" := newer_state ]}).

Definition registry_entries : list string := ["wf-1"; "wf-2"; "wf-3"].

(** A session that is updated all the time. *)
Definition busy_session (now : Z) : Session :=
  {| s_id := "s-1"; s_updatedAt := Some now; s_status := None;
     s_messages := None |}.

(** Turns five seconds apart, from 0 on, that always find the session
    active. *)
Definition busy_polls (k : nat) : Poll :=
  let now := (Z.of_nat k * 5000)%Z in
  {| p_now := now; p_sessions := Some [busy_session now];
     p_recheck := Some [busy_session now]; p_recheckNow := now |}.

(** The final response [{"evidenceType": "fix-log", "fixLog": true}]. *)
Definition unbacked_text : string :=
  "{" +:+ Scenario.quoted "evidenceType" +:+ ": " +:+ Scenario.quoted "fix-log" +:+
  ", " +:+ Scenario.quoted "fixLog" +:+ ": true}".

Definition unbacked_json : Json :=
  JObj [("evidenceType", JStr "fix-log"); ("fixLog", JBool true)].

Definition unbacked_rt : Runtime :=
  {| JSON_parse :=
       λ text, if String.eqb text unbacked_text then inr unbacked_json
               else inl "Unexpected token";
     cwd := "/work" |}.

End Examples.

(** * Properties *)

(** ** The error classifier *)

Module ErrorHandlerFacts.
Import Text ErrorHandler Executor.

Lemma includes_ci_app_r p a b :
  includes_ci p b = true → includes_ci p (a +:+ b) = true.
Proof.
  intros Hb. induction a as [|c a IH]; simpl; [exact Hb|].
  rewrite IH. apply orb_true_r.
Qed.

Lemma test_any_ci_app_r alts a b :
  test_any_ci alts b = true → test_any_ci alts (a +:+ b) = true.
Proof.
  unfold test_any_ci. rewrite !existsb_exists.
  intros (p & Hp & Hin). exists p. split; [exact Hp|].
  by apply includes_ci_app_r.
Qed.

(** The message of an abandonment always matches the pattern of a spawn
    failure, whatever the stage is called. *)
Lemma abandoned_message_mentions_session stageName :
  test_any_ci ["spawn"; "agent"; "session"] (abandoned_message stageName) = true.
Proof.
  unfold abandoned_message.
  do 3 apply test_any_ci_app_r. reflexivity.
Qed.

(** No stage name makes the classifier answer with the abandoned type: an
    earlier pattern always wins. *)
Lemma abandonment_never_classified_abandoned stageName :
  cl_type (classifyError (abandoned_message stageName)) ≠ ABANDONED_STAGE.
Proof.
  unfold classifyError.
  rewrite (abandoned_message_mentions_session stageName).
  repeat (match goal with |- context [if ?b then _ else _] => destruct b end);
    discriminate.
Qed.

(** C3, at the failing input: the abandonment of a stage named [build] is
    classified as a spawn failure, which the policy marks retryable, and on
    the first of two allowed attempts the decision is to retry, not to
    halt. *)
Theorem abandonment_is_retried :
  let classification := classifyError (abandoned_message "build") in
  cl_type classification = AGENT_SPAWN_FAILED ∧
  cl_retryable classification = true ∧
  d_action (decideRecoveryAction classification 1 1) = retry.
Proof. vm_compute. auto. Qed.

End ErrorHandlerFacts.

(** ** The state store *)

Module PersistenceFacts.
Import Data Persistence.

Lemma store_clean_insert st σ :
  store_clean σ → completed_clean st → store_clean (<[workflowId st := st]> σ).
Proof.
  intros Hσ Hst id st' Hlook.
  destruct (decide (workflowId st = id)) as [<-|Hne].
  - rewrite lookup_insert_eq in Hlook. by injection Hlook as <-.
  - rewrite lookup_insert_ne in Hlook by done. by apply (Hσ id).
Qed.

Lemma saveWorkflowState_clean st σ :
  store_clean σ → completed_clean st → store_clean (saveWorkflowState st σ).
Proof. apply store_clean_insert. Qed.

Lemma updateStageCompletion_clean now id n r σ :
  store_clean σ → store_clean (updateStageCompletion now id n r σ).
Proof.
  intros Hσ. unfold updateStageCompletion, loadWorkflowState.
  destruct (σ !! id) as [st|] eqn:Hst; [|done].
  apply saveWorkflowState_clean; [done|].
  intros Hc. cbn in *. destruct (Hσ id st Hst Hc) as [-> _]. done.
Qed.

Lemma updateStageFailure_clean now id n message σ :
  store_clean σ → store_clean (updateStageFailure now id n message σ).
Proof.
  intros Hσ. unfold updateStageFailure, loadWorkflowState.
  destruct (σ !! id) as [st|] eqn:Hst; [|done].
  apply saveWorkflowState_clean; [done|]. intros Hc. discriminate Hc.
Qed.

Lemma markWorkflowCompleted_clean now id σ :
  store_clean σ → store_clean (markWorkflowCompleted now id σ).
Proof.
  intros Hσ. unfold markWorkflowCompleted, loadWorkflowState.
  destruct (σ !! id) as [st|] eqn:Hst; [|done].
  apply saveWorkflowState_clean; [done|]. by intros _.
Qed.

Lemma resumeWorkflow_clean now id σ data σ' :
  store_clean σ → resumeWorkflow now id σ = inr (data, σ') → store_clean σ'.
Proof.
  intros Hσ. unfold resumeWorkflow, loadWorkflowState.
  destruct (σ !! id) as [st|] eqn:Hst; [|done].
  destruct (status st) eqn:Hstatus; try done;
    intros [= <- <-]; (apply saveWorkflowState_clean; [done|]);
    intros Hc; discriminate Hc.
Qed.

Lemma cancelWorkflow_clean now id σ :
  store_clean σ → store_clean (cancelWorkflow now id σ).2.
Proof.
  intros Hσ. unfold cancelWorkflow, loadWorkflowState.
  destruct (σ !! id) as [st|] eqn:Hst; [|done].
  destruct (status st) eqn:Hstatus; try done;
    (apply saveWorkflowState_clean; [done|]); intros Hc; discriminate Hc.
Qed.

(** C9, amended: the stage-completion update, the stage-failure update,
    mark-completed, resume and cancel keep the invariant that a completed
    workflow has neither a failed stage nor an error message, on every
    persisted state; save keeps it when the state that it is handed
    satisfies it ([op_clean]). *)
Theorem store_operations_keep_completed_clean (op : Operation) (σ : Store) :
  store_clean σ → op_clean op → store_clean (run op σ).
Proof.
  intros Hσ Hop. destruct op as [st|now id n r|now id n msg|now id|now id|now id];
    cbn [run].
  - by apply saveWorkflowState_clean.
  - by apply updateStageCompletion_clean.
  - by apply updateStageFailure_clean.
  - by apply markWorkflowCompleted_clean.
  - destruct (resumeWorkflow now id σ) as [|[data σ']] eqn:E; [done|].
    by eapply resumeWorkflow_clean.
  - by apply cancelWorkflow_clean.
Qed.

Lemma store_operations_keep_completed_clean_witness :
  store_clean (run (MarkCompleted 9000 "wf-1") Scenario.failed_store).
Proof.
  apply store_operations_keep_completed_clean; [|exact I].
  intros id st Hst Hc. unfold Scenario.failed_store in Hst.
  apply lookup_singleton_Some in Hst as [_ <-]. discriminate Hc.
Defined.

(** C9 as stated fails for save: [saveWorkflowState] writes the state it
    is handed, and the constructor accepts the status completed together
    with a failed stage and an error message. *)
Lemma save_writes_a_completed_state_with_a_failed_stage :
  store_clean ∅ ∧
  status Examples.unclean_state = completed ∧
  run (Save Examples.unclean_state) ∅ !! "wf-9" = Some Examples.unclean_state ∧
  failedStage Examples.unclean_state = Some "B" ∧
  ¬ store_clean (run (Save Examples.unclean_state) ∅).
Proof.
  split; [by intros id st Hst; rewrite lookup_empty in Hst|].
  split; [done|].
  assert (Hsaved : run (Save Examples.unclean_state) ∅ !! "wf-9"
                   = Some Examples.unclean_state)
    by apply lookup_insert_eq.
  split; [done|]. split; [done|].
  intros Hclean. by destruct (Hclean "wf-9" _ Hsaved eq_refl) as [? _].
Qed.

End PersistenceFacts.

(** ** The evidence validator *)

Module EvidenceFacts.
Import Text Data Evidence.

(** C7 as stated fails: the same payload and the same file, validated 50ms
    and 150ms after the file was written, are rejected and then accepted. *)
Lemma revalidation_differs :
  let output := "Done. " +:+ Scenario.evidence_text in
  let early :=
    validateCompletionEvidence Scenario.rt Scenario.files 1050 output "C" false in
  let late :=
    validateCompletionEvidence Scenario.rt Scenario.files 1150 output "C" false in
  valid early = false ∧ valid late = true ∧ errors early ≠ errors late.
Proof. vm_compute. split; [done|]. split; [done|]. discriminate. Qed.

(** C7, amended: validating the same payload against the same files gives
    the same result at any two clock readings at which the evidence file,
    if there is one, is at least 100ms old. *)
Theorem revalidation_agrees_once_aged (rt : Runtime) (fs : FileSystem)
    (now1 now2 : Z) (output stageName : string) (isDocStage : bool) :
  (∀ e, evidence_file rt fs output = Some e →
        (100 ≤ now1 - mtimeMs e)%Z ∧ (100 ≤ now2 - mtimeMs e)%Z) →
  validateCompletionEvidence rt fs now1 output stageName isDocStage
  = validateCompletionEvidence rt fs now2 output stageName isDocStage.
Proof.
  intros Haged. unfold validateCompletionEvidence, evidence_file in *.
  destruct (match_evidence output) as [text|]; [|done].
  destruct (JSON_parse rt text) as [message|ev]; [done|].
  assert (Hfile : ∀ p, get "filePath" ev = Some p →
            file_errors rt fs now1 p isDocStage = file_errors rt fs now2 p isDocStage).
  { intros p Hp. rewrite Hp in Haged. unfold file_errors.
    destruct p as [| | |path| |]; try done.
    destruct (fs !! resolve rt path) as [entry|]; [|done].
    destruct (Haged entry eq_refl) as [H1 H2].
    replace (now1 - mtimeMs entry <? 100)%Z with false by (symmetry; apply Z.ltb_ge; lia).
    replace (now2 - mtimeMs entry <? 100)%Z with false by (symmetry; apply Z.ltb_ge; lia).
    done. }
  destruct (get "filePath" ev) as [p|] eqn:Hp.
  - rewrite (Hfile p eq_refl). by destruct ev.
  - by destruct ev.
Qed.

Lemma revalidation_agrees_once_aged_witness :
  validateCompletionEvidence Scenario.rt Scenario.files 1150
    ("Done. " +:+ Scenario.evidence_text) "C" false
  = validateCompletionEvidence Scenario.rt Scenario.files 9000
      ("Done. " +:+ Scenario.evidence_text) "C" false.
Proof.
  apply revalidation_agrees_once_aged.
  intros e. vm_compute. intros [= <-]. split; discriminate.
Defined.

End EvidenceFacts.

(** ** The dependency sorter *)

Module SortFacts.
Import Text Data Queue Graph Order.

Lemma elem_of_deps_all stages n d :
  d ∈ deps_all stages n ↔ depends_on stages n d.
Proof.
  unfold deps_all, depends_on. rewrite list_elem_of_In, in_flat_map. split.
  - intros (s & Hs & Hd). rewrite <- list_elem_of_In in Hs. rewrite <- list_elem_of_In in Hd.
    apply list_elem_of_filter in Hs as [Hn Hs]. by exists s.
  - intros (s & Hs & Hn & Hd). exists s. rewrite <- !list_elem_of_In.
    split; [by apply list_elem_of_filter | done].
Qed.

Lemma elem_of_dependents stages d n :
  n ∈ dependents stages d → n ∈ stageNames stages.
Proof.
  unfold dependents, stageNames. rewrite list_elem_of_In, in_flat_map.
  intros (s & Hs & Hn). apply in_map_iff in Hn as (x & <- & _).
  rewrite list_elem_of_In. by apply in_map.
Qed.

Lemma occ_app x l k : occ x (l ++ k) = occ x l + occ x k.
Proof. unfold occ. by rewrite filter_app, length_app. Qed.

Lemma occ_cons x y l :
  occ x (y :: l) = (if decide (y = x) then 1 else 0) + occ x l.
Proof. unfold occ. rewrite filter_cons. by destruct (decide (y = x)). Qed.

Lemma occ_pos x l : 0 < occ x l ↔ x ∈ l.
Proof.
  induction l as [|y l IH].
  - split; [inversion 1 | by intros ?%elem_of_nil].
  - rewrite occ_cons, elem_of_cons. destruct (decide (y = x)) as [->|Hne].
    + split; [by left | lia].
    + rewrite <- IH. split; [intros; right; lia | intros [?|?]; [done | lia]].
Qed.

Lemma occ_dependents stages c n :
  occ n (dependents stages c) = occ c (deps_all stages n).
Proof.
  unfold dependents, deps_all. induction stages as [|s ss IH]; [done|].
  cbn [flat_map]. rewrite occ_app, IH. clear IH.
  rewrite filter_cons. destruct (decide (name s = n)) as [<-|Hne].
  - cbn [flat_map]. rewrite occ_app. f_equal.
    induction (dependencies s) as [|x xs IHx]; [done|].
    rewrite filter_cons, occ_cons. destruct (decide (x = c)) as [->|Hx].
    + cbn [map]. rewrite occ_cons, decide_True by done. by rewrite IHx.
    + done.
  - replace (occ n (map _ _)) with 0; [done|].
    symmetry. destruct (occ n _) eqn:E; [done|].
    assert (n ∈ map (λ _ : string, name s) (filter (λ x, x = c) (dependencies s)))
      as Hin by (apply occ_pos; lia).
    apply list_elem_of_In, in_map_iff in Hin as (x & Hx & _). done.
Qed.

(** *** The graph that the first two loops build *)

Lemma initialize_lookup ss adj proto ind n :
  (initialize ss adj proto ind).1.1 !! n
    = (if decide (n ∈ stageNames ss ∧ n ≠ proto_key) then Some []
       else adj !! n) ∧
  (initialize ss adj proto ind).2 !! n
    = (if decide (n ∈ stageNames ss ∧ n ≠ proto_key) then Some 0%Z
       else ind !! n) ∧
  (initialize ss adj proto ind).1.2
    = (if decide (proto_key ∈ stageNames ss) then Some [] else proto).
Proof.
  revert adj proto ind. induction ss as [|s ss IH]; intros adj proto ind.
  - cbn. split_and!.
    + rewrite decide_False; [done|]. by intros [?%elem_of_nil _].
    + rewrite decide_False; [done|]. by intros [?%elem_of_nil _].
    + rewrite decide_False; [done|]. apply not_elem_of_nil.
  - cbn [initialize stageNames map]. fold (stageNames ss).
    destruct (String.eqb_spec (name s) proto_key) as [Hs|Hs].
    + destruct (IH adj (Some []) ind) as (-> & -> & ->).
      rewrite Hs.
      rewrite (decide_True (P := proto_key ∈ proto_key :: stageNames ss))
        by (by left).
      split_and!.
      * destruct (decide (n ∈ stageNames ss ∧ n ≠ proto_key)) as [[? ?]|Hno].
        -- rewrite decide_True; [done|]. split; [by right|done].
        -- rewrite decide_False; [done|].
           intros [[->|?]%elem_of_cons ?]; [congruence|]. by apply Hno.
      * destruct (decide (n ∈ stageNames ss ∧ n ≠ proto_key)) as [[? ?]|Hno].
        -- rewrite decide_True; [done|]. split; [by right|done].
        -- rewrite decide_False; [done|].
           intros [[->|?]%elem_of_cons ?]; [congruence|]. by apply Hno.
      * by destruct (decide (proto_key ∈ stageNames ss)).
    + destruct (IH (<[name s := []]> adj) proto (<[name s := 0%Z]> ind))
        as (-> & -> & ->).
      split_and!.
      * destruct (decide (n ∈ stageNames ss ∧ n ≠ proto_key)) as [[? ?]|Hno].
        -- rewrite decide_True; [done|]. split; [by right|done].
        -- destruct (decide (name s = n)) as [<-|Hne].
           ++ rewrite lookup_insert_eq, decide_True; [done|]. split; [by left|done].
           ++ rewrite lookup_insert_ne by done. rewrite decide_False; [done|].
              intros [[?|?]%elem_of_cons ?]; [congruence|]. by apply Hno.
      * destruct (decide (n ∈ stageNames ss ∧ n ≠ proto_key)) as [[? ?]|Hno].
        -- rewrite decide_True; [done|]. split; [by right|done].
        -- destruct (decide (name s = n)) as [<-|Hne].
           ++ rewrite lookup_insert_eq, decide_True; [done|]. split; [by left|done].
           ++ rewrite lookup_insert_ne by done. rewrite decide_False; [done|].
              intros [[?|?]%elem_of_cons ?]; [congruence|]. by apply Hno.
      * destruct (decide (proto_key ∈ stageNames ss)) as [Hin|Hnin].
        -- rewrite decide_True; [done|]. by right.
        -- rewrite decide_False; [done|].
           by intros [?|?]%elem_of_cons.
Qed.

Lemma add_edges_spec n deps adj proto ind :
  (∀ d, d ∈ deps → d ≠ proto_key → is_Some (adj !! d)) →
  (proto_key ∈ deps → is_Some proto) →
  ∃ adj' proto' ind', add_edges n deps adj proto ind = inr (adj', proto', ind') ∧
    (∀ d, d ≠ proto_key →
       adj' !! d
       = (λ l, l ++ map (λ _, n) (filter (λ x, x = d) deps)) <$> adj !! d) ∧
    (is_Some proto → is_Some proto') ∧
    (∀ m, ind' !! m
       = (λ v, if decide (m = n) then v + Z.of_nat (length deps) else v)%Z
           <$> ind !! m).
Proof.
  revert adj proto ind.
  induction deps as [|dep rest IH]; intros adj proto ind Hdef Hproto.
  - exists adj, proto, ind. split; [done|]. split_and!; [|done|].
    + intros d _. destruct (adj !! d); cbn; [by rewrite app_nil_r | done].
    + intros m. destruct (ind !! m); cbn; [|done].
      destruct (decide (m = n)); f_equal; lia.
  - assert (Hind : ∀ ind' : gmap string Z,
      (∀ m, ind' !! m
         = (λ v, if decide (m = n) then v + Z.of_nat (length rest) else v)%Z
             <$> alter Z.succ n ind !! m) →
      ∀ m, ind' !! m
         = (λ v, if decide (m = n) then v + Z.of_nat (length (dep :: rest))
                 else v)%Z <$> ind !! m).
    { intros ind' Hind m. rewrite Hind, lookup_alter.
      destruct (decide (n = m)) as [->|Hne].
      - destruct (ind !! m); cbn [fmap option_fmap option_map]; [|done].
        rewrite !decide_True by done. cbn [length]. f_equal. lia.
      - destruct (ind !! m); cbn [fmap option_fmap option_map]; [|done].
        rewrite !decide_False by congruence. done. }
    cbn [add_edges]. destruct (String.eqb_spec dep proto_key) as [->|Hdep].
    + destruct Hproto as [elements ->]; [by left|].
      destruct (IH adj (Some (elements ++ [n])) (alter Z.succ n ind))
        as (adj' & proto' & ind' & -> & Hadj & Hp & Hi).
      { intros d Hd. apply Hdef. by right. }
      { by eexists. }
      exists adj', proto', ind'. split; [done|]. split_and!.
      * intros d Hd. rewrite (Hadj d Hd), filter_cons.
        by rewrite decide_False by congruence.
      * intros _. apply Hp. by eexists.
      * by apply Hind.
    + destruct (Hdef dep) as [l Hl]; [by left|done|]. rewrite Hl.
      destruct (IH (<[dep := l ++ [n]]> adj) proto (alter Z.succ n ind))
        as (adj' & proto' & ind' & -> & Hadj & Hp & Hi).
      { intros d Hd Hne. destruct (decide (dep = d)) as [->|Hne'].
        - rewrite lookup_insert_eq. by eexists.
        - rewrite lookup_insert_ne by done. apply Hdef; [by right|done]. }
      { intros Hin. apply Hproto. by right. }
      exists adj', proto', ind'. split; [done|]. split_and!.
      * intros d Hd. rewrite (Hadj d Hd), filter_cons.
        destruct (decide (dep = d)) as [->|Hne].
        -- rewrite lookup_insert_eq, Hl. cbn. by rewrite <- app_assoc.
        -- by rewrite lookup_insert_ne.
      * done.
      * by apply Hind.
Qed.

Lemma build_edges_spec ss adj proto ind :
  (∀ s d, s ∈ ss → d ∈ dependencies s → d ≠ proto_key → is_Some (adj !! d)) →
  (∀ s, s ∈ ss → proto_key ∈ dependencies s → is_Some proto) →
  ∃ adj' proto' ind', build_edges ss adj proto ind = inr (adj', proto', ind') ∧
    (∀ d, d ≠ proto_key →
       adj' !! d = (λ l, l ++ dependents ss d) <$> adj !! d) ∧
    (∀ m, ind' !! m
       = (λ v, v + Z.of_nat (length (deps_all ss m)))%Z <$> ind !! m).
Proof.
  revert adj proto ind.
  induction ss as [|s ss IH]; intros adj proto ind Hdef Hproto.
  - exists adj, proto, ind. split; [done|]. split.
    + intros d _. destruct (adj !! d); cbn; [by rewrite app_nil_r | done].
    + intros m. destruct (ind !! m); cbn; [|done]. f_equal. lia.
  - destruct (add_edges_spec (name s) (dependencies s) adj proto ind)
      as (adj1 & proto1 & ind1 & Hadd & Hadj1 & Hp1 & Hind1).
    { intros d Hd. apply (Hdef s); [by left | done]. }
    { apply (Hproto s). by left. }
    cbn [build_edges]. rewrite Hadd.
    destruct (IH adj1 proto1 ind1) as (adj' & proto' & ind' & -> & Hadj & Hind).
    { intros s' d Hs' Hd Hne. rewrite (Hadj1 d Hne).
      destruct (Hdef s' d) as [l ->]; [by right | done | done | by eexists]. }
    { intros s' Hs' Hd. apply Hp1, (Hproto s'); [by right|done]. }
    exists adj', proto', ind'. split; [done|]. split.
    + intros d Hd. rewrite (Hadj d Hd), (Hadj1 d Hd).
      destruct (adj !! d); cbn [fmap option_fmap option_map]; [|done].
      unfold dependents. cbn [flat_map]. by rewrite <- app_assoc.
    + intros m. rewrite Hind, Hind1.
      destruct (ind !! m); cbn [fmap option_fmap option_map]; [|done].
      unfold deps_all. rewrite filter_cons.
      destruct (decide (name s = m)) as [<-|Hne].
      * rewrite decide_True by done. cbn [flat_map].
        rewrite length_app. f_equal. lia.
      * rewrite decide_False by congruence. done.
Qed.

Lemma graph_built stages :
  resolved stages →
  ∃ adj proto ind,
    build_edges stages (initialize stages ∅ None ∅).1.1
      (initialize stages ∅ None ∅).1.2 (initialize stages ∅ None ∅).2
      = inr (adj, proto, ind) ∧
    (∀ n, n ∈ stageNames stages → n ≠ proto_key →
          adj !! n = Some (dependents stages n) ∧
          ind !! n = Some (Z.of_nat (length (deps_all stages n)))) ∧
    ind !! proto_key = None.
Proof.
  intros Hres.
  destruct (build_edges_spec stages (initialize stages ∅ None ∅).1.1
              (initialize stages ∅ None ∅).1.2 (initialize stages ∅ None ∅).2)
    as (adj & proto & ind & Hb & Hadj & Hind).
  { intros s d Hs Hd Hne.
    destruct (initialize_lookup stages ∅ None ∅ d) as (-> & _ & _).
    rewrite decide_True; [by eexists|]. split; [by apply (Hres s)|done]. }
  { intros s Hs Hd.
    destruct (initialize_lookup stages ∅ None ∅ proto_key) as (_ & _ & ->).
    rewrite decide_True; [by eexists|]. by apply (Hres s). }
  exists adj, proto, ind. split; [done|]. split.
  - intros n Hn Hne. rewrite (Hadj n Hne), Hind.
    destruct (initialize_lookup stages ∅ None ∅ n) as (-> & -> & _).
    rewrite !decide_True by done. cbn. split; f_equal.
  - rewrite Hind.
    destruct (initialize_lookup stages ∅ None ∅ proto_key) as (_ & -> & _).
    rewrite decide_False by (by intros [_ ?]). done.
Qed.

(** *** One pass over the neighbours of a removed node *)

Lemma relax_spec ns ind q :
  (∀ n v, n ∈ ns → ind !! n = Some v → (Z.of_nat (occ n ns) ≤ v)%Z) →
  ∃ ind' pushed, relax ns ind q = (ind', q ++ pushed) ∧
    (∀ n, ind' !! n = (λ v, v - Z.of_nat (occ n ns))%Z <$> ind !! n) ∧
    NoDup pushed ∧
    (∀ n, n ∈ pushed ↔ n ∈ ns ∧ ind' !! n = Some 0%Z).
Proof.
  revert ind q. induction ns as [|n0 rest IH]; intros ind q Hpre.
  - exists ind, []. rewrite app_nil_r. split; [done|]. split.
    { intros n. destruct (ind !! n); cbn; [f_equal; lia | done]. }
    split; [constructor|]. intros n. split; [by intros ?%elem_of_nil|].
    by intros [?%elem_of_nil _].
  - cbn [relax]. destruct (ind !! n0) as [v|] eqn:Hv.
    2:{ destruct (IH ind q) as (ind' & pushed' & Hrelax & Hind & Hnd & Hpushed).
        { intros n v Hn Hnv. destruct (decide (n0 = n)) as [<-|Hne];
            [congruence|].
          pose proof (Hpre n v ltac:(by right) Hnv) as Hle.
          rewrite occ_cons, decide_False in Hle by done. lia. }
        exists ind', pushed'. split; [done|]. split.
        { intros n. rewrite Hind, occ_cons.
          destruct (decide (n0 = n)) as [<-|Hne]; [by rewrite Hv|done]. }
        split; [done|]. intros n. rewrite elem_of_cons, Hpushed. split.
        - intros [? ?]. auto.
        - intros [[->|Hin] Hz]; [|done].
          rewrite Hind, Hv in Hz. done. }
    pose proof (Hpre n0 v ltac:(by left) Hv) as Hle.
    rewrite occ_cons, decide_True in Hle by done.
    destruct (IH (<[n0 := (v - 1)%Z]> ind)
                (if (v - 1 =? 0)%Z then q ++ [n0] else q))
      as (ind' & pushed' & Hrelax & Hind & Hnd & Hpushed).
    { intros n v' Hn. destruct (decide (n0 = n)) as [<-|Hne].
      - rewrite lookup_insert_eq. intros [= <-]. lia.
      - rewrite lookup_insert_ne by done. intros Hv'.
        pose proof (Hpre n v' ltac:(by right) Hv') as Hle'.
        rewrite occ_cons, decide_False in Hle' by done. lia. }
    rewrite Hrelax.
    assert (Hind' : ∀ n, ind' !! n
              = (λ v, v - Z.of_nat (occ n (n0 :: rest)))%Z <$> ind !! n).
    { intros n. rewrite Hind, occ_cons.
      destruct (decide (n0 = n)) as [<-|Hne].
      - rewrite lookup_insert_eq, Hv. cbn. f_equal. lia.
      - rewrite lookup_insert_ne by done.
        destruct (ind !! n); cbn; [f_equal; lia | done]. }
    assert (Hn0 : ind' !! n0 = Some (v - 1 - Z.of_nat (occ n0 rest))%Z).
    { by rewrite Hind, lookup_insert_eq. }
    destruct (Z.eqb_spec (v - 1) 0) as [Hz|Hnz].
    + assert (n0 ∉ rest) as Hfresh by (rewrite <- occ_pos; lia).
      exists ind', (n0 :: pushed'). rewrite <- app_assoc. split; [done|].
      split; [done|]. split.
      { constructor; [|done]. intros Hin. apply Hpushed in Hin as [? _]. done. }
      intros n. rewrite !elem_of_cons, Hpushed. split.
      * intros [->|[? ?]]; [|by auto]. split; [by left|].
        rewrite Hn0. f_equal.
        assert (occ n0 rest = 0); [|lia].
        destruct (occ n0 rest) eqn:E; [done|]. exfalso. apply Hfresh, occ_pos. lia.
      * intros [[->|Hin] Hzero]; [by left | by right].
    + exists ind', pushed'. split; [done|]. split; [done|]. split; [done|].
      intros n. rewrite elem_of_cons, Hpushed. split; [by intros [? ?]; auto|].
      intros [[->|Hin] Hzero]; [|done]. split; [|done].
      apply occ_pos. rewrite Hn0 in Hzero. injection Hzero as Hzero. lia.
Qed.

(** *** The loop invariant *)

Section kahn.
Variable stages : list Stage.

Lemma waiting_snoc result c n :
  c ∉ result →
  waiting stages (result ++ [c]) n + occ c (deps_all stages n)
  = waiting stages result n.
Proof.
  intros Hc. unfold waiting, occ.
  induction (deps_all stages n) as [|d l IH]; [done|].
  rewrite !filter_cons.
  destruct (decide (d = c)) as [->|Hne].
  - rewrite decide_False by (intros H; apply H, elem_of_app; right; by left).
    rewrite decide_True by done. cbn [length]. lia.
  - destruct (decide (d ∉ result)) as [Hd|Hd].
    + rewrite decide_True; [cbn [length]; lia|].
      intros [?|?%list_elem_of_singleton]%elem_of_app; done.
    + rewrite decide_False; [done|].
      intros H. apply Hd. intros Hin. apply H, elem_of_app. by left.
Qed.

Lemma waiting_zero result n :
  waiting stages result n = 0 ↔ ∀ d, depends_on stages n d → d ∈ result.
Proof.
  unfold waiting. rewrite length_zero_iff_nil. split.
  - intros Hnil d Hd. apply elem_of_deps_all in Hd.
    destruct (decide (d ∈ result)) as [|Hnin]; [done|].
    exfalso. by apply (filter_nil_not_elem_of _ _ d Hnil Hnin).
  - intros Hall. destruct (filter _ _) as [|d l] eqn:E; [done|].
    assert (d ∈ filter (λ d, d ∉ result) (deps_all stages n)) as Hin
      by (rewrite E; by left).
    apply list_elem_of_filter in Hin as [Hnin Hin].
    exfalso. apply Hnin, Hall. by apply elem_of_deps_all.
Qed.

Lemma kahn_step current queue result visited ind :
  kahn_inv stages (current :: queue) result visited ind →
  ∃ ind' queue',
    (relax (dependents stages current) ind queue = (ind', queue')) ∧
    (current ∉ visited) ∧ current ≠ proto_key ∧
    kahn_inv stages queue' (result ++ [current]) ({[current]} ∪ visited) ind'.
Proof.
  intros [Hvis Hnd Hnames [Hpq Hpi] Hind Hready Htopo].
  assert (Hcur : current ∉ result).
  { apply NoDup_app in Hnd as (_ & Hdisj & _). intros Hin.
    apply (Hdisj _ Hin). by left. }
  assert (Hcn : current ∈ stageNames stages).
  { apply Hnames, elem_of_app. right. by left. }
  assert (Hcp : current ≠ proto_key).
  { intros ->. apply Hpq, elem_of_app. right. by left. }
  destruct (relax_spec (dependents stages current) ind queue)
    as (ind' & pushed & Hrelax & Hind' & Hpnd & Hpushed).
  { intros n v Hn Hv.
    assert (n ≠ proto_key) as Hne by (intros ->; congruence).
    rewrite (Hind n (elem_of_dependents stages current n Hn) Hne) in Hv.
    injection Hv as <-.
    rewrite occ_dependents. pose proof (waiting_snoc result current n Hcur). lia. }
  assert (Hpi' : ind' !! proto_key = None) by (by rewrite Hind', Hpi).
  assert (Hind'' : ∀ n, n ∈ stageNames stages → n ≠ proto_key →
            ind' !! n = Some (Z.of_nat (waiting stages (result ++ [current]) n))).
  { intros n Hn Hne. rewrite Hind', (Hind n Hn Hne), occ_dependents. cbn. f_equal.
    pose proof (waiting_snoc result current n Hcur). lia. }
  assert (Hpp : ∀ n, n ∈ pushed → n ≠ proto_key).
  { intros n [_ Hz]%Hpushed ->. congruence. }
  assert (Hfresh : ∀ n, n ∈ pushed → n ∉ result ++ current :: queue).
  { intros n Hn Hin. pose proof (Hpp n Hn) as Hne.
    apply Hpushed in Hn as [Hdep Hz].
    assert (n ∈ stageNames stages) as Hnn by (by eapply elem_of_dependents).
    apply (Hready n Hnn Hne) in Hin.
    apply occ_pos in Hdep. rewrite occ_dependents in Hdep.
    pose proof (waiting_snoc result current n Hcur). lia. }
  exists ind', (queue ++ pushed). split; [done|]. split.
  { rewrite Hvis, elem_of_list_to_set. done. }
  split; [done|]. split.
  - rewrite Hvis. apply set_eq. intros x.
    rewrite elem_of_union, elem_of_singleton, !elem_of_list_to_set, elem_of_app,
      list_elem_of_singleton. tauto.
  - rewrite <- app_assoc. cbn [app].
    apply NoDup_app. apply NoDup_app in Hnd as (Hr & Hdisj & Hq).
    apply NoDup_cons in Hq as [Hcq Hq].
    split; [done|]. split.
    + intros x Hx [->|[Hin|Hin]%elem_of_app]%elem_of_cons; [done| |].
      * apply (Hdisj x Hx). by right.
      * apply (Hfresh x Hin), elem_of_app. by left.
    + constructor.
      * intros [Hin|Hin]%elem_of_app; [done|].
        apply (Hfresh _ Hin), elem_of_app. right. by left.
      * apply NoDup_app. split; [done|]. split; [|done].
        intros x Hx Hin. apply (Hfresh x Hin), elem_of_app. right. by right.
  - intros n. rewrite <- app_assoc. cbn [app].
    rewrite elem_of_app, elem_of_cons, elem_of_app.
    intros [Hin|[->|[Hin|Hin]]]; [| done | |].
    + apply Hnames, elem_of_app. by left.
    + apply Hnames, elem_of_app. right. by right.
    + apply Hpushed in Hin as [Hin _]. by eapply elem_of_dependents.
  - split; [|done]. rewrite <- app_assoc. cbn [app].
    rewrite elem_of_app, elem_of_cons, elem_of_app.
    intros [Hin|[Heq|[Hin|Hin]]].
    + apply Hpq, elem_of_app. by left.
    + done.
    + apply Hpq, elem_of_app. right. by right.
    + by apply (Hpp _ Hin).
  - done.
  - intros n Hn Hne. pose proof (waiting_snoc result current n Hcur) as Hps.
    rewrite <- app_assoc. cbn [app]. split.
    + rewrite elem_of_app, elem_of_cons, elem_of_app.
      intros [Hin|[->|[Hin|Hin]]].
      * assert (waiting stages result n = 0); [|lia].
        apply Hready; [done..|]. apply elem_of_app. by left.
      * assert (waiting stages result current = 0); [|lia].
        apply Hready; [done..|]. apply elem_of_app. right. by left.
      * assert (waiting stages result n = 0); [|lia].
        apply Hready; [done..|]. apply elem_of_app. right. by right.
      * apply Hpushed in Hin as [_ Hz]. rewrite (Hind'' n Hn Hne) in Hz.
        injection Hz as Hz. lia.
    + intros Hz. destruct (decide (waiting stages result n = 0)) as [H0|Hpos].
      * apply (Hready n Hn Hne) in H0.
        apply elem_of_app in H0 as [?|[->|?]%elem_of_cons].
        -- apply elem_of_app. by left.
        -- apply elem_of_app. right. by left.
        -- apply elem_of_app. right. right. apply elem_of_app. by left.
      * apply elem_of_app. right. right. apply elem_of_app. right.
        apply Hpushed. split.
        -- apply occ_pos. rewrite occ_dependents. lia.
        -- rewrite (Hind'' n Hn Hne), Hz. done.
  - constructor; [done|]. apply waiting_zero, Hready; [done..|].
    apply elem_of_app. right. by left.
Qed.

Lemma kahn_inv_length queue result visited ind :
  kahn_inv stages queue result visited ind →
  length result + length queue ≤ length (stageNames stages).
Proof.
  intros [_ Hnd Hnames _ _ _ _]. rewrite <- length_app.
  apply submseteq_length, NoDup_submseteq; done.
Qed.

Lemma kahn_spec budget adj proto queue result visited ind :
  (∀ n, n ∈ stageNames stages → n ≠ proto_key →
        adj !! n = Some (dependents stages n)) →
  kahn_inv stages queue result visited ind →
  length (stageNames stages) ≤ budget + length result →
  ∃ result' visited' ind',
    kahn budget adj proto queue result visited ind = inr result' ∧
    kahn_inv stages [] result' visited' ind'.
Proof.
  intros Hadj. revert queue result visited ind.
  induction budget as [|budget IH]; intros queue result visited ind Hinv Hlen.
  - destruct queue as [|current queue]; [by exists result, visited, ind|].
    apply kahn_inv_length in Hinv. cbn [length] in Hinv. lia.
  - destruct queue as [|current queue]; [by exists result, visited, ind|].
    destruct (kahn_step _ _ _ _ _ Hinv)
      as (ind' & queue' & Hrelax & Hfresh & Hcp & Hinv').
    cbn [kahn]. rewrite decide_False by done. unfold neighbors_of.
    apply String.eqb_neq in Hcp as Hcp'. rewrite Hcp'.
    rewrite Hadj;
      [|apply (inv_names _ _ _ _ _ Hinv), elem_of_app; right; by left|done].
    rewrite Hrelax. apply IH; [done|].
    rewrite length_app. cbn [length]. lia.
Qed.

Lemma waiting_nil n : waiting stages [] n = length (deps_all stages n).
Proof.
  unfold waiting. f_equal. induction (deps_all stages n) as [|d l IH]; [done|].
  rewrite filter_cons, decide_True by apply not_elem_of_nil. by rewrite IH.
Qed.

Lemma kahn_inv_initial ind :
  NoDup (stageNames stages) →
  (∀ n, n ∈ stageNames stages → n ≠ proto_key →
        ind !! n = Some (Z.of_nat (length (deps_all stages n)))) →
  ind !! proto_key = None →
  kahn_inv stages (List.filter (is_zero ind) (stageNames stages)) [] ∅ ind.
Proof.
  intros Hnd Hind Hpi. split; cbn [app].
  - done.
  - by apply NoDup_ListNoDup, List.NoDup_filter, NoDup_ListNoDup.
  - intros n Hn. apply list_elem_of_In, filter_In in Hn as [Hn _].
    by apply list_elem_of_In.
  - split; [|done]. intros [_ Hz]%list_elem_of_In%filter_In.
    unfold is_zero in Hz. by rewrite Hpi in Hz.
  - intros n Hn Hne. by rewrite waiting_nil, Hind.
  - intros n Hn Hne. rewrite waiting_nil, list_elem_of_In, filter_In.
    unfold is_zero. rewrite (Hind n Hn Hne). rewrite <- list_elem_of_In.
    split.
    + intros [_ Hz]. apply Z.eqb_eq in Hz. lia.
    + intros Hz. split; [done|]. apply Z.eqb_eq. lia.
  - constructor.
Qed.

(** [topologicalSort] in terms of the final state of the loop. *)
Lemma topologicalSort_spec :
  NoDup (stageNames stages) → resolved stages →
  ∃ result visited ind,
    kahn_inv stages [] result visited ind ∧
    topologicalSort stages
    = if negb (length result =? length (stageNames stages))
      then inl (CircularInvolving
                  (List.filter (λ n, negb (Persistence.includes n result))
                     (stageNames stages)))
      else inr result.
Proof.
  intros Hnd Hres.
  destruct (graph_built stages Hres) as (adj & proto & ind & Hbuild & Hgraph & Hpi).
  destruct (kahn_spec (length (stageNames stages)) adj proto
              (List.filter (is_zero ind) (stageNames stages)) [] ∅ ind)
    as (result & visited & ind' & Hkahn & Hinv).
  { intros n Hn Hne. by apply Hgraph. }
  { apply kahn_inv_initial; [done| |done]. intros n Hn Hne. by apply Hgraph. }
  { cbn. lia. }
  exists result, visited, ind'. split; [done|].
  unfold topologicalSort. destruct (initialize stages ∅ None ∅) as [[adj0 proto0] ind0].
  cbn [fst snd] in Hbuild. rewrite Hbuild, Hkahn. done.
Qed.

(** *** What the emitted order satisfies *)

Lemma topo_before order n d :
  topo stages order → n ∈ order → depends_on stages n d → before order d n.
Proof.
  induction 1 as [|order m Htopo IH Hdeps]; [by intros ?%elem_of_nil|].
  intros Hn Hd. apply elem_of_app in Hn as [Hn|Hn%list_elem_of_singleton].
  - destruct (IH Hn Hd) as (i & j & Hi & Hj & Hlt).
    exists i, j. split; [|split; [|done]]; by apply lookup_app_l_Some.
  - subst m. apply Hdeps, list_elem_of_lookup in Hd as [i Hi].
    exists i, (length order). split; [by apply lookup_app_l_Some|]. split.
    + rewrite lookup_app_r by done. by rewrite Nat.sub_diag.
    + by apply lookup_lt_Some in Hi.
Qed.

Lemma before_trans order a b c :
  NoDup order → before order a b → before order b c → before order a c.
Proof.
  intros Hnd (i & j & Hi & Hj & Hij) (j' & k & Hj' & Hk & Hjk).
  assert (j = j') as <- by (eapply NoDup_lookup; done).
  exists i, k. split; [done|]. split; [done|]. lia.
Qed.

Lemma before_irrefl order a : NoDup order → ¬ before order a a.
Proof.
  intros Hnd (i & j & Hi & Hj & Hij).
  assert (i = j) by (eapply NoDup_lookup; done). lia.
Qed.

Lemma before_elem_l order a b : before order a b → a ∈ order.
Proof. intros (i & _ & Hi & _). by eapply list_elem_of_lookup_2. Qed.

Lemma topo_reaches order n m :
  topo stages order → NoDup order → n ∈ order →
  tc (depends_on stages) n m → before order m n.
Proof.
  intros Htopo Hnd Hn Htc. induction Htc as [n m Hdep|n k m Hdep Htc IH].
  - by apply topo_before.
  - pose proof (topo_before order n k Htopo Hn Hdep) as Hkn.
    eapply before_trans; [done| |exact Hkn].
    apply IH. by eapply before_elem_l.
Qed.

(** A stage on a cycle is never emitted. *)
Lemma on_cycle_not_emitted order n :
  topo stages order → NoDup order → on_cycle stages n → n ∉ order.
Proof.
  intros Htopo Hnd Hcyc Hn.
  by apply (before_irrefl order n Hnd), topo_reaches.
Qed.

Lemma waits_for_spec result n :
  resolved stages →
  waiting stages result n ≠ 0 →
  (waits_for stages result n ∈ stageNames stages) ∧
  (waits_for stages result n ∉ result) ∧
  depends_on stages n (waits_for stages result n).
Proof.
  intros Hres Hpend. unfold waits_for, waiting in *.
  destruct (filter _ _) as [|d l] eqn:E; [done|]. cbn.
  assert (d ∈ filter (λ d, d ∉ result) (deps_all stages n)) as Hin
    by (rewrite E; by left).
  apply list_elem_of_filter in Hin as [Hnin Hin].
  apply elem_of_deps_all in Hin. split; [|done].
  destruct Hin as (s & Hs & _ & Hd). by apply (Hres s).
Qed.

Lemma all_emitted result :
  resolved stages → acyclic stages → proto_key ∉ stageNames stages →
  (∀ n, n ∈ stageNames stages → n ≠ proto_key →
        (n ∈ result ↔ waiting stages result n = 0)) →
  ∀ n, n ∈ stageNames stages → n ∈ result.
Proof.
  intros Hres Hacyc Hnp Hready' n0 Hn0.
  assert (Hready : ∀ n, n ∈ stageNames stages →
            (n ∈ result ↔ waiting stages result n = 0)).
  { intros n Hn. apply Hready'; [done|]. by intros ->. }
  destruct (decide (n0 ∈ result)) as [|Hmiss]; [done|]. exfalso.
  set (x := λ i, Nat.iter i (waits_for stages result) n0).
  assert (Hx : ∀ i, x i ∈ stageNames stages ∧ x i ∉ result).
  { induction i as [|i [IHn IHr]]; [done|].
    unfold x. cbn [Nat.iter]. fold (x i).
    destruct (waits_for_spec result (x i) Hres) as (? & ? & _); [|done].
    intros Hz. by apply IHr, Hready. }
  assert (Hstep : ∀ i, depends_on stages (x i) (x (S i))).
  { intros i. destruct (Hx i) as [Hn Hr].
    unfold x at 2. cbn [Nat.iter]. fold (x i).
    apply waits_for_spec; [done|]. intros Hz. by apply Hr, Hready. }
  assert (Htc : ∀ k i, tc (depends_on stages) (x i) (x (i + S k))).
  { induction k as [|k IH]; intros i.
    - rewrite Nat.add_1_r. apply tc_once, Hstep.
    - replace (i + S (S k)) with (S (i + S k)) by lia.
      eapply tc_r; [apply IH | apply Hstep]. }
  assert (Hinj : ∀ i j, i < j → x i ≠ x j).
  { intros i j Hlt Heq. apply (Hacyc (x i)). unfold on_cycle.
    rewrite Heq at 2. replace j with (i + S (j - i - 1)) by lia. apply Htc. }
  assert (Hnd : NoDup (x <$> seq 0 (S (length (stageNames stages))))).
  { apply NoDup_fmap_2_strong; [|apply NoDup_seq].
    intros i j _ _ Heq. destruct (Nat.lt_trichotomy i j) as [Hlt|[->|Hgt]].
    - by destruct (Hinj i j Hlt).
    - done.
    - by destruct (Hinj j i Hgt). }
  assert (Hsub : x <$> seq 0 (S (length (stageNames stages))) ⊆+ stageNames stages).
  { apply NoDup_submseteq; [done|]. intros y Hy.
    apply list_elem_of_fmap in Hy as (i & -> & _). apply Hx. }
  apply submseteq_length in Hsub. rewrite length_fmap, length_seq in Hsub. lia.
Qed.

(** On an acyclic graph with distinct, resolved names, none of them
    [__proto__], the sorter returns a permutation of the stage names in
    which dependencies come first. *)
Lemma topologicalSort_acyclic :
  NoDup (stageNames stages) → resolved stages → acyclic stages →
  proto_key ∉ stageNames stages →
  ∃ order,
    topologicalSort stages = inr order ∧
    order ≡ₚ stageNames stages ∧
    topo stages order.
Proof.
  intros Hnd Hres Hacyc Hnp.
  destruct (topologicalSort_spec Hnd Hres) as (result & visited & ind & Hinv & Hsort).
  destruct Hinv as [_ Hndr Hnames _ _ Hready Htopo]. rewrite app_nil_r in *.
  assert (Hperm : result ≡ₚ stageNames stages).
  { apply NoDup_Permutation; [done..|]. intros n. split; [apply Hnames|].
    by apply all_emitted. }
  exists result. split; [|done].
  rewrite Hsort. rewrite (Permutation_length Hperm), Nat.eqb_refl. done.
Qed.

(** On a graph with a cycle the sorter throws the error that lists the
    stages it could not emit, and every stage on a cycle is listed. *)
Lemma topologicalSort_cyclic n :
  NoDup (stageNames stages) → resolved stages → on_cycle stages n →
  ∃ remaining,
    topologicalSort stages = inl (CircularInvolving remaining) ∧
    ∀ m, on_cycle stages m → m ∈ remaining.
Proof.
  intros Hnd Hres Hcyc.
  destruct (topologicalSort_spec Hnd Hres) as (result & visited & ind & Hinv & Hsort).
  destruct Hinv as [_ Hndr Hnames _ _ _ Htopo]. rewrite app_nil_r in *.
  assert (Hout : ∀ m, on_cycle stages m → m ∈ stageNames stages ∧ m ∉ result).
  { intros m Hm. split; [|by apply on_cycle_not_emitted].
    assert (∃ d, depends_on stages m d) as (d & s & Hs & <- & _)
      by (inversion Hm; subst; by eexists).
    apply list_elem_of_In, in_map, list_elem_of_In, Hs. }
  eexists. split.
  - rewrite Hsort. destruct (Nat.eqb_spec (length result) (length (stageNames stages)))
      as [Hlen|Hlen]; [|done].
    exfalso. destruct (Hout n Hcyc) as [Hn Hnr]. apply Hnr.
    assert (result ≡ₚ stageNames stages) as Hperm.
    { apply submseteq_length_Permutation; [|lia]. by apply NoDup_submseteq. }
    by rewrite Hperm.
  - intros m Hm. destruct (Hout m Hm) as [Hmn Hmr].
    apply list_elem_of_In, filter_In. split; [by apply list_elem_of_In|].
    apply negb_true_iff, not_true_iff_false. unfold Persistence.includes.
    rewrite existsb_exists. intros (y & Hy & Heq). apply String.eqb_eq in Heq.
    subst y. by apply Hmr, list_elem_of_In.
Qed.

(** What a returned order satisfies, whatever the graph. *)
Lemma topologicalSort_inr order :
  NoDup (stageNames stages) → resolved stages →
  topologicalSort stages = inr order →
  order ≡ₚ stageNames stages ∧ NoDup order ∧ topo stages order.
Proof.
  intros Hnd Hres Hsort.
  destruct (topologicalSort_spec Hnd Hres) as (result & visited & ind & Hinv & Hspec).
  destruct Hinv as [_ Hndr Hnames _ _ _ Htopo]. rewrite app_nil_r in *.
  rewrite Hspec in Hsort.
  destruct (Nat.eqb_spec (length result) (length (stageNames stages)))
    as [Hlen|Hlen]; [|done].
  injection Hsort as <-. split; [|done].
  apply submseteq_length_Permutation; [|lia]. by apply NoDup_submseteq.
Qed.

Lemma ranked_acyclic (rank : string → nat) :
  (∀ n d, depends_on stages n d → rank d < rank n) → acyclic stages.
Proof.
  intros Hrank n Hcyc.
  assert (∀ a b, tc (depends_on stages) a b → rank b < rank a) as Hlt.
  { induction 1 as [a b Hab|a b c Hab _ IH]; [by apply Hrank|].
    specialize (Hrank _ _ Hab). lia. }
  specialize (Hlt n n Hcyc). lia.
Qed.

End kahn.

(** *** What a valid workflow definition guarantees *)

Lemma validateWorkflow_sound (workflow : Workflow) :
  validateWorkflow workflow = [] →
  NoDup (stageNames (stages workflow)) ∧ resolved (stages workflow).
Proof.
  unfold validateWorkflow. intros Hnil.
  apply app_eq_nil in Hnil as [_ Hnil]. apply app_eq_nil in Hnil as [_ Hnil].
  apply app_eq_nil in Hnil as [Hdup Hdeps]. split.
  - apply NoDup_alt. intros i j x Hi Hj. unfold stageNames in *.
    change (map name (stages workflow)) with (name <$> stages workflow) in *.
    rewrite list_lookup_fmap in Hi, Hj.
    destruct (stages workflow !! i) as [s|] eqn:Hsi; [|done].
    destruct (stages workflow !! j) as [s'|] eqn:Hsj; [|done].
    cbn in Hi, Hj. injection Hi as <-. injection Hj as Hname.
    destruct (decide (i = j)) as [|Hne]; [done|]. exfalso.
    assert (stage_errors (stages workflow) i s = []) as Herr.
    { destruct (stage_errors (stages workflow) i s) as [|e l] eqn:E; [done|].
      assert (e ∈ concat (imap (stage_errors (stages workflow)) (stages workflow)))
        as Hin.
      { apply list_elem_of_In, in_concat. exists (e :: l). split.
        - apply list_elem_of_In. rewrite <- E. by apply elem_of_lookup_imap_2.
        - by left. }
      rewrite Hdup in Hin. by apply elem_of_nil in Hin. }
    unfold stage_errors in Herr.
    apply app_eq_nil in Herr as [_ Herr]. apply app_eq_nil in Herr as [_ Herr].
    destruct (existsb _ _) eqn:Hex; [done|].
    apply not_true_iff_false in Hex. apply Hex, existsb_exists.
    exists (j, s'). split.
    + apply list_elem_of_In. by apply (elem_of_lookup_imap_2 pair).
    + apply andb_true_iff. split; [by apply String.eqb_eq|].
      apply negb_true_iff, Nat.eqb_neq. done.
  - intros s d Hs Hd.
    assert (dependency_errors (stages workflow) s = []) as Herr.
    { destruct (dependency_errors (stages workflow) s) as [|e l] eqn:E; [done|].
      assert (In e (flat_map (dependency_errors (stages workflow)) (stages workflow)))
        as Hin.
      { apply in_flat_map. exists s. split; [by apply list_elem_of_In|].
        rewrite E. by left. }
      by rewrite Hdeps in Hin. }
    unfold dependency_errors in Herr.
    destruct (Persistence.includes d (stageNames (stages workflow))) eqn:Hinc.
    + unfold Persistence.includes in Hinc. apply existsb_exists in Hinc
        as (y & Hy & Heq). apply String.eqb_eq in Heq. subst y.
      by apply list_elem_of_In.
    + exfalso.
      assert (In ("Stage " +:+ dq +:+ name s +:+ dq +:+
                  " depends on unknown stage: " +:+ dq +:+ d +:+ dq)
                (flat_map
                   (λ dep, if Persistence.includes dep (stageNames (stages workflow))
                           then []
                           else ["Stage " +:+ dq +:+ name s +:+ dq +:+
                                 " depends on unknown stage: " +:+ dq +:+ dep +:+ dq])
                   (dependencies s))) as Hin.
      { apply in_flat_map. exists d. split; [by apply list_elem_of_In|].
        rewrite Hinc. by left. }
      by rewrite Herr in Hin.
Qed.

(** On a definition that passes validation the loop of the sorter ends
    within its budget, and the sorter throws no TypeError. *)
Lemma topologicalSort_finishes (workflow : Workflow) :
  validateWorkflow workflow = [] →
  topologicalSort (stages workflow) ≠ inl Unfinished ∧
  topologicalSort (stages workflow) ≠ inl TypeError.
Proof.
  intros [Hnd Hres]%validateWorkflow_sound.
  destruct (topologicalSort_spec (stages workflow) Hnd Hres)
    as (result & visited & ind & _ & ->).
  by destruct (negb _).
Qed.

(** *** The sorter on acyclic and on cyclic graphs *)

(** The stage named [__proto__] is never emitted: a list that has it is
    reported circular, whatever its graph. *)
Lemma proto_stage_never_sorted (stages : list Stage) :
  NoDup (stageNames stages) → resolved stages →
  proto_key ∈ stageNames stages →
  ∃ remaining,
    topologicalSort stages = inl (CircularInvolving remaining) ∧
    proto_key ∈ remaining.
Proof.
  intros Hnd Hres Hp.
  destruct (topologicalSort_spec stages Hnd Hres)
    as (result & visited & ind & Hinv & Hsort).
  destruct Hinv as [_ Hndr Hnames [Hpr _] _ _ _]. rewrite app_nil_r in *.
  eexists. split.
  - rewrite Hsort.
    destruct (Nat.eqb_spec (length result) (length (stageNames stages)))
      as [Hlen|Hlen]; [|done].
    exfalso. apply Hpr.
    assert (result ≡ₚ stageNames stages) as Hperm.
    { apply submseteq_length_Permutation; [|lia]. by apply NoDup_submseteq. }
    by rewrite Hperm.
  - apply list_elem_of_In, filter_In. split; [by apply list_elem_of_In|].
    apply negb_true_iff, not_true_iff_false. unfold Persistence.includes.
    rewrite existsb_exists. intros (y & Hy & Heq). apply String.eqb_eq in Heq.
    subst y. by apply Hpr, list_elem_of_In.
Qed.

(** On every acyclic stage graph (distinct names, dependencies that
    resolve) without a stage named [__proto__] the sorter returns a total
    order over all stage names in which every stage stands at a strictly
    larger index than each of its dependencies. *)
Lemma sorter_orders_acyclic_graphs (stages : list Stage) :
  NoDup (stageNames stages) → resolved stages → acyclic stages →
  proto_key ∉ stageNames stages →
  ∃ order,
    topologicalSort stages = inr order ∧
    order ≡ₚ stageNames stages ∧
    ∀ s d, s ∈ stages → d ∈ dependencies s → before order d (name s).
Proof.
  intros Hnd Hres Hacyc Hnp.
  destruct (topologicalSort_acyclic stages Hnd Hres Hacyc Hnp)
    as (order & Hsort & Hperm & Htopo).
  exists order. split; [done|]. split; [done|].
  intros s d Hs Hd. apply (topo_before stages); [done| |by exists s].
  rewrite Hperm. apply list_elem_of_In, in_map, list_elem_of_In, Hs.
Qed.

Lemma chain_is_acyclic : acyclic Scenario.chain.
Proof.
  apply (ranked_acyclic _
           (λ n, match n with String c _ => nat_of_ascii c | EmptyString => 0 end)).
  intros n d (s & Hs & <- & Hd). unfold Scenario.chain in Hs.
  repeat (apply elem_of_cons in Hs as [->|Hs]); cbn in Hd;
    repeat (apply elem_of_cons in Hd as [->|Hd]);
    try (by apply elem_of_nil in Hd); try (by apply elem_of_nil in Hs);
    vm_compute; lia.
Qed.

End SortFacts.

(** ** The stage executor *)

Module ExecutorFacts.
Import Text Data Evidence Queue Executor.

Lemma failures_app stage l k :
  failures_encountered stage (l ++ k)
  = failures_encountered stage l + failures_encountered stage k.
Proof.
  unfold failures_encountered. by rewrite List.filter_app, length_app.
Qed.

(** A result that an attempt returns is complete, counts the attempt, and
    has no [transcript] property. *)
Lemma finish_attempt_inr rt ae stage workflow attempt spawned output si r :
  finish_attempt rt ae stage workflow attempt spawned output si = inr r →
  sr_status r = complete ∧ sr_attempts r = Some attempt ∧ sr_error r = None ∧
  sr_transcript r = None.
Proof.
  unfold finish_attempt. destruct (ae_saveError ae); [done|].
  destruct (negb _); [done|]. by intros [= <-].
Qed.

Lemma run_attempt_inr rt ae stage workflow attempt si r si' :
  run_attempt rt ae stage workflow attempt si = (inr r, si') →
  sr_status r = complete ∧ sr_attempts r = Some attempt ∧ sr_error r = None ∧
  sr_transcript r = None.
Proof.
  unfold run_attempt. destruct (ae_spawn ae) as [|spawned]; [done|].
  destruct (nonempty _) as [sessionId|].
  - destruct (ae_wait ae) as [|session]; [done|].
    destruct (detectAbandonedStage _ _ _ _); [done|].
    intros [= H _]. by eapply finish_attempt_inr.
  - intros [= H _]. by eapply finish_attempt_inr.
Qed.

(** The retry loop over the attempts [a, a+1, ..., a+len-1]: what it
    appends to the log, and how the attempt count of a result relates to
    the failures logged. The state store is left alone. *)
Lemma attempts_loop_count rt mods env stage workflow len :
  ∀ a si lastError w out w',
    attempts_loop rt mods env stage workflow (seq a len) si lastError w
      = (out, w') →
    store w' = store w ∧ passes w' = passes w ∧
    ∃ new, log w' = log w ++ new ∧
      Scheduler.restarts new = 0 ∧
      match out with
      | inr r =>
          sr_status r = complete ∧ sr_error r = None ∧ sr_transcript r = None ∧
          sr_attempts r = Some (a + failures_encountered (name stage) new) ∧
          failures_encountered (name stage) new < len
      | inl _ => failures_encountered (name stage) new ≤ len
      end.
Proof.
  induction len as [|len IH]; intros a si lastError w out w' Hloop.
  - cbn in Hloop. injection Hloop as <- <-. split; [done|]. split; [done|].
    exists []. rewrite app_nil_r. done.
  - cbn [seq attempts_loop] in Hloop.
    destruct (run_attempt rt (attemptEnv env (calls w)) stage workflow a si)
      as [[message|r] si'] eqn:Hrun.
    + destruct (errorHandler mods || checkpoint mods).
      { injection Hloop as <- <-. split; [done|]. split; [done|].
        eexists. split; [cbn; by rewrite <- app_assoc|]. split; [done|].
        cbn. rewrite String.eqb_refl. cbn. lia. }
      destruct (negb (a <=? effective_retries stage workflow)).
      { injection Hloop as <- <-. split; [done|]. split; [done|].
        eexists. split; [cbn; by rewrite <- !app_assoc|]. split; [done|].
        cbn. rewrite String.eqb_refl. cbn. lia. }
      apply IH in Hloop as (Hstore & Hpasses & new & Hlog & Hre & Hout).
      split; [done|]. split; [done|]. cbn in Hlog.
      rewrite <- !app_assoc in Hlog. cbn [app] in Hlog.
      eexists. split; [exact Hlog|].
      assert (Hf : ∀ l, failures_encountered (name stage)
                (StageStarted (name stage) a :: StageFailed (name stage) a message
                   :: StageRetry (name stage) (5 * Z.of_nat a) :: l)
              = S (failures_encountered (name stage) l)).
      { intros l. unfold failures_encountered. cbn. by rewrite String.eqb_refl. }
      split; [done|]. rewrite Hf. destruct out as [f|r].
      * lia.
      * destruct Hout as (? & ? & ? & Hatt & ?). repeat split; try done; [|lia].
        rewrite Hatt. f_equal. lia.
    + injection Hloop as <- <-. split; [done|]. split; [done|].
      eexists. split; [cbn; by rewrite <- app_assoc|]. split; [done|].
      apply run_attempt_inr in Hrun as (? & Hatt & ? & ?).
      cbn. repeat split; try done; [|lia]. rewrite Hatt. f_equal. lia.
Qed.

Lemma executeStage_count rt mods env stage workflow stageOutputs w out w' :
  executeStage rt mods env stage workflow stageOutputs w = (out, w') →
  store w' = store w ∧ passes w' = passes w ∧
  ∃ new, log w' = log w ++ new ∧
    Scheduler.restarts new = 0 ∧
    match out with
    | inr r =>
        sr_status r = complete ∧ sr_error r = None ∧ sr_transcript r = None ∧
        sr_attempts r = Some (failures_encountered (name stage) new + 1) ∧
        failures_encountered (name stage) new ≤ effective_retries stage workflow
    | inl _ =>
        failures_encountered (name stage) new ≤ effective_retries stage workflow + 1
    end.
Proof.
  unfold executeStage.
  destruct (match contextFrom stage with Some _ => _ | None => _ end).
  - intros [= <- <-]. split; [done|]. split; [done|].
    exists []. rewrite app_nil_r. cbn. split; [done|]. split; [done|]. lia.
  - intros Hloop.
    apply attempts_loop_count in Hloop as (? & ? & new & Hlog & Hre & Hout).
    split; [done|]. split; [done|]. exists new. split; [done|]. split; [done|].
    destruct out as [f|r]; [lia|].
    destruct Hout as (? & ? & ? & Hatt & ?). repeat split; try done; [|lia].
    rewrite Hatt. f_equal. lia.
Qed.

(** With neither the error handler nor the checkpoint library loaded, the
    executor retries an abandoned stage; with them loaded the [catch] block
    throws its ReferenceError after the first failure. *)
Lemma abandoned_stage_under_the_executor :
  let workflow := Scenario.simple_workflow [Scenario.build] in
  let plain :=
    executeStage Scenario.rt Scenario.no_modules Scenario.silent Scenario.build
      workflow ∅ Scenario.start in
  let loaded :=
    executeStage Scenario.rt Scenario.all_modules Scenario.silent Scenario.build
      workflow ∅ Scenario.start in
  log plain.2
    = [StageStarted "build" 1;
       StageFailed "build" 1 (abandoned_message "build");
       StageRetry "build" 5;
       StageStarted "build" 2;
       StageFailed "build" 2 (abandoned_message "build");
       StageHalted "build" 2] ∧
  loaded.1 = inl ReferenceError ∧
  log loaded.2
    = [StageStarted "build" 1;
       StageFailed "build" 1 (abandoned_message "build")].
Proof. vm_compute. repeat split; reflexivity. Qed.

End ExecutorFacts.

(** ** The scheduler *)

Module SchedulerFacts.
Import Text Data Evidence Queue Executor Scheduler Graph Order Halting.
Import SortFacts ExecutorFacts.

Lemma restarts_app l k : restarts (l ++ k) = restarts l + restarts k.
Proof. unfold restarts. by rewrite List.filter_app, length_app. Qed.

Lemma quiet_since_refl w : quiet_since w w.
Proof. split; [done|]. exists []. by rewrite app_nil_r. Qed.

Lemma quiet_since_trans w1 w2 w3 :
  quiet_since w1 w2 → quiet_since w2 w3 → quiet_since w1 w3.
Proof.
  intros [Hp1 (n1 & Hl1 & Hr1)] [Hp2 (n2 & Hl2 & Hr2)]. split; [congruence|].
  exists (n1 ++ n2). rewrite Hl2, Hl1, app_assoc, restarts_app. split; [done|lia].
Qed.

Lemma quiet_since_emit e w : is_restart e = false → quiet_since w (emit e w).
Proof.
  intros He. split; [done|]. exists [e]. split; [done|].
  unfold restarts. cbn. by rewrite He.
Qed.

Lemma quiet_since_with_store σ w : quiet_since w (with_store σ w).
Proof. split; [done|]. exists []. by rewrite app_nil_r. Qed.

(** *** The state store keeps terminal results *)

Lemma store_terminal_save st σ :
  store_terminal σ → terminal_outputs (Persistence.stageOutputs st) →
  store_terminal (Persistence.saveWorkflowState st σ).
Proof.
  intros Hσ Hst id st' Hlook. unfold Persistence.saveWorkflowState in Hlook.
  destruct (decide (Persistence.workflowId st = id)) as [<-|Hne].
  - rewrite lookup_insert_eq in Hlook. by injection Hlook as <-.
  - rewrite lookup_insert_ne in Hlook by done. by apply (Hσ id).
Qed.

Lemma terminal_outputs_insert n r outputs :
  terminal_outputs outputs → sr_status r ≠ pending →
  terminal_outputs (<[n := r]> outputs).
Proof.
  intros Ho Hr m r' Hlook. destruct (decide (n = m)) as [<-|Hne].
  - rewrite lookup_insert_eq in Hlook. by injection Hlook as <-.
  - rewrite lookup_insert_ne in Hlook by done. by apply (Ho m).
Qed.

Lemma no_transcript_insert n r outputs :
  no_transcript outputs → sr_transcript r = None →
  no_transcript (<[n := r]> outputs).
Proof.
  intros Ho Hr m r' Hlook. destruct (decide (n = m)) as [<-|Hne].
  - rewrite lookup_insert_eq in Hlook. by injection Hlook as <-.
  - rewrite lookup_insert_ne in Hlook by done. by apply (Ho m).
Qed.

Lemma store_terminal_completion now id n r σ :
  store_terminal σ → sr_status r ≠ pending →
  store_terminal (Persistence.updateStageCompletion now id n r σ).
Proof.
  intros Hσ Hr. unfold Persistence.updateStageCompletion, Persistence.loadWorkflowState.
  destruct (σ !! id) as [st|] eqn:Hst; [|done].
  apply store_terminal_save; [done|]. cbn.
  apply terminal_outputs_insert; [by apply (Hσ id)|done].
Qed.

Lemma store_terminal_failure now id n message σ :
  store_terminal σ →
  store_terminal (Persistence.updateStageFailure now id n message σ).
Proof.
  intros Hσ. unfold Persistence.updateStageFailure, Persistence.loadWorkflowState.
  destruct (σ !! id) as [st|] eqn:Hst; [|done].
  apply store_terminal_save; [done|]. cbn. by apply (Hσ id).
Qed.

Lemma store_terminal_completed now id σ :
  store_terminal σ →
  store_terminal (Persistence.markWorkflowCompleted now id σ).
Proof.
  intros Hσ. unfold Persistence.markWorkflowCompleted, Persistence.loadWorkflowState.
  destruct (σ !! id) as [st|] eqn:Hst; [|done].
  apply store_terminal_save; [done|]. cbn. by apply (Hσ id).
Qed.

Lemma store_terminal_resume now id σ data σ' :
  store_terminal σ →
  Persistence.resumeWorkflow now id σ = inr (data, σ') →
  store_terminal σ' ∧
  terminal_outputs (Persistence.stageOutputs (Persistence.rd_state data)).
Proof.
  intros Hσ. unfold Persistence.resumeWorkflow, Persistence.loadWorkflowState.
  destruct (σ !! id) as [st|] eqn:Hst; [|done].
  pose proof (Hσ id st Hst) as Hterm.
  destruct (Persistence.status st); try done; intros [= <- <-];
    (split; [by apply store_terminal_save | done]).
Qed.

(** *** One stage under the scheduler *)

Lemma schedule_stage_spec host env now workflow workflowState stage outputs w
    r threw w' :
  schedule_stage host env now workflow workflowState stage outputs w
    = (r, threw, w') →
  passes w' = passes w ∧
  (store_terminal (store w) → store_terminal (store w')) ∧
  sr_transcript r = None ∧
  ∃ new, log w' = log w ++ new ∧ restarts new = 0 ∧
    let failures := failures_encountered (name stage) new in
    let maxRetries := effective_retries stage workflow in
    if threw
    then sr_status r = failed ∧
         result_attempts r = Some (maxRetries + 1) ∧
         failures ≤ maxRetries + 1
    else sr_status r = complete ∧
         result_attempts r = Some (failures + 1) ∧
         failures ≤ maxRetries.
Proof.
  unfold schedule_stage.
  destruct (executeStage _ _ _ _ _ _ _) as [[failure|result] w1] eqn:Hexec;
    apply executeStage_count in Hexec as (Hstore & Hpasses & new & Hlog & Hre & Hout);
    intros [= <- <- <-].
  - split; [by destruct workflowState, (persistence (modules host))|]. split.
    { intros Hσ. destruct workflowState as [st|]; [|by rewrite Hstore].
      destruct (persistence (modules host)); [|by rewrite Hstore].
      cbn. rewrite Hstore. by apply store_terminal_failure. }
    split; [done|]. exists new.
    split; [by destruct workflowState, (persistence (modules host))|].
    split; [done|]. cbn. done.
  - destruct Hout as (Hst & Herr & Htr & Hatt & Hle).
    split; [by destruct workflowState, (persistence (modules host))|]. split.
    { intros Hσ. destruct workflowState as [st|]; [|by rewrite Hstore].
      destruct (persistence (modules host)); [|by rewrite Hstore].
      cbn. rewrite Hstore. apply store_terminal_completion; [done|].
      by rewrite Hst. }
    split; [done|]. exists new.
    split; [by destruct workflowState, (persistence (modules host))|].
    split; [done|]. cbn. unfold result_attempts. rewrite Herr. done.
Qed.

(** *** One turn of the loop *)

Lemma turn_spec host env now workflow isResume workflowState stopOnError
    stageName outputs failedStage w :
  match turn host env now workflow isResume workflowState stopOnError
          stageName outputs failedStage w with
  | Crash w' => w' = w
  | Continue outputs' failedStage' w' =>
      quiet_since w w' ∧
      (store_terminal (store w) → store_terminal (store w')) ∧
      (state_terminal workflowState →
       terminal_outputs outputs → terminal_outputs outputs') ∧
      (isResume = false → no_transcript outputs → no_transcript outputs') ∧
      (∀ n, n ≠ stageName → outputs' !! n = outputs !! n) ∧
      (stopOnError = true → failedStage' = failedStage)
  | Break outputs' failedStage' w' =>
      quiet_since w w' ∧
      (store_terminal (store w) → store_terminal (store w')) ∧
      (state_terminal workflowState →
       terminal_outputs outputs → terminal_outputs outputs') ∧
      (isResume = false → no_transcript outputs → no_transcript outputs') ∧
      (∀ n, n ≠ stageName → outputs' !! n = outputs !! n) ∧
      failedStage' = Some stageName
  end.
Proof.
  unfold turn.
  destruct (List.find _ _) as [stage|]; [|done].
  destruct (already_complete isResume workflowState stageName) as [st|] eqn:Hac.
  { unfold already_complete in Hac. destruct workflowState as [st'|]; [|done].
    destruct (isResume && _) eqn:Hres; [|done]. injection Hac as ->.
    apply andb_true_iff in Hres as [-> _].
    split; [by apply quiet_since_emit|]. split; [done|]. split.
    { intros Hws Ho. apply terminal_outputs_insert; [done|].
      destruct (Persistence.stageOutputs st !! stageName) as [r|] eqn:Hr; [|done].
      cbn. by apply (Hws st eq_refl stageName). }
    split; [done|]. split; [|done].
    intros n Hn. by rewrite lookup_insert_ne. }
  destruct (List.filter _ _) as [|dep unmet].
  - destruct (schedule_stage _ _ _ _ _ _ _ _) as [[r threw] w'] eqn:Hsched.
    apply schedule_stage_spec in Hsched as (Hp & Hσ & Htr & new & Hlog & Hre & Hcount).
    assert (quiet_since w w') as Hq by (split; [done|by exists new]).
    assert (sr_status r ≠ pending) as Hstatus.
    { destruct threw; destruct Hcount as (-> & _); done. }
    destruct threw; [destruct stopOnError|];
      (split; [done|]); (split; [done|]);
      (split; [intros _ Ho; by apply terminal_outputs_insert|]);
      (split; [intros _ Ho; by apply no_transcript_insert|]);
      (split; [intros n Hn; by rewrite lookup_insert_ne|]); done.
  - split; [by apply quiet_since_emit|]. split; [done|].
    split; [intros _ Ho; by apply terminal_outputs_insert|].
    split; [intros _ Ho; by apply no_transcript_insert|].
    split; [intros n Hn; by rewrite lookup_insert_ne|]. done.
Qed.

(** *** The loop over the execution order *)

Lemma run_stages_spec host env now workflow isResume workflowState stopOnError
    order :
  ∀ outputs failedStage w res w',
    run_stages host env now workflow isResume workflowState stopOnError order
      outputs failedStage w = (res, w') →
    quiet_since w w' ∧
    (store_terminal (store w) → store_terminal (store w')) ∧
    ∀ outputs' failedStage', res = Some (outputs', failedStage') →
      (state_terminal workflowState →
       terminal_outputs outputs → terminal_outputs outputs') ∧
      (isResume = false → no_transcript outputs → no_transcript outputs') ∧
      (stopOnError = true → failedStage = None →
       ∀ F, failedStage' = Some F →
         ∃ pre post, order = pre ++ F :: post ∧
           ∀ n, n ∉ pre ++ [F] → outputs' !! n = outputs !! n).
Proof.
  induction order as [|stageName rest IH];
    intros outputs failedStage w res w' Hrun.
  - cbn in Hrun. injection Hrun as <- <-.
    split; [apply quiet_since_refl|]. split; [done|].
    intros outputs' failedStage' [= <- <-]. split; [done|]. split; [done|].
    intros _ -> F HF. done.
  - cbn [run_stages] in Hrun.
    pose proof (turn_spec host env now workflow isResume workflowState
                  stopOnError stageName outputs failedStage w) as Hturn.
    destruct (turn _ _ _ _ _ _ _ _ _ _ _) as [o f w1|o f w1|w1].
    + destruct Hturn as (Hq & Hσ & Hterm & Hnt & Hother & Hfailed).
      apply IH in Hrun as (Hq' & Hσ' & Hres).
      split; [by eapply quiet_since_trans|]. split; [by auto|].
      intros outputs' failedStage' Heq.
      destruct (Hres _ _ Heq) as (Hterm' & Hnt' & Hstop).
      split; [by auto|]. split; [by auto|].
      intros Hs Hnone F HF. rewrite (Hfailed Hs) in Hstop.
      destruct (Hstop Hs Hnone F HF) as (pre & post & -> & Hkeep).
      exists (stageName :: pre), post. split; [done|].
      intros n Hn. rewrite Hkeep.
      * apply Hother. intros ->. apply Hn. by left.
      * intros Hin. apply Hn. by right.
    + destruct Hturn as (Hq & Hσ & Hterm & Hnt & Hother & Hfailed).
      injection Hrun as <- <-.
      split; [done|]. split; [done|].
      intros outputs' failedStage' [= <- <-].
      split; [done|]. split; [done|].
      intros _ _ F HF. rewrite Hfailed in HF. injection HF as <-.
      exists [], rest. split; [done|].
      intros n Hn. apply Hother. intros ->. apply Hn. by left.
    + injection Hrun as <- <-. subst w1.
      split; [apply quiet_since_refl|]. split; [done|]. done.
Qed.

(** *** The start of a pass *)

Lemma fresh_pass_spec host pe workflow order cur mx context w
    workflowState isResume context' w1 :
  fresh_pass host pe workflow order cur mx context w
    = (workflowState, isResume, context', w1) →
  quiet_since w w1 ∧
  (store_terminal (store w) →
   store_terminal (store w1) ∧ state_terminal workflowState) ∧
  isResume = false.
Proof.
  unfold fresh_pass. destruct (persistence (modules host)); intros [= <- <- <- <-].
  - split; [apply quiet_since_with_store|]. split; [|done].
    intros Hσ. split.
    + apply store_terminal_save; [done|]. intros n r Hr. cbn in Hr.
      by rewrite lookup_empty in Hr.
    + intros st [= <-] n r Hr. cbn in Hr. by rewrite lookup_empty in Hr.
  - split; [apply quiet_since_refl|]. split; [|done].
    intros Hσ. split; [done|]. by intros st.
Qed.

Lemma begin_pass_spec host pe workflow order cur mx context w
    workflowState isResume context' w1 :
  begin_pass host pe workflow order cur mx context w
    = inr (workflowState, isResume, context', w1) →
  quiet_since w w1 ∧
  (store_terminal (store w) →
   store_terminal (store w1) ∧ state_terminal workflowState) ∧
  (persistence (modules host) = false → isResume = false).
Proof.
  unfold begin_pass.
  assert (Hfresh :
    fresh_pass host pe workflow order cur mx context w
      = (workflowState, isResume, context', w1) →
    quiet_since w w1 ∧
    (store_terminal (store w) →
     store_terminal (store w1) ∧ state_terminal workflowState) ∧
    (persistence (modules host) = false → isResume = false)).
  { intros H. apply fresh_pass_spec in H as (? & ? & ->). done. }
  destruct (persistence (modules host)) eqn:Hper.
  - destruct (nonempty (ctx_workflowId context)) as [id|].
    + destruct (Persistence.resumeWorkflow _ _ _) as [message|[data σ]] eqn:Hres.
      * destruct (ctx_requireResume context) as [[|]|]; try done.
        intros [= H]. by apply Hfresh.
      * intros [= <- <- <- <-]. split; [apply quiet_since_with_store|].
        split; [|done]. intros Hσ.
        destruct (store_terminal_resume _ _ _ _ _ Hσ Hres) as [Hσ' Hdata].
        split; [done|]. by intros st [= <-].
    + intros [= H]. by apply Hfresh.
  - intros [= H]. by apply Hfresh.
Qed.

(** A result without a [transcript] property is never searched for gaps. *)
Lemma checkCriticalGaps_no_transcript rt fs (outputs : gmap string StageResult)
    (lastStage : option string) :
  no_transcript outputs →
  hasCriticalGaps
    (checkCriticalGaps rt fs (lastStage ≫= (λ n, outputs !! n))) = false.
Proof.
  intros Hnt. destruct lastStage as [n|]; [|done]. cbn.
  destruct (outputs !! n) as [r|] eqn:Hr; [|done]. cbn.
  by rewrite (Hnt n r Hr).
Qed.

Lemma no_transcript_empty : no_transcript ∅.
Proof. intros n r Hr. by rewrite lookup_empty in Hr. Qed.

Lemma terminal_outputs_empty : terminal_outputs ∅.
Proof. intros n r Hr. by rewrite lookup_empty in Hr. Qed.

(** In an order without repetition, what stands after [F] is in the part
    of the order that follows [F]. *)
Lemma before_in_post pre F post D :
  NoDup (pre ++ F :: post) → before (pre ++ F :: post) F D → D ∈ post.
Proof.
  intros Hnd (i & j & Hi & Hj & Hlt).
  assert (i = length pre) as ->.
  { eapply NoDup_lookup; [done..|]. by rewrite list_lookup_middle. }
  rewrite lookup_app_r in Hj by lia.
  destruct (j - length pre) as [|k] eqn:Hk; [lia|]. cbn in Hj.
  by eapply list_elem_of_lookup_2.
Qed.

Lemma halted_at_intro stages order outputs F pre post :
  order ≡ₚ stageNames stages → NoDup order → topo stages order →
  order = pre ++ F :: post →
  (∀ n, n ∉ pre ++ [F] → outputs !! n = (∅ : gmap string StageResult) !! n) →
  ∀ r, r_executionOrder r = order → r_stages r = outputs →
  halted_at stages r F.
Proof.
  intros Hperm Hnd Htopo -> Hkeep r Hro Hrs.
  assert (Hpost : ∀ n, n ∈ post → r_stages r !! n = None).
  { intros n Hn. rewrite Hrs, Hkeep; [apply lookup_empty|].
    apply NoDup_app in Hnd as (_ & Hdisj & Hnd).
    apply NoDup_cons in Hnd as [HF _].
    intros [Hin|Hin%list_elem_of_singleton]%elem_of_app; [|by subst].
    apply (Hdisj n Hin). by right. }
  split; [by exists pre, post|].
  intros D HD. unfold is_complete.
  rewrite Hpost; [done|]. apply (before_in_post pre F); [done|].
  apply (topo_reaches stages); [done..| |done].
  rewrite Hperm.
  assert (∃ d, depends_on stages D d) as (d & s & Hs & <- & _)
    by (inversion HD; subst; by eexists).
  apply list_elem_of_In, in_map, list_elem_of_In, Hs.
Qed.

(** *** One pass of [executeWorkflow] *)

Lemma run_pass_spec host env workflow context w :
  let cur := default 0 (ctx_iteration context) in
  let mx := effective_maxIterations workflow in
  match run_pass host env workflow context w with
  | Done outcome w' =>
      (∃ new, log w' = log w ++ new ∧ restarts new = 0) ∧
      (store_terminal (store w) → store_terminal (store w')) ∧
      outcome ≠ OutOfBudget ∧
      ∀ r, outcome = Returned r →
        it_current (r_iteration r) = cur ∧
        it_max (r_iteration r) = mx ∧
        (it_status (r_iteration r) = reached_max → mx ≤ cur) ∧
        it_status (r_iteration r) ≠ restart_detected ∧
        (store_terminal (store w) → terminal_outputs (r_stages r)) ∧
        (stopOnError workflow ≠ Some false →
         ∀ F, r_failedStage r = Some F → halted_at (stages workflow) r F)
  | Recurse context' w' =>
      (∃ new, log w' = log w ++ new ∧ restarts new = 1) ∧
      (store_terminal (store w) → store_terminal (store w')) ∧
      ctx_iteration context' = Some (cur + 1) ∧
      cur < mx ∧
      persistence (modules host) = true
  end.
Proof.
  intros cur mx. unfold run_pass.
  assert (Hnone : ∃ new, log w = log w ++ new ∧ restarts new = 0)
    by (exists []; by rewrite app_nil_r).
  destruct (validateWorkflow workflow) as [|v vs] eqn:Hval; [|done].
  destruct (validateWorkflow_sound workflow Hval) as [Hnd Hres].
  destruct (topologicalSort (stages workflow)) as [e|order] eqn:Hsort; [done|].
  destruct (topologicalSort_inr _ _ Hnd Hres Hsort) as (Hperm & Hndo & Htopo).
  destruct (begin_pass _ _ _ _ _ _ _ _)
    as [message|[[[workflowState isResume] context'] w1]] eqn:Hbegin; [done|].
  apply begin_pass_spec in Hbegin as ([_ Hlog1] & Hσ1 & Hfresh).
  cbn [count_pass log store] in Hlog1, Hσ1.
  destruct (resourceManager (modules host) && _).
  { split; [done|]. split; [by intros [? _]%Hσ1|]. done. }
  destruct (run_stages _ _ _ _ _ _ _ _ _ _ _)
    as [[[outputs failedStage]|] w2] eqn:Hrun;
    apply run_stages_spec in Hrun as ([_ Hlog2] & Hσ2 & Hout).
  2:{ cbn [emit log store] in Hlog2, Hσ2.
      destruct Hlog1 as (n1 & Hl1 & Hr1), Hlog2 as (n2 & Hl2 & Hr2).
      split; [|split; [by intros [? _]%Hσ1; auto|done]].
      exists (n1 ++ WorkflowStarted cur :: n2).
      rewrite Hl2, Hl1, <- !app_assoc. split; [done|].
      rewrite restarts_app. unfold restarts in *. cbn. lia. }
  cbn [emit log store] in Hlog2, Hσ2.
  destruct (Hout _ _ eq_refl) as (Hterm & Hnt & Hstop).
  assert (Hlog : ∃ new, log w2 = log w ++ new ∧ restarts new = 0).
  { destruct Hlog1 as (n1 & Hl1 & Hr1), Hlog2 as (n2 & Hl2 & Hr2).
    exists (n1 ++ WorkflowStarted cur :: n2).
    rewrite Hl2, Hl1, <- !app_assoc. split; [done|].
    rewrite restarts_app. unfold restarts in *. cbn. lia. }
  set (success := is_none failedStage && negb (some_failed outputs)).
  assert (Hfinish : ∀ status,
    status ≠ restart_detected → (status = reached_max → mx ≤ cur) →
    (∃ new,
       log (mark_completed host (pe_now (passEnv env (passes w))) workflowState
              success w2) = log w ++ new ∧ restarts new = 0) ∧
    (store_terminal (store w) →
     store_terminal
       (store (mark_completed host (pe_now (passEnv env (passes w)))
                 workflowState success w2))) ∧
    (store_terminal (store w) → terminal_outputs outputs) ∧
    (stopOnError workflow ≠ Some false →
     ∀ F, failedStage = Some F →
       ∃ pre post, order = pre ++ F :: post ∧
         ∀ n, n ∉ pre ++ [F] →
              outputs !! n = (∅ : gmap string StageResult) !! n)).
  { intros status _ _. split; [|split; [|split]].
    - unfold mark_completed. destruct workflowState; [|done].
      by destruct (persistence (modules host) && success).
    - intros [Hσ' _]%Hσ1. specialize (Hσ2 Hσ').
      unfold mark_completed. destruct workflowState; [|done].
      destruct (persistence (modules host) && success); [|done].
      by apply store_terminal_completed.
    - intros [_ Hws]%Hσ1. apply Hterm; [done|apply terminal_outputs_empty].
    - intros Hs F HF. apply Hstop; [|done..].
      destruct (stopOnError workflow) as [[|]|]; done. }
  assert (Hdone : ∀ status,
    status ≠ restart_detected → (status = reached_max → mx ≤ cur) →
    ∀ r,
      Returned
        {| r_success := success;
           r_workflow := wf_name workflow;
           r_workflowId := Persistence.workflowId <$> workflowState;
           r_stages := outputs;
           r_failedStage := failedStage;
           r_executionOrder := order;
           r_iteration :=
             {| it_current := cur; it_max := mx;
                it_enabled := default true (iterationEnabled workflow);
                it_status := status;
                it_previousIterations :=
                  default [] (ctx_previousIterations context') |} |}
      = Returned r →
      it_current (r_iteration r) = cur ∧
      it_max (r_iteration r) = mx ∧
      (it_status (r_iteration r) = reached_max → mx ≤ cur) ∧
      it_status (r_iteration r) ≠ restart_detected ∧
      (store_terminal (store w) → terminal_outputs (r_stages r)) ∧
      (stopOnError workflow ≠ Some false →
       ∀ F, r_failedStage r = Some F → halted_at (stages workflow) r F)).
  { intros status Hs1 Hs2 r [= <-]. cbn.
    destruct (Hfinish status Hs1 Hs2) as (_ & _ & Ht & Hh).
    do 5 (split; [done|]). intros Hstop' F HF.
    destruct (Hh Hstop' F HF) as (pre & post & Horder & Hkeep).
    by eapply (halted_at_intro (stages workflow) order outputs F pre post). }
  subst cur mx.
  destruct (success && default true (iterationEnabled workflow)).
  - destruct (Nat.ltb_spec (default 0 (ctx_iteration context))
                (effective_maxIterations workflow)) as [Hlt|Hge].
    + destruct (hasCriticalGaps _) eqn:Hgaps.
      * split.
        { destruct Hlog as (new & Hl & Hr).
          exists (new ++ [IterationRestart (default 0 (ctx_iteration context))]).
          cbn. rewrite Hl, <- app_assoc. split; [done|].
          rewrite restarts_app. unfold restarts in *. cbn. lia. }
        split; [by intros [? _]%Hσ1; auto|]. split; [done|]. split; [done|].
        destruct (persistence (modules host)) eqn:Hper; [done|]. exfalso.
        rewrite checkCriticalGaps_no_transcript in Hgaps; [done|].
        apply Hnt; [by apply Hfresh | apply no_transcript_empty].
      * destruct (Hfinish no_gaps) as (? & ? & _); [done..|].
        split; [done|]. split; [done|]. split; [done|]. by apply Hdone.
    + destruct (Hfinish reached_max) as (? & ? & _); [done..|].
      split; [done|]. split; [done|]. split; [done|]. by apply Hdone.
  - destruct (Hfinish not_enabled) as (? & ? & _); [done..|].
    split; [done|]. split; [done|]. split; [done|]. by apply Hdone.
Qed.

(** *** [executeWorkflow] and its restarts *)

Lemma executeWorkflow_rec_spec host env workflow budget :
  ∀ context w,
    let cur := default 0 (ctx_iteration context) in
    let mx := effective_maxIterations workflow in
    let run := executeWorkflow_rec budget host env workflow context w in
    (∃ new, log run.2 = log w ++ new ∧
       restarts new ≤ mx - cur ∧
       (mx - cur < budget → run.1 ≠ OutOfBudget) ∧
       (persistence (modules host) = false → restarts new = 0) ∧
       ∀ r, run.1 = Returned r →
         it_current (r_iteration r) = cur + restarts new ∧
         it_max (r_iteration r) = mx ∧
         (it_status (r_iteration r) = reached_max →
          mx ≤ it_current (r_iteration r)) ∧
         it_status (r_iteration r) ≠ restart_detected ∧
         (stopOnError workflow ≠ Some false →
          ∀ F, r_failedStage r = Some F → halted_at (stages workflow) r F)) ∧
    (store_terminal (store w) →
     store_terminal (store run.2) ∧
     ∀ r, run.1 = Returned r → terminal_outputs (r_stages r)).
Proof.
  induction budget as [|budget IH]; intros context w cur mx run;
    subst cur mx run.
  - cbn. split; [|done]. exists []. rewrite app_nil_r.
    split; [done|]. split; [cbn; lia|]. split; [lia|]. done.
  - cbn [executeWorkflow_rec].
    pose proof (run_pass_spec host env workflow context w) as Hpass.
    cbv zeta in Hpass.
    destruct (run_pass host env workflow context w) as [outcome w'|context' w'].
    + destruct Hpass as ((new & Hlog & Hre) & Hσ & Hbudget & Hret). cbn [fst snd].
      split.
      * exists new. split; [done|]. split; [lia|]. split; [done|]. split; [done|].
        intros r Hr. destruct (Hret r Hr) as (Hc & Hm & Hrm & Hnr & _ & Hh).
        rewrite Hre, Nat.add_0_r.
        split; [done|]. split; [done|]. split; [|done]. rewrite Hc. done.
      * intros Hterm. split; [by apply Hσ|].
        intros r Hr. by apply (Hret r Hr).
    + destruct Hpass as ((n1 & Hlog1 & Hre1) & Hσ & Hiter & Hlt & Hper).
      specialize (IH context' w'). cbv zeta in IH. rewrite Hiter in IH.
      change (default 0 (Some (default 0 (ctx_iteration context) + 1)))
        with (default 0 (ctx_iteration context) + 1) in IH.
      destruct IH as ((n2 & Hlog2 & Hre2 & Hbud & _ & Hret) & Hterm).
      split.
      * exists (n1 ++ n2). rewrite Hlog2, Hlog1, app_assoc, restarts_app.
        split; [done|]. split; [lia|]. split; [intros ?; apply Hbud; lia|].
        split; [congruence|].
        intros r Hr. destruct (Hret r Hr) as (Hc & ? & ? & ? & ?).
        split; [lia|]. done.
      * intros Hs. by apply Hterm, Hσ.
Qed.

(** What [executeWorkflow_rec_spec] says of a call of [executeWorkflow]. *)
Tactic Notation "executeWorkflow_spec" constr(host) constr(env)
    constr(workflow) constr(context) constr(w)
    "as" simple_intropattern(pat) :=
  unfold executeWorkflow in *;
  destruct (executeWorkflow_rec_spec host env workflow
              (S (effective_maxIterations workflow)) context w) as pat.

(** [executeWorkflow] always finishes within its budget. *)
Lemma executeWorkflow_finishes host env workflow context w :
  (executeWorkflow host env workflow context w).1 ≠ OutOfBudget.
Proof.
  executeWorkflow_spec host env workflow context w
    as ((new & _ & _ & Hbud & _) & _).
  apply Hbud. lia.
Qed.

(** The iteration controller restarts the scheduler at most
    [workflow.maxIterations || 3] times; the returned [iteration.current] is
    the starting iteration plus the number of restarts, and when the status
    is reached-max it is at least that bound. *)
Lemma restarts_bounded_and_counted (host : Host) (env : Environment)
    (workflow : Workflow) (context : Context) (w : World) :
  let run := executeWorkflow host env workflow context w in
  let mx := effective_maxIterations workflow in
  run.1 ≠ OutOfBudget ∧
  ∃ new, log run.2 = log w ++ new ∧
    restarts new ≤ mx ∧
    ∀ r, run.1 = Returned r →
      it_max (r_iteration r) = mx ∧
      it_current (r_iteration r)
        = default 0 (ctx_iteration context) + restarts new ∧
      (it_status (r_iteration r) = reached_max →
       mx ≤ it_current (r_iteration r)).
Proof.
  intros run mx. split; [apply executeWorkflow_finishes|]. subst run.
  executeWorkflow_spec host env workflow context w
    as ((new & Hlog & Hre & _ & _ & Hret) & _).
  exists new. split; [done|]. split; [subst mx; lia|].
  intros r Hr. destruct (Hret r Hr) as (? & ? & ? & _). done.
Qed.

(** C2, at the failing inputs, without any module loaded and with agents
    that answer with valid evidence. The claim and the test plan (TC-1.1.3)
    have the iterations exhausted at [iteration.current = maxIterations - 1]:
    with maxIterations 3, the pass at iteration 2 is the last and reports
    reached-max. The code tests [currentIteration < maxIterations]: the pass
    at iteration 2 still looks for gaps and reports no-gaps, and reached-max
    is only reported by a pass at iteration 3, a fourth one. And
    [maxIterations: 0] counts as 3 ([workflow.maxIterations || 3]): the pass
    at iteration 0 looks for gaps and reports no-gaps with [iteration.max]
    3, where no restart is allowed (TC-1.4.5). *)
Theorem reached_max_is_reported_one_pass_late :
  let report context workflow :=
    (λ r, (it_current (r_iteration r), it_max (r_iteration r),
           it_status (r_iteration r)))
      <$> returned
            (executeWorkflow (Scenario.host Scenario.no_modules)
               Scenario.cooperative workflow context Scenario.start).1 in
  let chain := Scenario.simple_workflow Scenario.chain in
  effective_maxIterations chain = 3 ∧
  report (Scenario.with_iteration 2) chain = Some (2, 3, no_gaps) ∧
  report (Scenario.with_iteration 3) chain = Some (3, 3, reached_max) ∧
  maxIterations Examples.no_iterations = Some 0 ∧
  effective_maxIterations Examples.no_iterations = 3 ∧
  report empty_context Examples.no_iterations = Some (0, 3, no_gaps).
Proof. cbn zeta. split_and!; by vm_compute. Qed.

(** What the controller does once a restart happens, in surroundings that
    the loader of queue.js does not produce (the persistence module without
    a failing resource manager): a resumed workflow whose persisted last
    result has a transcript and the open HIGH gap restarts three times,
    without calling the spawner, and reports reached-max at iteration 3 with
    three records in its history. *)
Lemma exhaustion_after_three_restarts :
  let run :=
    executeWorkflow (Scenario.host Scenario.all_modules) Scenario.cooperative
      (Scenario.simple_workflow Scenario.gap_analysis) Scenario.resuming
      Scenario.resumable in
  restarts (log run.2) = 3 ∧
  calls run.2 = 0 ∧
  (λ r, (it_current (r_iteration r), it_max (r_iteration r),
         it_status (r_iteration r),
         length (it_previousIterations (r_iteration r)))) <$> returned run.1
    = Some (3, 3, reached_max, 3).
Proof. vm_compute. repeat split; reflexivity. Qed.

(** C10: every stage result in the aggregate that [executeWorkflow]
    returns is complete, failed or skipped, never pending, provided the
    stage results already in the state store are (they are: the store only
    receives results through [updateStageCompletion], and [executeWorkflow]
    keeps it so). *)
Theorem returned_stages_are_terminal (host : Host) (env : Environment)
    (workflow : Workflow) (context : Context) (w : World)
    (r : WorkflowResult) (n : string) (res : StageResult) :
  store_terminal (store w) →
  (executeWorkflow host env workflow context w).1 = Returned r →
  r_stages r !! n = Some res →
  sr_status res = complete ∨ sr_status res = failed ∨ sr_status res = skipped.
Proof.
  intros Hσ Hrun Hres.
  executeWorkflow_spec host env workflow context w
    as (_ & Hterm).
  destruct (Hterm Hσ) as (_ & Hout).
  specialize (Hout r Hrun n res Hres).
  destruct (sr_status res); auto. done.
Qed.

(** [executeWorkflow] keeps the results in the state store terminal. *)
Lemma executeWorkflow_keeps_store_terminal host env workflow context w :
  store_terminal (store w) →
  store_terminal (store (executeWorkflow host env workflow context w).2).
Proof.
  intros Hσ.
  executeWorkflow_spec host env workflow context w
    as (_ & Hterm).
  by apply Hterm.
Qed.

Lemma store_terminal_empty : store_terminal ∅.
Proof. intros id st Hst. by rewrite lookup_empty in Hst. Qed.

(** C8: with stopOnError (the default), the first stage failure halts the
    pass: the stages that follow the failed stage in the execution order
    get no result, and no stage that depends on the failed stage, directly
    or transitively, is complete. *)
Theorem first_failure_halts (host : Host) (env : Environment)
    (workflow : Workflow) (context : Context) (w : World)
    (r : WorkflowResult) (F : string) :
  stopOnError workflow ≠ Some false →
  (executeWorkflow host env workflow context w).1 = Returned r →
  r_failedStage r = Some F →
  halted_at (stages workflow) r F.
Proof.
  intros Hstop Hrun HF.
  executeWorkflow_spec host env workflow context w
    as ((new & _ & _ & _ & _ & Hret) & _).
  destruct (Hret r Hrun) as (_ & _ & _ & _ & Hh). by apply Hh.
Qed.

Lemma returned_stages_are_terminal_witness :
  ∃ r res,
    (executeWorkflow (Scenario.host Scenario.all_modules) Scenario.cooperative
       (Scenario.simple_workflow Scenario.chain) empty_context Scenario.start).1
      = Returned r ∧
    r_stages r !! "C" = Some res ∧
    (sr_status res = complete ∨ sr_status res = failed ∨ sr_status res = skipped).
Proof.
  destruct (executeWorkflow (Scenario.host Scenario.all_modules)
              Scenario.cooperative (Scenario.simple_workflow Scenario.chain)
              empty_context Scenario.start).1 as [r|message|] eqn:Hrun;
    [|vm_compute in Hrun; discriminate Hrun..].
  destruct (r_stages r !! "C") as [res|] eqn:Hres.
  - exists r, res. split; [done|]. split; [done|].
    exact (returned_stages_are_terminal _ _ _ _ Scenario.start r "C" res
             store_terminal_empty Hrun Hres).
  - exfalso. vm_compute in Hrun. injection Hrun as <-.
    vm_compute in Hres. discriminate Hres.
Defined.

Lemma first_failure_halts_witness :
  ∃ r,
    (executeWorkflow (Scenario.host Scenario.no_modules) Scenario.hostile
       (Scenario.simple_workflow Scenario.chain) empty_context Scenario.start).1
      = Returned r ∧
    halted_at Scenario.chain r "A".
Proof.
  destruct (executeWorkflow (Scenario.host Scenario.no_modules)
              Scenario.hostile (Scenario.simple_workflow Scenario.chain)
              empty_context Scenario.start).1 as [r|message|] eqn:Hrun;
    [|vm_compute in Hrun; discriminate Hrun..].
  exists r. split; [done|].
  apply (first_failure_halts _ _ (Scenario.simple_workflow Scenario.chain)
           _ _ r "A" ltac:(discriminate) Hrun).
  vm_compute in Hrun. by injection Hrun as <-.
Defined.

(** A run without the persistence module never restarts: every result
    comes from the executor or the scheduler, none has a [transcript]
    property, and [checkCriticalGaps] answers [false] before it looks at
    the evidence. *)
Lemma fresh_run_never_restarts host env workflow context w :
  persistence (modules host) = false →
  ∃ new,
    log (executeWorkflow host env workflow context w).2 = log w ++ new ∧
    restarts new = 0.
Proof.
  intros Hper.
  executeWorkflow_spec host env workflow context w
    as ((new & Hlog & _ & _ & Hre & _) & _).
  exists new. auto.
Qed.

(** C1, at the failing input: the last stage succeeds with evidence whose
    file holds one open HIGH gap, iteration is enabled, the iteration is 0
    and maxIterations 3. Looking into the evidence finds the critical gap,
    yet [executeWorkflow] reports no-gaps at iteration 0 with an empty
    history, after a single call of the spawner and no restart. *)
Theorem open_high_gap_is_not_detected :
  let run :=
    executeWorkflow (Scenario.host Scenario.all_modules) Scenario.cooperative
      (Scenario.simple_workflow Scenario.gap_analysis) empty_context
      Scenario.start in
  gaps_in_evidence Scenario.rt Scenario.files Scenario.evidence_json
    = Found [JObj [("priority", JStr "HIGH"); ("status", JStr "open")]] ∧
  sr_evidence <$> (returned run.1 ≫= λ r, r_stages r !! "gap-analysis")
    = Some (Some Scenario.evidence_json) ∧
  r_iteration <$> returned run.1
    = Some {| it_current := 0; it_max := 3; it_enabled := true;
              it_status := no_gaps; it_previousIterations := [] |} ∧
  calls run.2 = 1 ∧
  restarts (log run.2) = 0.
Proof. vm_compute. repeat split; reflexivity. Qed.

(** C5, at the failing input: the workflow of the single stage [__proto__],
    without dependencies, passes the validation and its graph is acyclic;
    the claim promises the order of its one stage. The sorter throws the
    circular-dependency error that names the stage, and [executeWorkflow]
    throws it without running the stage: [indegree.__proto__ = 0] sets no
    property, so the stage never has indegree 0. *)
Theorem proto_stage_is_reported_circular :
  let stages := [Scenario.simple_stage "__proto__" []] in
  let run :=
    executeWorkflow (Scenario.host Scenario.no_modules) Scenario.cooperative
      (Scenario.simple_workflow stages) empty_context Scenario.start in
  validateWorkflow (Scenario.simple_workflow stages) = [] ∧
  acyclic stages ∧
  topologicalSort stages = inl (CircularInvolving ["__proto__"]) ∧
  run.1 = Threw "Circular dependency detected involving: __proto__" ∧
  calls run.2 = 0.
Proof.
  cbn zeta. split; [reflexivity|]. split.
  - apply (ranked_acyclic _ (λ _, 0)).
    intros n d (s & Hs & _ & Hd).
    apply list_elem_of_singleton in Hs as ->. by apply elem_of_nil in Hd.
  - split; [reflexivity|]. split; by vm_compute.
Qed.

(** C6: on every stage graph with a dependency cycle the sorter throws the
    circular-dependency error, whose list names every stage on a cycle,
    and returns no order; [executeWorkflow] throws before any stage runs:
    the world, and with it the count of spawner calls and the log, is
    unchanged. The error it throws is the circular-dependency error as soon
    as the definition passes validation. *)
Theorem cycle_fails_before_any_stage (workflow : Workflow) (n : string) :
  NoDup (stageNames (stages workflow)) → resolved (stages workflow) →
  on_cycle (stages workflow) n →
  ∃ remaining,
    topologicalSort (stages workflow) = inl (CircularInvolving remaining) ∧
    n ∈ remaining ∧
    ∀ host env context w,
      ∃ message,
        executeWorkflow host env workflow context w = (Threw message, w) ∧
        (validateWorkflow workflow = [] →
         message = sort_error_message (CircularInvolving remaining)).
Proof.
  intros Hnd Hres Hcyc.
  destruct (topologicalSort_cyclic (stages workflow) n Hnd Hres Hcyc)
    as (remaining & Hsort & Hall).
  exists remaining. split; [done|]. split; [by apply Hall|].
  intros host env context w. unfold executeWorkflow.
  cbn [executeWorkflow_rec]. unfold run_pass. rewrite Hsort.
  destruct (validateWorkflow workflow) as [|v vs]; eexists; split; done.
Qed.

Lemma cycle_fails_before_any_stage_witness :
  ∃ remaining,
    topologicalSort Scenario.loop = inl (CircularInvolving remaining) ∧
    "X" ∈ remaining ∧
    ∀ host env context w,
      ∃ message,
        executeWorkflow host env (Scenario.simple_workflow Scenario.loop)
          context w = (Threw message, w) ∧
        (validateWorkflow (Scenario.simple_workflow Scenario.loop) = [] →
         message = sort_error_message (CircularInvolving remaining)).
Proof.
  destruct (validateWorkflow_sound (Scenario.simple_workflow Scenario.loop) eq_refl)
    as [Hnd Hres].
  apply (cycle_fails_before_any_stage (Scenario.simple_workflow Scenario.loop) "X"
           Hnd Hres).
  eapply tc_l; [|apply tc_once].
  - exists (Scenario.simple_stage "X" ["Y"]).
    split; [by left|]. split; [done|]. by left.
  - exists (Scenario.simple_stage "Y" ["X"]).
    split; [right; by left|]. split; [done|]. by left.
Defined.

(** C4, amended: a complete result counts its tries, one more than the
    failed attempts, at most maxRetries + 1; a failed result of a stage
    whose attempts were all used up (maxRetries + 1 failures) carries that
    number, which is min(failures, maxRetries + 1). *)
Theorem attempts_count_the_tries (host : Host) (env : Environment) (now : Z)
    (workflow : Workflow) (workflowState : option Persistence.WorkflowState)
    (stage : Stage) (stageOutputs : gmap string StageResult) (w : World) :
  let run :=
    schedule_stage host env now workflow workflowState stage stageOutputs w in
  let r := run.1.1 in
  let maxRetries := effective_retries stage workflow in
  ∃ new, log run.2 = log w ++ new ∧
    let failures := failures_encountered (name stage) new in
    (sr_status r = complete ∨ sr_status r = failed) ∧
    (sr_status r = complete →
     result_attempts r = Some (failures + 1) ∧ failures ≤ maxRetries) ∧
    (sr_status r = failed →
     failures ≤ maxRetries + 1 ∧
     (failures = maxRetries + 1 →
      result_attempts r = Some (failures `min` (maxRetries + 1)))).
Proof.
  intros run r maxRetries. subst run r maxRetries.
  destruct (schedule_stage _ _ _ _ _ _ _ _) as [[r threw] w'] eqn:Hrun.
  apply schedule_stage_spec in Hrun as (_ & _ & _ & new & Hlog & _ & Hcount).
  exists new. split; [done|]. cbn [fst snd]. cbv zeta in Hcount.
  destruct threw.
  - destruct Hcount as (Hst & Hatt & Hle). rewrite Hst.
    split; [by right|]. split; [done|]. intros _. split; [done|].
    intros Heq. rewrite Hatt. f_equal. lia.
  - destruct Hcount as (Hst & Hatt & Hle). rewrite Hst.
    split; [by left|]. split; [done|]. done.
Qed.

Lemma attempts_count_the_tries_witness :
  let run :=
    schedule_stage (Scenario.host Scenario.no_modules) Scenario.hostile 9000
      (Scenario.simple_workflow [Scenario.build]) None Scenario.build ∅
      Scenario.start in
  ∃ new, log run.2 = log Scenario.start ++ new ∧
    let failures := failures_encountered "build" new in
    (sr_status run.1.1 = complete ∨ sr_status run.1.1 = failed) ∧
    (sr_status run.1.1 = complete →
     result_attempts run.1.1 = Some (failures + 1) ∧ failures ≤ 1) ∧
    (sr_status run.1.1 = failed →
     failures ≤ 1 + 1 ∧
     (failures = 1 + 1 → result_attempts run.1.1 = Some (failures `min` (1 + 1)))).
Proof.
  exact (attempts_count_the_tries (Scenario.host Scenario.no_modules)
           Scenario.hostile 9000 (Scenario.simple_workflow [Scenario.build])
           None Scenario.build ∅ Scenario.start).
Defined.

(** C4 as stated fails: a stage that succeeds at its first attempt has
    complete status and attempts 1, with no failure encountered:
    min(0, maxRetries + 1) is 0. *)
Lemma first_try_counts_one :
  let stage := Scenario.simple_stage "A" [] in
  let workflow := Scenario.simple_workflow Scenario.chain in
  let run :=
    schedule_stage (Scenario.host Scenario.no_modules) Scenario.cooperative 9000
      workflow None stage ∅ Scenario.start in
  sr_status run.1.1 = complete ∧
  failures_encountered "A" (log run.2) = 0 ∧
  result_attempts run.1.1 = Some 1 ∧
  result_attempts run.1.1
    ≠ Some (failures_encountered "A" (log run.2)
            `min` (effective_retries stage workflow + 1)).
Proof. vm_compute. repeat split; done. Qed.

End SchedulerFacts.

(** ** The resource manager *)

Module ResourceFacts.
Import Text Data Evidence Queue Executor Scheduler ResourceManager Deployment.

(** Induction on a directory tree. *)
Lemma Node_induction (P : Node → Prop) :
  (∀ n, P (File n)) →
  (∀ n, P (Special n)) →
  (∀ n, P (Folder n None)) →
  (∀ n entries, Forall P entries → P (Folder n (Some entries))) →
  ∀ entry, P entry.
Proof.
  intros HF HS HN HD.
  exact (fix go entry :=
           match entry with
           | File n => HF n
           | Special n => HS n
           | Folder n None => HN n
           | Folder n (Some entries) =>
               HD n entries
                 ((fix all l : Forall P l :=
                     match l with
                     | [] => @List.Forall_nil _ P
                     | x :: rest => @List.Forall_cons _ P x rest (go x) (all rest)
                     end) entries)
           end).
Qed.

Lemma append_cons c (a b : string) : String c a +:+ b = String c (a +:+ b).
Proof. reflexivity. Qed.

Lemma append_nil_l (b : string) : "" +:+ b = b.
Proof. reflexivity. Qed.

Lemma has_prefix_app p s : has_prefix p (p +:+ s) = true.
Proof.
  induction p as [|c p IH]; [done|]. rewrite append_cons. cbn [has_prefix].
  by rewrite Ascii.eqb_refl.
Qed.

Lemma has_prefix_weaken p q s :
  has_prefix (p +:+ q) s = true → has_prefix p s = true.
Proof.
  revert s. induction p as [|c p IH]; intros s; [done|].
  rewrite append_cons. destruct s as [|d s]; cbn [has_prefix]; [done|].
  intros [? ?]%andb_true_iff. apply andb_true_iff. split; [done|]. by apply IH.
Qed.

Lemma append_assoc (a b c : string) : (a +:+ b) +:+ c = a +:+ (b +:+ c).
Proof.
  induction a as [|x a IH]; [done|]. by rewrite !append_cons, IH.
Qed.

(** The walk stays below the directory it starts from. *)
Lemma files_of_below entry :
  ∀ dir p, p ∈ files_of dir entry → has_prefix (dir +:+ "/") p = true.
Proof.
  induction entry as [n|n|n|n entries IH] using Node_induction;
    intros dir p Hp; cbn in Hp.
  - apply list_elem_of_singleton in Hp as ->.
    rewrite <- append_assoc. apply has_prefix_app.
  - by apply elem_of_nil in Hp.
  - by apply elem_of_nil in Hp.
  - apply list_elem_of_In, in_flat_map in Hp as (entry & Hentry & Hp).
    apply list_elem_of_In in Hentry, Hp.
    rewrite Forall_forall in IH. specialize (IH entry Hentry _ _ Hp).
    apply (has_prefix_weaken _ (n +:+ "/")).
    rewrite append_assoc. rewrite append_assoc in IH. exact IH.
Qed.

Lemma findFilesRecursive_below dir listing p :
  p ∈ findFilesRecursive dir listing → has_prefix (dir +:+ "/") p = true.
Proof.
  destruct listing as [entries|]; cbn; [|by intros ?%elem_of_nil].
  intros (entry & _ & Hp)%list_elem_of_In%in_flat_map.
  by apply (files_of_below entry), list_elem_of_In.
Qed.

Lemma expired_iff probe retentionDays :
  expired probe retentionDays ↔
  (retentionDays <? getFileAgeDays probe)%Z = true ∧
  (∃ stats, fp_stat probe = inr stats) ∧ fp_unlink probe = None.
Proof.
  unfold expired, getFileAgeDays. split.
  - intros (mtime & size & -> & Hage & ->). split; [|by eauto].
    apply Z.ltb_lt. change (1000 * 60 * 60 * 24)%Z with 86400000%Z.
    pose proof (Z.div_le_lower_bound (fp_now probe - mtime) 86400000
                  (retentionDays + 1) ltac:(lia) ltac:(lia)). lia.
  - intros (Hage & [[mtime size] Hstat] & Hunlink). rewrite Hstat in *.
    exists mtime, size. split; [done|]. split; [|done].
    apply Z.ltb_lt in Hage. change (1000 * 60 * 60 * 24)%Z with 86400000%Z in Hage.
    pose proof (Z.mul_div_le (fp_now probe - mtime) 86400000 ltac:(lia)). nia.
Qed.

Lemma total_size_snoc probe files p :
  total_size probe (files ++ [p])
  = (total_size probe files + probed_size (probe p))%Z.
Proof.
  unfold total_size. induction files as [|q files IH]; cbn; [lia|].
  rewrite IH. lia.
Qed.

Lemma sweep_spec probe retentionDays files :
  ∀ stats deleted stats' deleted',
    sweep probe retentionDays files stats deleted = (stats', deleted') →
    filesScanned stats' = filesScanned stats ∧
    ∃ new,
      deleted' = deleted ++ new ∧
      filesDeleted stats' = filesDeleted stats + length new ∧
      bytesFreed stats' = (bytesFreed stats + total_size probe new)%Z ∧
      filesDeleted stats' + length (cs_errors stats')
        ≤ filesDeleted stats + length (cs_errors stats) + length files ∧
      ∀ p, p ∈ new ↔ p ∈ files ∧ expired (probe p) retentionDays.
Proof.
  induction files as [|file rest IH]; intros stats deleted stats' deleted' Hrun;
    cbn in Hrun.
  { injection Hrun as <- <-. split; [done|]. exists [].
    rewrite app_nil_r. cbn. split_and!; try lia; [done|].
    intros p. split; [by intros ?%elem_of_nil|by intros [?%elem_of_nil _]]. }
  pose proof (expired_iff (probe file) retentionDays) as Hexp.
  assert (Hskip : ¬ expired (probe file) retentionDays →
    ∀ new : list string,
      (∀ p, p ∈ new ↔ p ∈ rest ∧ expired (probe p) retentionDays) →
      ∀ p, p ∈ new ↔ p ∈ file :: rest ∧ expired (probe p) retentionDays).
  { intros Hno new Hin p. rewrite Hin, elem_of_cons. split.
    - intros [Hp He]. by auto.
    - intros [[->|Hp] He]; [done|by split]. }
  destruct (retentionDays <? getFileAgeDays (probe file))%Z eqn:Hage.
  - destruct (fp_stat (probe file)) as [message|[mtime size]] eqn:Hstat.
    + apply IH in Hrun as (Hscan & new & -> & Hdel & Hbytes & Hcount & Hin).
      split; [done|]. exists new. cbn in *. rewrite length_app in Hcount.
      cbn in Hcount. split_and!; try done; try lia.
      apply Hskip; [|done]. intros (_ & [? ?] & _)%Hexp. done.
    + destruct (fp_unlink (probe file)) as [message|] eqn:Hunlink.
      * apply IH in Hrun as (Hscan & new & -> & Hdel & Hbytes & Hcount & Hin).
        split; [done|]. exists new. cbn in *. rewrite length_app in Hcount.
        cbn in Hcount. split_and!; try done; try lia.
        apply Hskip; [|done]. intros (_ & _ & ?)%Hexp. done.
      * apply IH in Hrun as (Hscan & new & -> & Hdel & Hbytes & Hcount & Hin).
        split; [done|]. exists (file :: new). cbn in *.
        rewrite <- app_assoc. split_and!; try done; try lia.
        -- unfold total_size, probed_size in *. cbn [foldr].
           rewrite Hstat. lia.
        -- intros p. rewrite !elem_of_cons, Hin. split.
           ++ intros [->|[Hp He]]; [|by auto]. split; [by left|].
              apply Hexp. eauto.
           ++ intros [[->|Hp] He]; [by left|by right].
  - apply IH in Hrun as (Hscan & new & -> & Hdel & Hbytes & Hcount & Hin).
    split; [done|]. exists new. split_and!; try done; cbn; try lia.
    apply Hskip; [|done]. intros (? & _)%Hexp. done.
Qed.

(** X1: [cleanupOldOutputs] unlinks exactly the files of the directory that
    were examined, are at least [retentionDays + 1] days old and could be
    unlinked; every one lies below the directory, and the statistics count
    them and their bytes. It throws only when the directory is denied. *)
Theorem cleanup_deletes_exactly_the_expired_files (disk : Disk)
    (outputDir : string) (retentionDays : Z) :
  match cleanupOldOutputs disk outputDir retentionDays with
  | inl message => d_access disk = Denied message
  | inr (stats, deleted) =>
      filesDeleted stats = length deleted ∧
      bytesFreed stats = total_size (d_probe disk) deleted ∧
      filesDeleted stats + length (cs_errors stats) ≤ filesScanned stats ∧
      ∀ p, p ∈ deleted →
        d_access disk = Accessible ∧
        p ∈ findFilesRecursive outputDir (d_listing disk) ∧
        has_prefix (outputDir +:+ "/") p = true ∧
        expired (d_probe disk p) retentionDays
  end ∧
  (d_access disk = Accessible →
   ∀ p, p ∈ findFilesRecursive outputDir (d_listing disk) →
        expired (d_probe disk p) retentionDays →
        ∃ stats deleted,
          cleanupOldOutputs disk outputDir retentionDays = inr (stats, deleted) ∧
          p ∈ deleted).
Proof.
  unfold cleanupOldOutputs. destruct (d_access disk) as [| |message] eqn:Hacc.
  - destruct (sweep _ _ _ _ _) as [stats deleted] eqn:Hsweep.
    apply sweep_spec in Hsweep as (Hscan & new & -> & Hdel & Hbytes & Hcount & Hin).
    cbn in *. split.
    + split_and!; try done; try lia.
      intros p [Hp He]%Hin. split_and!; try done.
      by eapply findFilesRecursive_below.
    + intros _ p Hp He. eexists _, _. split; [done|]. by apply Hin.
  - split; [|done]. cbn. split_and!; try done.
    by intros p ?%elem_of_nil.
  - done.
Qed.

(** *** The resource validation and the cleanup before a workflow *)

Lemma validateWorkflowResources_invalid rt workflow :
  rv_valid (validateWorkflowResources rt workflow) = false ∧
  rv_errors (validateWorkflowResources rt workflow)
  = ["Working directory is not writable: " +:+
     string_or (workingDirectory workflow) (cwd rt)].
Proof. done. Qed.

Lemma preWorkflowCleanup_errors rt diskError disk workflow options :
  ∃ more,
    pre_errors (preWorkflowCleanup rt diskError disk workflow options).1
    = ("Working directory is not writable: " +:+
       string_or (workingDirectory workflow) (cwd rt)) :: more.
Proof.
  unfold preWorkflowCleanup.
  destruct (o_cleanupOldOutputs options) as [[|]|];
    try destruct (cleanupOldOutputs _ _ _) as [message|[stats deleted]];
    cbn; eauto.
Qed.

(** X3: With the resource manager loaded, [executeWorkflow] never returns a
    result: whatever the workflow, it throws before the first stage, and
    neither calls the spawner nor logs a started stage. *)
Theorem loaded_resource_manager_stops_every_workflow (host : Host)
    (env : Environment) (workflow : Workflow) (context : Context) (w : World) :
  resourceManager (modules host) = true →
  cleanup_as_implemented host env workflow →
  let run := executeWorkflow host env workflow context w in
  (∃ message, run.1 = Threw message) ∧
  calls run.2 = calls w ∧
  log run.2 = log w.
Proof.
  intros Hrm Henv. cbn zeta. unfold executeWorkflow.
  cbn [executeWorkflow_rec]. unfold run_pass.
  destruct (validateWorkflow workflow) as [|v vs]; [|by eauto].
  destruct (topologicalSort (stages workflow)) as [e|order]; [by eauto|].
  destruct (begin_pass _ _ _ _ _ _ _ _)
    as [message|[[[workflowState isResume] context'] w1]] eqn:Hbegin;
    [by eauto|].
  rewrite Hrm. destruct (Henv (passes w)) as (diskError & disk & options & Herr).
  destruct (preWorkflowCleanup_errors (runtime host) diskError disk workflow options)
    as [more Hmore].
  rewrite Herr, Hmore. cbn [is_nil negb andb]. split; [by eauto|].
  unfold begin_pass, fresh_pass in Hbegin.
  destruct (if persistence (modules host) then _ else _) as [id|].
  - destruct (Persistence.resumeWorkflow _ _ _) as [?|[data σ]].
    + destruct (ctx_requireResume context) as [[|]|]; try done.
      destruct (persistence (modules host)); by injection Hbegin as _ _ _ <-.
    + by injection Hbegin as _ _ _ <-.
  - destruct (persistence (modules host)); by injection Hbegin as _ _ _ <-.
Qed.

Lemma loaded_resource_manager_stops_every_workflow_witness :
  let workflow := Scenario.simple_workflow Scenario.chain in
  let run :=
    executeWorkflow (Scenario.host Scenario.all_modules)
      (Examples.managed workflow) workflow empty_context Scenario.start in
  (∃ message, run.1 = Threw message) ∧
  calls run.2 = calls Scenario.start ∧
  log run.2 = log Scenario.start.
Proof.
  apply (loaded_resource_manager_stops_every_workflow
           (Scenario.host Scenario.all_modules)
           (Examples.managed (Scenario.simple_workflow Scenario.chain))
           (Scenario.simple_workflow Scenario.chain) empty_context
           Scenario.start); [reflexivity|].
  intros k. by exists None, Examples.no_outputs, Examples.default_options.
Defined.

(** *** The memory monitor and the cleanup after a workflow *)

(** X4: [monitorMemoryUsage] never reports the status critical: the test for
    more than 90 percent is the [else] of the test for more than 80. So
    [postWorkflowCleanup] never unlinks a file and never throws. *)
Theorem memory_status_is_never_critical (rt : Runtime) (disk : Disk)
    (memoryUsage : Z) :
  let monitor := monitorMemoryUsage memoryUsage in
  m_status monitor ≠ critical ∧
  (m_status monitor = warning ↔ (80 < usagePercent monitor)%Z) ∧
  (m_status monitor = ok ↔ m_recommendations monitor = []) ∧
  postWorkflowCleanup rt disk memoryUsage
  = inr ({| post_cleanedUp := false; post_memoryUsage := memoryUsage;
            post_recommendations := m_recommendations monitor |}, []).
Proof.
  cbn zeta. unfold postWorkflowCleanup, monitorMemoryUsage.
  destruct (Z.ltb_spec 80 (percent_of_threshold memoryUsage)) as [Hhigh|Hlow].
  - cbn. repeat split; try done.
  - destruct (Z.ltb_spec 90 (percent_of_threshold memoryUsage)) as [Hcrit|_];
      [lia|].
    cbn. repeat split; try done. lia.
Qed.

End ResourceFacts.

(** ** Waiting for a session *)

Module SessionFacts.
Import Text Data Executor Sessions.

Lemma paced_clock polls startTime pollIntervalSeconds :
  paced polls startTime pollIntervalSeconds →
  ∀ k, (startTime + Z.of_nat k * (Z.of_nat pollIntervalSeconds * 1000)
        ≤ p_now (polls k))%Z.
Proof.
  intros [Hstart Hstep]. induction k as [|k IH]; [lia|].
  specialize (Hstep k). lia.
Qed.

(** A turn that does not throw the timeout is among the first
    [timeoutSeconds / pollIntervalSeconds + 1]. *)
Lemma in_time_turn polls startTime pollIntervalSeconds timeoutSeconds k :
  0 < pollIntervalSeconds →
  paced polls startTime pollIntervalSeconds →
  (Z.of_nat timeoutSeconds * 1000 <? p_now (polls k) - startTime)%Z = false →
  k ≤ timeoutSeconds / pollIntervalSeconds.
Proof.
  intros Hpos Hpaced Hin. apply Z.ltb_ge in Hin.
  pose proof (paced_clock polls startTime pollIntervalSeconds Hpaced k).
  apply Nat.div_le_lower_bound; [lia|]. nia.
Qed.

Lemma poll_loop_ends polls startTime pollIntervalSeconds timeoutSeconds
    sessionId :
  0 < pollIntervalSeconds →
  paced polls startTime pollIntervalSeconds →
  ∀ turns k sessionData reads,
    0 < turns →
    k ≤ timeoutSeconds / pollIntervalSeconds + 1 →
    timeoutSeconds / pollIntervalSeconds + 2 ≤ k + turns →
    ∃ ended reads',
      poll_loop turns polls k startTime timeoutSeconds sessionId sessionData
        reads = Some (ended, reads') ∧
      reads' + 2 * k ≤ reads + 2 * (timeoutSeconds / pollIntervalSeconds + 1) ∧
      (ended = inl (timeout_message sessionId timeoutSeconds) ∨
       ∃ session, ended = inr (completion_of session)) ∧
      ∀ more,
        poll_loop (turns + more) polls k startTime timeoutSeconds sessionId
          sessionData reads = Some (ended, reads').
Proof.
  intros Hpos Hpaced. induction turns as [|turns IH];
    intros k sessionData reads Hturns Hk Henough; [lia|].
  cbn [poll_loop Nat.add].
  destruct (Z.of_nat timeoutSeconds * 1000 <? p_now (polls k) - startTime)%Z
    eqn:Hout.
  { eexists _, _. split; [done|]. split; [lia|]. by auto. }
  pose proof (in_time_turn _ _ _ _ _ Hpos Hpaced Hout) as Hin.
  destruct (p_sessions (polls k)) as [sessions|].
  2:{ eexists _, _. split; [done|]. split; [lia|]. by eauto. }
  destruct (List.find _ sessions) as [session|].
  2:{ eexists _, _. split; [done|]. split; [lia|]. by eauto. }
  destruct (isSessionComplete _ _ _).
  { eexists _, _. split; [done|]. split; [lia|]. by eauto. }
  destruct (IH (S k) (Some session) (S (S reads)))
    as (ended & reads' & Hrun & Hreads & Hshape & Hmore);
    [lia..|].
  exists ended, reads'. split; [done|]. split; [lia|]. done.
Qed.

(** X5: [waitForCompletion] ends within
    [timeoutSeconds / pollIntervalSeconds + 2] turns of its loop, when the
    loop sleeps at least the interval between two turns: it throws the
    timeout error or returns a completion whose transcript is the message
    list of the session it returns. It runs the listing command at most
    twice in each of [timeoutSeconds / pollIntervalSeconds + 1] turns, once
    itself and once through [isSessionComplete], and more turns change
    nothing. *)
Theorem waiting_ends_within_the_timeout (polls : nat → Poll) (startTime : Z)
    (sessionId : string) (timeoutSeconds pollIntervalSeconds : nat) :
  0 < pollIntervalSeconds →
  paced polls startTime pollIntervalSeconds →
  let most := timeoutSeconds / pollIntervalSeconds + 1 in
  ∃ ended reads,
    waitForCompletion (S most) polls startTime sessionId timeoutSeconds
      = Some (ended, reads) ∧
    reads ≤ 2 * most ∧
    (ended = inl (timeout_message sessionId timeoutSeconds) ∨
     ∃ session,
       ended = inr {| c_session := session;
                      c_transcript := session ≫= s_messages |}) ∧
    ∀ more,
      waitForCompletion (S most + more) polls startTime sessionId
        timeoutSeconds = Some (ended, reads).
Proof.
  intros Hpos Hpaced most. unfold waitForCompletion.
  destruct (poll_loop_ends polls startTime pollIntervalSeconds timeoutSeconds
              sessionId Hpos Hpaced (S most) 0 None 0)
    as (ended & reads & Hrun & Hreads & Hshape & Hmore); [lia..|].
  exists ended, reads. split; [done|]. split; [lia|]. done.
Qed.

(** A clock that starts at 0 and advances five seconds a turn, with a
    session that stays active. *)
Lemma waiting_ends_within_the_timeout_witness :
  ∃ ended reads,
    waitForCompletion (S (60 / 5 + 1)) Examples.busy_polls 0 "s-1" 60
      = Some (ended, reads) ∧
    reads ≤ 2 * (60 / 5 + 1) ∧
    (ended = inl (timeout_message "s-1" 60) ∨
     ∃ session,
       ended = inr {| c_session := session;
                      c_transcript := session ≫= s_messages |}) ∧
    ∀ more,
      waitForCompletion (S (60 / 5 + 1) + more) Examples.busy_polls 0 "s-1" 60
        = Some (ended, reads).
Proof.
  apply (waiting_ends_within_the_timeout Examples.busy_polls 0 "s-1" 60 5);
    [lia|].
  split; [done|]. intros k. cbn. lia.
Defined.

(** *** Abandonment and completion *)



End SessionFacts.

(** ** The error handler *)

Module RecoveryFacts.
Import Text ErrorHandler Data Evidence Queue Executor.
Import ErrorHandlerFacts ResourceFacts.

Lemma prefix_ci_app_l p a b :
  prefix_ci p a = true → prefix_ci p (a +:+ b) = true.
Proof.
  revert a. induction p as [|c p IH]; intros a; [done|].
  destruct a as [|d a]; [done|]. rewrite append_cons. cbn [prefix_ci].
  intros [? ?]%andb_true_iff. apply andb_true_iff. split; [done|]. by apply IH.
Qed.

Lemma includes_ci_app_l p a b :
  includes_ci p a = true → includes_ci p (a +:+ b) = true.
Proof.
  induction a as [|c a IH].
  - destruct p; [|done]. intros _. by destruct b.
  - rewrite append_cons. cbn [includes_ci].
    intros [Hp|Ha]%orb_true_iff; apply orb_true_iff.
    + left. rewrite <- append_cons. by apply prefix_ci_app_l.
    + right. by apply IH.
Qed.

Lemma classifyError_retryable message :
  cl_retryable (classifyError message) = RETRYABILITY (cl_type (classifyError message)).
Proof.
  unfold classifyError.
  repeat (match goal with |- context [if ?b then _ else _] => destruct b end);
    reflexivity.
Qed.

(** X7: [handleWorkflowError] asks for a retry exactly when the type it
    assigns is retryable and the attempt is at most [maxRetries]: on the
    retryable types it agrees with the rule [attempt <= maxRetries] that
    the executor applies without it, and it never retries another type. A
    halt always carries its reason, and a backoff is only computed for a
    network error that is retried: 1000 ms doubled with every attempt, at
    most 30000 ms. *)
Theorem handler_retries_only_retryable_errors (message : string)
    (attempt maxRetries : nat) :
  1 ≤ attempt →
  let handling := handleWorkflowError message attempt maxRetries in
  h_retryable handling = RETRYABILITY (h_errorType handling) ∧
  (h_shouldRetry handling = true ↔
   h_retryable handling = true ∧ attempt ≤ maxRetries) ∧
  (h_haltReason handling = None ↔ h_shouldRetry handling = true) ∧
  (is_Some (h_backoff handling) ↔
   h_errorType handling = NETWORK_ERROR ∧ h_shouldRetry handling = true) ∧
  ∀ backoff, h_backoff handling = Some backoff →
    (1000 ≤ backoff ≤ 30000)%Z ∧
    (attempt ≤ 5 → backoff = (1000 * 2 ^ (Z.of_nat attempt - 1))%Z) ∧
    (5 < attempt → backoff = 30000%Z).
Proof.
  intros Hattempt. cbn zeta. unfold handleWorkflowError, decideRecoveryAction.
  rewrite classifyError_retryable.
  set (type := cl_type (classifyError message)).
  assert (Hpow : (1 ≤ 2 ^ (Z.of_nat attempt - 1))%Z)
    by (apply Z.lt_pred_le, Z.pow_pos_nonneg; lia).
  assert (Hbackoff : ∀ backoff,
    Z.min (1000 * 2 ^ (Z.of_nat attempt - 1)) 30000 = backoff →
    (1000 ≤ backoff ≤ 30000)%Z ∧
    (attempt ≤ 5 → backoff = (1000 * 2 ^ (Z.of_nat attempt - 1))%Z) ∧
    (5 < attempt → backoff = 30000%Z)).
  { intros backoff <-. split; [lia|]. split.
    - intros Hle.
      assert (2 ^ (Z.of_nat attempt - 1) ≤ 2 ^ 4)%Z
        by (apply Z.pow_le_mono_r; lia).
      change (2 ^ 4)%Z with 16%Z in *. lia.
    - intros Hgt.
      assert (2 ^ 5 ≤ 2 ^ (Z.of_nat attempt - 1))%Z
        by (apply Z.pow_le_mono_r; lia).
      change (2 ^ 5)%Z with 32%Z in *. lia. }
  destruct (RETRYABILITY type) eqn:Hretryable; cbn [negb].
  2:{ cbn. split_and!; try done.
      - split; [done|by intros [? _]].
      - split; [by intros [? ?]|by intros [_ ?]]. }
  destruct (Nat.leb_spec (maxRetries + 1) attempt) as [Hlast|Hmore]; cbn.
  { split_and!; try done.
    - split; [done|intros [_ ?]; lia].
    - split; [by intros [? ?]|by intros [_ ?]]. }
  split_and!; try done.
  - split; [intros _; split; [done|lia]|done].
  - destruct type; cbn; try discriminate Hretryable.
    all: split;
      [ first [ by (intros _; split) | intros [? [=]] ]
      | first [ by (intros _; eexists) | intros [[=] _] ] ].
  - intros backoff. destruct type; cbn; try done.
    intros [= Hb]. by apply Hbackoff.
Qed.

Lemma handler_retries_only_retryable_errors_witness :
  let handling := handleWorkflowError "connection refused" 2 3 in
  h_retryable handling = RETRYABILITY (h_errorType handling) ∧
  (h_shouldRetry handling = true ↔ h_retryable handling = true ∧ 2 ≤ 3) ∧
  (h_haltReason handling = None ↔ h_shouldRetry handling = true) ∧
  (is_Some (h_backoff handling) ↔
   h_errorType handling = NETWORK_ERROR ∧ h_shouldRetry handling = true) ∧
  ∀ backoff, h_backoff handling = Some backoff →
    (1000 ≤ backoff ≤ 30000)%Z ∧
    (2 ≤ 5 → backoff = (1000 * 2 ^ (Z.of_nat 2 - 1))%Z) ∧
    (5 < 2 → backoff = 30000%Z).
Proof. apply (handler_retries_only_retryable_errors "connection refused" 2 3). lia. Defined.

(** X8: The error that [executeStage] throws when the evidence validation
    of a saved output fails is never classified as a validation failure: its
    message contains the word validation, which the pattern of invalid
    input matches before the pattern of a validation failure is tried. It is
    classified as a timeout, as resource exhaustion or as invalid input, and
    invalid input is not retryable, so that the decision is to halt. *)
Theorem evidence_failures_are_classified_as_invalid_input (rt : Runtime)
    (ae : AttemptEnv) (stage : Stage) (workflow : Workflow) (attempt : nat)
    (spawned : SpawnResult) (output : string) (sessionInfo : option Completion)
    (message : string) :
  ae_saveError ae = None →
  finish_attempt rt ae stage workflow attempt spawned output sessionInfo
    = inl message →
  let classification := classifyError message in
  cl_type classification ≠ VALIDATION_FAILED ∧
  (cl_type classification = TIMEOUT ∨
   cl_type classification = RESOURCE_EXHAUSTED ∨
   cl_type classification = INVALID_INPUT ∧
   cl_retryable classification = false ∧
   ∀ tried maxRetries,
     d_action (decideRecoveryAction classification tried maxRetries) = halt).
Proof.
  intros Hsave. unfold finish_attempt. rewrite Hsave.
  destruct (negb _); [|done]. intros [= <-]. cbn zeta.
  match goal with |- context [classifyError ?m] => set (message := m) end.
  assert (Hword : test_any_ci
            ["invalid"; "validation"; "format"; "schema"; "parse"; "syntax"]
            message = true).
  { subst message. do 4 apply test_any_ci_app_r.
    unfold test_any_ci. cbn [existsb]. apply orb_true_iff. right.
    apply orb_true_iff. left. by apply includes_ci_app_l. }
  unfold classifyError. rewrite Hword.
  destruct (test_any_ci ["timeout"; "exceeded"; "time limit"] message);
    [split; [done|by left]|].
  destruct (test_any_ci
              ["memory"; "disk"; "space"; "resource"; "exhausted"; "heap"]
              message);
    [split; [done|right; by left]|].
  split; [done|]. right. right. split_and!; done.
Qed.

Lemma evidence_failures_are_classified_as_invalid_input_witness :
  let classification :=
    classifyError
      ("Stage " +:+ dq +:+ "A" +:+ dq +:+
       " failed evidence validation: Evidence file created too recently (50ms), appears fake: gaps.json") in
  cl_type classification ≠ VALIDATION_FAILED ∧
  (cl_type classification = TIMEOUT ∨
   cl_type classification = RESOURCE_EXHAUSTED ∨
   cl_type classification = INVALID_INPUT ∧
   cl_retryable classification = false ∧
   ∀ tried maxRetries,
     d_action (decideRecoveryAction classification tried maxRetries) = halt).
Proof.
  apply (evidence_failures_are_classified_as_invalid_input Scenario.rt
           (Scenario.answering 1050) (Scenario.simple_stage "A" [])
           (Scenario.simple_workflow Scenario.chain) 1
           {| sp_sessionId := None;
              sp_output := Some ("Done. " +:+ Scenario.evidence_text) |}
           ("Done. " +:+ Scenario.evidence_text) None);
    reflexivity.
Defined.

End RecoveryFacts.

(** ** The evidence validator *)

Module ValidatorFacts.
Import Text Data Regex Evidence.

Lemma find_fake_marker_none content :
  List.find (λ marker, includes_ci marker content) fakeMarkers = None →
  ∀ marker, marker ∈ fakeMarkers → includes_ci marker content = false.
Proof.
  intros Hnone marker Hin. apply list_elem_of_In in Hin.
  by apply (find_none _ _ Hnone).
Qed.

Lemma content_errors_nil content path isDocStage :
  content_errors content path isDocStage = [] →
  (isDocStage = false → existsb (λ m, test m content) testMarkers = true) ∧
  (utf16_length content < 200 →
   ∀ marker, marker ∈ fakeMarkers → includes_ci marker content = false).
Proof.
  unfold content_errors. intros [Hfake Htest]%app_eq_nil. split.
  - intros ->. cbn [negb andb] in Htest.
    by destruct (existsb _ testMarkers).
  - intros Hshort.
    destruct (List.find _ fakeMarkers) as [marker|] eqn:Hfind.
    + destruct (Nat.ltb_spec (utf16_length content) 200); [done|lia].
    + by apply find_fake_marker_none.
Qed.

Lemma file_errors_nil rt fs now filePath isDocStage :
  file_errors rt fs now filePath isDocStage = [] →
  ∃ path mtime content,
    filePath = JStr path ∧
    fs !! resolve rt path = Some (RegularFile mtime content) ∧
    (100 ≤ now - mtime)%Z ∧ content ≠ "" ∧
    (isDocStage = false → existsb (λ m, test m content) testMarkers = true) ∧
    (utf16_length content < 200 →
     ∀ marker, marker ∈ fakeMarkers → includes_ci marker content = false).
Proof.
  unfold file_errors. destruct filePath as [| | |path| |]; try done.
  destruct (fs !! resolve rt path) as [[mtime content|mtime|message]|]
    eqn:Hfile; try done.
  - intros [Hage [Hsize Hcontent]%app_eq_nil]%app_eq_nil.
    exists path, mtime, content. split; [done|]. split; [done|].
    cbn [mtimeMs size] in *. split.
    { destruct (Z.ltb_spec (now - mtime) 100); [done|lia]. }
    split.
    { intros ->. done. }
    by apply content_errors_nil in Hcontent.
  - intros [_ [_ ?]%app_eq_nil]%app_eq_nil. done.
Qed.

(** X9: What a verdict [valid: true] guarantees: the output held an evidence
    object that parsed; outside a documentation stage it names an evidence
    file or a fix log; a named evidence file is a regular file on disk, not
    empty, at least 100 ms old, with a test marker in it (outside a
    documentation stage) and, when shorter than 200 characters, without a
    fake marker. Of a fix log named by a string, and of the default fix log
    of a documentation stage that names none, it only guarantees that the
    access did not fail with ENOENT: the path has an entry, which may be an
    inaccessible one, since the validator ignores every other error. *)
Theorem valid_evidence_is_backed_by_files (rt : Runtime) (fs : FileSystem)
    (now : Z) (output stageName : string) (isDocStage : bool) :
  let validation :=
    validateCompletionEvidence rt fs now output stageName isDocStage in
  valid validation = true →
  errors validation = [] ∧
  ∃ text ev,
    match_evidence output = Some text ∧
    JSON_parse rt text = inr ev ∧
    evidence validation = Some ev ∧
    (isDocStage = false →
     truthy (get "filePath" ev) = true ∨ truthy (get "fixLog" ev) = true) ∧
    (truthy (get "filePath" ev) = true →
     ∃ path mtime content,
       get "filePath" ev = Some (JStr path) ∧
       fs !! resolve rt path = Some (RegularFile mtime content) ∧
       (100 ≤ now - mtime)%Z ∧ content ≠ "" ∧
       (isDocStage = false →
        existsb (λ m, test m content) testMarkers = true) ∧
       (utf16_length content < 200 →
        ∀ marker, marker ∈ fakeMarkers → includes_ci marker content = false)) ∧
    (∀ path, get "fixLog" ev = Some (JStr path) → path ≠ "" →
             is_Some (fs !! resolve rt path)) ∧
    (isDocStage = true → truthy (get "fixLog" ev) = false →
     is_Some (fs !! defaultFixLog)).
Proof.
  cbn zeta. unfold validateCompletionEvidence.
  destruct (match_evidence output) as [text|]; [|done].
  destruct (JSON_parse rt text) as [message|ev] eqn:Hparse; [done|].
  set (filePath := get "filePath" ev). set (fixLog := get "fixLog" ev).
  set (errs := _ ++ _ ++ _).
  assert (Hgoal : is_nil errs = true →
    errs = [] ∧
    (isDocStage = false → truthy filePath = true ∨ truthy fixLog = true) ∧
    (truthy filePath = true →
     ∃ path mtime content,
       filePath = Some (JStr path) ∧
       fs !! resolve rt path = Some (RegularFile mtime content) ∧
       (100 ≤ now - mtime)%Z ∧ content ≠ "" ∧
       (isDocStage = false →
        existsb (λ m, test m content) testMarkers = true) ∧
       (utf16_length content < 200 →
        ∀ marker, marker ∈ fakeMarkers → includes_ci marker content = false)) ∧
    (∀ path, fixLog = Some (JStr path) → path ≠ "" →
             is_Some (fs !! resolve rt path)) ∧
    (isDocStage = true → truthy fixLog = false → is_Some (fs !! defaultFixLog))).
  { intros Hnil. assert (errs = []) as Herrs by (by destruct errs).
    split; [done|]. subst errs.
    apply app_eq_nil in Herrs as [Hmissing [Hfile Hlog]%app_eq_nil].
    split_and!.
    - intros ->. cbn in Hmissing.
      destruct (truthy filePath); [by left|].
      destruct (truthy fixLog); [by right|done].
    - intros Htruthy. rewrite Htruthy in Hfile.
      destruct filePath as [p|]; [|done].
      apply file_errors_nil in Hfile
        as (path & mtime & content & -> & ? & ? & ? & ? & ?).
      by exists path, mtime, content.
    - intros path Hpath Hne. unfold fixLog_errors in Hlog. rewrite Hpath in Hlog.
      assert (truthy (Some (JStr path)) = true) as Ht.
      { cbn. by destruct (String.eqb_spec path ""). }
      rewrite Ht in Hlog. cbn [orb negb andb] in Hlog.
      rewrite andb_false_r in Hlog.
      by destruct (fs !! resolve rt path).
    - intros -> Hfalsy. unfold fixLog_errors in Hlog. rewrite Hfalsy in Hlog.
      cbn [orb andb negb] in Hlog.
      change (resolve rt defaultFixLog) with defaultFixLog in Hlog.
      by destruct (fs !! defaultFixLog). }
  destruct ev; try done; cbn [valid evidence errors];
    intros Hvalid; destruct (Hgoal Hvalid) as (? & ? & ? & ? & ?);
    (split; [done|]); eexists _, _; split_and!; done.
Qed.

Lemma valid_evidence_is_backed_by_files_witness :
  let validation :=
    validateCompletionEvidence Scenario.rt Scenario.files 9000
      ("Done. " +:+ Scenario.evidence_text) "C" false in
  errors validation = [] ∧
  ∃ text ev,
    match_evidence ("Done. " +:+ Scenario.evidence_text) = Some text ∧
    JSON_parse Scenario.rt text = inr ev ∧
    evidence validation = Some ev ∧
    (false = false →
     truthy (get "filePath" ev) = true ∨ truthy (get "fixLog" ev) = true) ∧
    (truthy (get "filePath" ev) = true →
     ∃ path mtime content,
       get "filePath" ev = Some (JStr path) ∧
       Scenario.files !! resolve Scenario.rt path
         = Some (RegularFile mtime content) ∧
       (100 ≤ 9000 - mtime)%Z ∧ content ≠ "" ∧
       (false = false → existsb (λ m, test m content) testMarkers = true) ∧
       (utf16_length content < 200 →
        ∀ marker, marker ∈ fakeMarkers → includes_ci marker content = false)) ∧
    (∀ path, get "fixLog" ev = Some (JStr path) → path ≠ "" →
             is_Some (Scenario.files !! resolve Scenario.rt path)) ∧
    (false = true → truthy (get "fixLog" ev) = false →
     is_Some (Scenario.files !! defaultFixLog)).
Proof.
  apply (valid_evidence_is_backed_by_files Scenario.rt Scenario.files 9000
           ("Done. " +:+ Scenario.evidence_text) "C" false).
  reflexivity.
Defined.

(** X10: An evidence object that names no evidence file and whose [fixLog] is
    truthy but not a string (true, a number, an array, an object) passes
    the validation whatever is on disk: the path check on it throws an
    error that the handler ignores. *)
Theorem non_string_fix_log_passes_unchecked (rt : Runtime) (fs : FileSystem)
    (now : Z) (output stageName : string) (isDocStage : bool)
    (text : string) (ev fixLog : Json) :
  match_evidence output = Some text →
  JSON_parse rt text = inr ev →
  truthy (get "filePath" ev) = false →
  get "fixLog" ev = Some fixLog →
  truthy (Some fixLog) = true →
  (∀ path, fixLog ≠ JStr path) →
  validateCompletionEvidence rt fs now output stageName isDocStage
  = {| valid := true; evidence := Some ev; errors := [] |}.
Proof.
  intros Hmatch Hparse HfilePath HfixLog Htruthy Hshape.
  unfold validateCompletionEvidence. rewrite Hmatch, Hparse.
  assert (Herrs :
    (if negb isDocStage && negb (truthy (get "filePath" ev)) &&
        negb (truthy (get "fixLog" ev))
     then ["Evidence missing required fields: filePath or fixLog"] else []) ++
    (match get "filePath" ev with
     | Some p =>
         if truthy (get "filePath" ev) then file_errors rt fs now p isDocStage
         else []
     | None => []
     end) ++
    fixLog_errors rt fs (get "fixLog" ev) isDocStage = []).
  { rewrite HfilePath, HfixLog, Htruthy. rewrite andb_false_r.
    unfold fixLog_errors. rewrite Htruthy. cbn [orb negb].
    rewrite andb_false_r.
    destruct (get "filePath" ev); destruct fixLog; try done.
    all: by destruct (Hshape s). }
  destruct ev; try done; by rewrite Herrs.
Qed.

Lemma non_string_fix_log_passes_unchecked_witness :
  validateCompletionEvidence Examples.unbacked_rt ∅ 0
    ("All done. " +:+ Examples.unbacked_text) "build" false
  = {| valid := true; evidence := Some Examples.unbacked_json; errors := [] |}.
Proof.
  apply (non_string_fix_log_passes_unchecked Examples.unbacked_rt ∅ 0
           ("All done. " +:+ Examples.unbacked_text) "build" false
           Examples.unbacked_text Examples.unbacked_json (JBool true));
    try reflexivity.
  intros path. discriminate.
Defined.

End ValidatorFacts.

(** ** Workflow definitions *)

Module DefinitionFacts.
Import Text Data Queue Executor Graph Order Blocking.
Import SortFacts ResourceFacts.

Lemma concat_nil_iff {A} (ls : list (list A)) :
  concat ls = [] ↔ ∀ l, l ∈ ls → l = [].
Proof.
  induction ls as [|l ls IH]; cbn.
  - split; [by intros _ ? ?%elem_of_nil|done].
  - split.
    + intros [-> Hls]%app_eq_nil l' [->|Hin]%elem_of_cons; [done|].
      by apply IH.
    + intros Hall. rewrite (Hall l) by by left. cbn. apply IH.
      intros l' Hl'. apply Hall. by right.
Qed.

Lemma flat_map_nil_iff {A B} (f : A → list B) (l : list A) :
  flat_map f l = [] ↔ ∀ x, x ∈ l → f x = [].
Proof.
  induction l as [|x l IH]; cbn.
  - split; [by intros _ ? ?%elem_of_nil|done].
  - split.
    + intros [Hx Hl]%app_eq_nil y [->|Hin]%elem_of_cons; [done|]. by apply IH.
    + intros Hall. rewrite (Hall x) by by left. cbn. apply IH.
      intros y Hy. apply Hall. by right.
Qed.

Lemma includes_true x l : Persistence.includes x l = true ↔ x ∈ l.
Proof.
  unfold Persistence.includes. rewrite existsb_exists. split.
  - intros (y & Hy & ->%String.eqb_eq). by apply list_elem_of_In.
  - intros Hx. exists x. split; [by apply list_elem_of_In|apply String.eqb_refl].
Qed.

Lemma stage_errors_nil all i s :
  all !! i = Some s →
  stage_errors all i s = [] ↔
  name s ≠ "" ∧ task s ≠ "" ∧
  ∀ j s', all !! j = Some s' → name s' = name s → j = i.
Proof.
  intros Hi. unfold stage_errors. split.
  - intros [Hname [Htask Hdup]%app_eq_nil]%app_eq_nil. split_and!.
    + intros Heq. by rewrite Heq in Hname.
    + intros Heq. by rewrite Heq in Htask.
    + intros j s' Hj Heq. destruct (decide (j = i)) as [|Hne]; [done|].
      exfalso. destruct (existsb _ _) eqn:Hex; [done|].
      apply not_true_iff_false in Hex. apply Hex, existsb_exists.
      exists (j, s'). split.
      * apply list_elem_of_In. by apply (elem_of_lookup_imap_2 pair).
      * apply andb_true_iff. split; [by apply String.eqb_eq|].
        by apply negb_true_iff, Nat.eqb_neq.
  - intros (Hname & Htask & Hdup).
    destruct (String.eqb_spec (name s) ""); [done|].
    destruct (String.eqb_spec (task s) ""); [done|]. cbn.
    destruct (existsb _ _) eqn:Hex; [|done]. exfalso.
    apply existsb_exists in Hex as ([j s'] & Hin & Hcond).
    apply list_elem_of_In, elem_of_lookup_imap in Hin as (k & y & [= -> ->] & Hk).
    apply andb_true_iff in Hcond as [Heq%String.eqb_eq Hne%negb_true_iff].
    apply Nat.eqb_neq in Hne. by apply Hne, (Hdup k y).
Qed.

(** X11: [validateWorkflow] reports no violation exactly for the definitions
    with a name, at least one stage, a name and a task for every stage, no
    two stages of the same name, and only dependencies that name a stage. *)
Theorem validateWorkflow_accepts_exactly (workflow : Workflow) :
  validateWorkflow workflow = [] ↔
  wf_name workflow ≠ "" ∧
  stages workflow ≠ [] ∧
  (∀ s, s ∈ stages workflow → name s ≠ "" ∧ task s ≠ "") ∧
  NoDup (stageNames (stages workflow)) ∧
  resolved (stages workflow).
Proof.
  split.
  - intros Hvalid. destruct (validateWorkflow_sound workflow Hvalid) as [Hnd Hres].
    unfold validateWorkflow in Hvalid.
    apply app_eq_nil in Hvalid as [Hname [Hstages [Herrs _]%app_eq_nil]%app_eq_nil].
    split_and!; try done.
    + intros Heq. by rewrite Heq in Hname.
    + intros Heq. by rewrite Heq in Hstages.
    + intros s [i Hi]%list_elem_of_lookup.
      assert (stage_errors (stages workflow) i s = []) as Hnil.
      { apply (proj1 (concat_nil_iff _) Herrs).
        by apply elem_of_lookup_imap_2. }
      apply (stage_errors_nil _ _ _ Hi) in Hnil as (? & ? & _). done.
  - intros (Hname & Hstages & Hfields & Hnd & Hres). unfold validateWorkflow.
    destruct (String.eqb_spec (wf_name workflow) ""); [done|].
    destruct (stages workflow) as [|s0 rest] eqn:Hall; [done|].
    rewrite <- Hall in *. cbn [app].
    apply app_nil. split.
    + apply concat_nil_iff. intros errs Hin.
      apply elem_of_lookup_imap in Hin as (i & s & -> & Hi).
      apply (stage_errors_nil _ _ _ Hi). destruct (Hfields s) as [? ?].
      { by eapply list_elem_of_lookup_2. }
      split_and!; try done. intros j s' Hj Heq.
      apply (NoDup_lookup (stageNames (stages workflow)) j i (name s)); [done|..];
        unfold stageNames;
        change (map name (stages workflow)) with (name <$> stages workflow);
        rewrite list_lookup_fmap.
      * rewrite Hj. cbn. by rewrite Heq.
      * by rewrite Hi.
    + apply flat_map_nil_iff. intros s Hs. unfold dependency_errors.
      apply flat_map_nil_iff. intros d Hd.
      destruct (Persistence.includes d _) eqn:Hinc; [done|].
      apply not_true_iff_false in Hinc. exfalso. apply Hinc, includes_true.
      by apply (Hres s).
Qed.

(** *** The output file of a stage *)

Lemma keep_char_underscore : keep_char "_" = true.
Proof. reflexivity. Qed.

(** X12: The file name that [saveStageOutput] derives from a stage name has
    the length of the name and only letters, digits, hyphens and
    underscores; a name made of such characters is kept as it is, so
    sanitising twice changes nothing more. Two names that differ only in
    characters outside this set get the same file. *)
Theorem sanitized_names_are_safe (stageName : string) :
  String.length (sanitize stageName) = String.length stageName ∧
  all_chars keep_char (sanitize stageName) = true ∧
  (sanitize stageName = stageName ↔ all_chars keep_char stageName = true) ∧
  sanitize (sanitize stageName) = sanitize stageName ∧
  ∀ c c' rest,
    keep_char c = false → keep_char c' = false →
    sanitize (stageName +:+ String c rest)
    = sanitize (stageName +:+ String c' rest).
Proof.
  induction stageName as [|a s (Hlen & Hsafe & Hfix & Hidem & Hclash)].
  { split_and!; try done. intros c c' rest Hc Hc'.
    rewrite !append_nil_l. cbn [sanitize]. by rewrite Hc, Hc'. }
  cbn [sanitize all_chars String.length]. split_and!.
  - by rewrite Hlen.
  - destruct (keep_char a) eqn:Ha; rewrite ?Ha, ?keep_char_underscore, Hsafe;
      done.
  - destruct (keep_char a) eqn:Ha.
    + cbn. rewrite <- Hfix. split; [by intros [= ->]|by intros ->].
    + split; [|done]. intros [= Heq _]. rewrite <- Heq in Ha.
      by rewrite keep_char_underscore in Ha.
  - destruct (keep_char a) eqn:Ha; cbn [sanitize];
      rewrite ?Ha, ?keep_char_underscore, Hidem; done.
  - intros c c' rest Hc Hc'. rewrite !append_cons. cbn [sanitize].
    by rewrite (Hclash c c' rest Hc Hc').
Qed.

(** *** The sorter, on every graph *)

Lemma repeated_element (l : list string) :
  ¬ NoDup l → ∃ i j x, i < j ∧ l !! i = Some x ∧ l !! j = Some x.
Proof.
  induction l as [|a l IH]; intros Hdup.
  - destruct Hdup. constructor.
  - destruct (decide (a ∈ l)) as [Hin|Hout].
    + apply list_elem_of_lookup in Hin as [j Hj].
      exists 0, (S j), a. split; [lia|]. by split.
    + destruct IH as (i & j & x & Hlt & Hi & Hj).
      { intros Hnd. apply Hdup. by constructor. }
      exists (S i), (S j), x. split; [lia|]. by split.
Qed.

Lemma on_cycle_is_stage stages m :
  on_cycle stages m → m ∈ stageNames stages.
Proof.
  intros Hm.
  assert (∃ d, depends_on stages m d) as (d & s & Hs & <- & _)
    by (inversion Hm; subst; by eexists).
  apply list_elem_of_In, in_map, list_elem_of_In, Hs.
Qed.

Lemma stuck_is_stage stages m : stuck stages m → m ∈ stageNames stages.
Proof. intros [Hm|[_ Hm]]; [by apply on_cycle_is_stage|done]. Qed.

Lemma blocked_is_stage stages n : blocked stages n → n ∈ stageNames stages.
Proof.
  intros (m & Hreach & Hm). destruct Hreach as [|n k m (s & Hs & <- & _) _].
  - by apply stuck_is_stage.
  - apply list_elem_of_In, in_map, list_elem_of_In, Hs.
Qed.

(** A stage that was emitted reaches only emitted stages, so none on a
    cycle, and not the stage named [__proto__], which is never emitted. *)
Lemma blocked_is_unemitted stages order n :
  topo stages order → NoDup order → proto_key ∉ order →
  blocked stages n → n ∉ order.
Proof.
  intros Htopo Hnd Hproto (m & Hreach & Hm) Hn.
  assert (m ∈ order) as Hin.
  { induction Hreach as [|n k m Hdep _ IH]; [done|].
    apply IH; [done|]. eapply before_elem_l. by eapply topo_before. }
  destruct Hm as [Hm|[-> _]].
  - by apply (on_cycle_not_emitted stages order m Htopo Hnd Hm).
  - done.
Qed.

(** A stage that the loop never emitted waits for another such stage, and
    so on: the walk meets the stage named [__proto__], or, among more
    stages than there are, one repeats. *)
Lemma unemitted_is_blocked stages result :
  resolved stages →
  (∀ n, n ∈ stageNames stages → n ≠ proto_key →
        (n ∈ result ↔ waiting stages result n = 0)) →
  ∀ n0, n0 ∈ stageNames stages → n0 ∉ result → blocked stages n0.
Proof.
  intros Hres Hready n0 Hn0 Hmiss.
  set (x := λ i, Nat.iter i (waits_for stages result) n0).
  set (good := λ i, x i ∈ stageNames stages ∧ (x i ∉ result) ∧
                    x i ≠ proto_key ∧ rtc (depends_on stages) n0 (x i)).
  assert (Hnext : ∀ i, good i →
            x (S i) ∈ stageNames stages ∧ (x (S i) ∉ result) ∧
            depends_on stages (x i) (x (S i))).
  { intros i (Hn & Hr & Hp & _).
    unfold x at 1 2 4. cbn [Nat.iter]. fold (x i).
    destruct (waits_for_spec stages result (x i) Hres) as (? & ? & ?);
      [|done].
    intros Hz. by apply Hr, Hready. }
  assert (Hall : ∀ N, blocked stages n0 ∨ ∀ i, i ≤ N → good i).
  { induction N as [|N [IH|IH]].
    - destruct (decide (n0 = proto_key)) as [Hp|Hp].
      + left. exists n0. split; [done|]. right. done.
      + right. intros i Hi. replace i with 0 by lia. by split_and!.
    - by left.
    - destruct (Hnext N (IH N (le_n _))) as (Hn & Hr & Hdep).
      destruct (IH N (le_n _)) as (_ & _ & _ & Hreach).
      assert (rtc (depends_on stages) n0 (x (S N))) as Hreach'
        by (eapply rtc_r; [exact Hreach|exact Hdep]).
      destruct (decide (x (S N) = proto_key)) as [Hp|Hp].
      + left. exists (x (S N)). split; [done|]. right. done.
      + right. intros i Hi. destruct (decide (i = S N)) as [->|Hne].
        * by split_and!.
        * apply IH. lia. }
  destruct (Hall (length (stageNames stages))) as [|Hgood]; [done|].
  assert (Htc : ∀ k i, i + S k ≤ length (stageNames stages) →
            tc (depends_on stages) (x i) (x (i + S k))).
  { induction k as [|k IH]; intros i Hle.
    - rewrite Nat.add_1_r. apply tc_once, Hnext, Hgood. lia.
    - replace (i + S (S k)) with (S (i + S k)) by lia.
      eapply tc_r; [apply IH; lia|]. apply Hnext, Hgood. lia. }
  set (l := x <$> seq 0 (S (length (stageNames stages)))).
  destruct (decide (NoDup l)) as [Hnd|Hdup].
  - exfalso.
    assert (l ⊆+ stageNames stages) as Hsub.
    { apply NoDup_submseteq; [done|]. intros y Hy.
      apply list_elem_of_fmap in Hy as (i & -> & Hi).
      apply elem_of_seq in Hi. apply Hgood. lia. }
    apply submseteq_length in Hsub. unfold l in Hsub.
    rewrite length_fmap, length_seq in Hsub. lia.
  - apply repeated_element in Hdup as (i & j & y & Hlt & Hi & Hj).
    unfold l in Hi, Hj. rewrite list_lookup_fmap in Hi, Hj.
    destruct (seq 0 _ !! i) as [i'|] eqn:Ei; [|done].
    destruct (seq 0 _ !! j) as [j'|] eqn:Ej; [|done].
    apply lookup_seq in Ei as [-> _]. apply lookup_seq in Ej as [-> Hjle].
    cbn [fmap option_fmap option_map Nat.add] in Hi, Hj.
    assert (x j = x i) as Heq by congruence.
    exists (x i). split; [apply Hgood; lia|]. left. unfold on_cycle.
    enough (tc (depends_on stages) (x i) (x j)) as Hloop
      by (by rewrite Heq in Hloop).
    replace j with (i + S (j - i - 1)) by lia. apply Htc. lia.
Qed.

(** X13: On every graph with distinct, resolved stage names [topologicalSort]
    either returns an order of all stages with dependencies first, and
    then the graph has no cycle and no stage is named [__proto__], or
    throws the error that lists, in definition order, exactly the stages
    that cannot be emitted: those on a cycle, the stage named [__proto__],
    and the stages that reach one of these along their dependencies. It
    throws nothing else. *)
Theorem sorter_lists_exactly_the_blocked_stages (stages : list Stage) :
  NoDup (stageNames stages) → resolved stages →
  match topologicalSort stages with
  | inr order =>
      acyclic stages ∧
      (proto_key ∉ stageNames stages) ∧
      order ≡ₚ stageNames stages ∧
      ∀ s d, s ∈ stages → d ∈ dependencies s → before order d (name s)
  | inl (CircularInvolving remaining) =>
      (¬ acyclic stages ∨ proto_key ∈ stageNames stages) ∧
      remaining ≠ [] ∧
      sublist remaining (stageNames stages) ∧
      ∀ n, n ∈ remaining ↔ blocked stages n
  | inl _ => False
  end.
Proof.
  intros Hnd Hres.
  destruct (topologicalSort_spec stages Hnd Hres)
    as (result & visited & ind & Hinv & ->).
  destruct Hinv as [_ Hndr Hnames [Hproto _] _ Hready Htopo].
  rewrite app_nil_r in *.
  assert (Hblocked : ∀ n, n ∈ stageNames stages → (n ∉ result ↔ blocked stages n)).
  { intros n Hn. split.
    - by apply unemitted_is_blocked.
    - by apply blocked_is_unemitted. }
  destruct (Nat.eqb_spec (length result) (length (stageNames stages)))
    as [Hlen|Hlen]; cbn [negb].
  - assert (result ≡ₚ stageNames stages) as Hperm.
    { apply submseteq_length_Permutation; [|lia]. by apply NoDup_submseteq. }
    split_and!; [| |done|].
    + intros n Hn. apply (on_cycle_not_emitted stages result n Htopo Hndr Hn).
      rewrite Hperm. by apply on_cycle_is_stage.
    + by rewrite <- Hperm.
    + intros s d Hs Hd. apply (topo_before stages); [done| |by exists s].
      rewrite Hperm. apply list_elem_of_In, in_map, list_elem_of_In, Hs.
  - set (remaining := List.filter _ _).
    assert (Hin : ∀ n, n ∈ remaining ↔ blocked stages n).
    { intros n. unfold remaining. split.
      - intros [Hn Hout]%list_elem_of_In%filter_In.
        apply list_elem_of_In in Hn. apply Hblocked; [done|].
        apply negb_true_iff, not_true_iff_false in Hout.
        by rewrite includes_true in Hout.
      - intros Hb. pose proof (blocked_is_stage _ _ Hb) as Hn.
        apply list_elem_of_In, filter_In. split; [by apply list_elem_of_In|].
        apply negb_true_iff, not_true_iff_false. rewrite includes_true.
        by apply Hblocked. }
    assert (Hne : remaining ≠ []).
    { intros Hnil. apply Hlen.
      assert (result ≡ₚ stageNames stages) as Hperm; [|by rewrite Hperm].
      apply NoDup_Permutation; [done..|]. intros n. split; [apply Hnames|].
      intros Hn. destruct (decide (n ∈ result)) as [|Hout]; [done|]. exfalso.
      apply (Hblocked n Hn), Hin in Hout. rewrite Hnil in Hout.
      by apply elem_of_nil in Hout. }
    split_and!; [|done| |done].
    + destruct remaining as [|n rest] eqn:E; [done|].
      destruct (proj1 (Hin n) ltac:(by left)) as (m & _ & [Hm|[-> Hm]]).
      * left. intros Hacyc. by apply (Hacyc m).
      * by right.
    + unfold remaining. clear. induction (stageNames stages) as [|n l IH];
        cbn; [constructor|].
      destruct (negb _); by constructor.
Qed.

Lemma sorter_lists_exactly_the_blocked_stages_witness :
  match topologicalSort Scenario.loop with
  | inr order =>
      acyclic Scenario.loop ∧
      (proto_key ∉ stageNames Scenario.loop) ∧
      order ≡ₚ stageNames Scenario.loop ∧
      ∀ s d, s ∈ Scenario.loop → d ∈ dependencies s → before order d (name s)
  | inl (CircularInvolving remaining) =>
      (¬ acyclic Scenario.loop ∨ proto_key ∈ stageNames Scenario.loop) ∧
      remaining ≠ [] ∧
      sublist remaining (stageNames Scenario.loop) ∧
      ∀ n, n ∈ remaining ↔ blocked Scenario.loop n
  | inl _ => False
  end.
Proof.
  destruct (validateWorkflow_sound (Scenario.simple_workflow Scenario.loop) eq_refl)
    as [Hnd Hres].
  exact (sorter_lists_exactly_the_blocked_stages Scenario.loop Hnd Hres).
Defined.

End DefinitionFacts.

(** ** The retry loop and the spawner *)

Module RunFacts.
Import Text Data Evidence Queue Executor Scheduler Graph Order Halting Runs.
Import SortFacts ExecutorFacts SchedulerFacts DefinitionFacts.

Lemma attempts_loop_calls rt mods env stage workflow len :
  ∀ a si lastError w out w',
    attempts_loop rt mods env stage workflow (seq a len) si lastError w
      = (out, w') →
    calls w ≤ calls w' ≤ calls w + len ∧
    ∃ new, log w' = log w ++ new ∧
      (∀ e n, e ∈ new → started_stage e = Some n → n = name stage) ∧
      (errorHandler mods || checkpoint mods = true →
       calls w' ≤ calls w + 1 ∧
       (∀ e, e ∈ new → is_retry e = false) ∧
       ∀ f, out = inl f → 0 < len → f = ReferenceError).
Proof.
  induction len as [|len IH]; intros a si lastError w out w' Hloop.
  - cbn in Hloop. injection Hloop as <- <-. split; [lia|].
    exists []. rewrite app_nil_r. split_and!; try done.
    + by intros e n ?%elem_of_nil.
    + intros _. split_and!; [lia| |intros; lia]. by intros e ?%elem_of_nil.
  - cbn [seq attempts_loop] in Hloop.
    destruct (run_attempt rt (attemptEnv env (calls w)) stage workflow a si)
      as [[message|r] si'] eqn:Hrun.
    + destruct (errorHandler mods || checkpoint mods) eqn:Hloaded.
      { injection Hloop as <- <-. cbn. split; [lia|].
        exists [StageStarted (name stage) a; StageFailed (name stage) a message].
        split; [by rewrite <- app_assoc|]. split_and!.
        - intros e n. rewrite !elem_of_cons, elem_of_nil.
          intros [->|[->|[]]]; cbn; congruence.
        - intros _. split_and!; [lia| |by intros f [= <-]].
          intros e. rewrite !elem_of_cons, elem_of_nil.
          by intros [->|[->|[]]]. }
      destruct (negb (a <=? effective_retries stage workflow)).
      { injection Hloop as <- <-. cbn. split; [lia|].
        exists [StageStarted (name stage) a; StageFailed (name stage) a message;
                StageHalted (name stage) a].
        split; [by rewrite <- !app_assoc|]. split; [|done].
        intros e n. rewrite !elem_of_cons, elem_of_nil.
        intros [->|[->|[->|[]]]]; cbn; congruence. }
      apply IH in Hloop as (Hcalls & new & Hlog & Hnames & _).
      cbn in Hcalls, Hlog. split; [lia|].
      rewrite <- !app_assoc in Hlog. cbn [app] in Hlog.
      eexists. split; [exact Hlog|]. split; [|done].
      intros e n. rewrite !elem_of_cons.
      intros [->|[->|[->|Hin]]]; cbn; try congruence. by apply Hnames.
    + injection Hloop as <- <-. cbn. split; [lia|].
      exists [StageStarted (name stage) a; StageComplete (name stage)].
      split; [by rewrite <- app_assoc|]. split.
      * intros e n. rewrite !elem_of_cons, elem_of_nil.
        intros [->|[->|[]]]; cbn; congruence.
      * intros _. split_and!; [lia| |by intros f [=]].
        intros e. rewrite !elem_of_cons, elem_of_nil.
        by intros [->|[->|[]]].
Qed.

Lemma executeStage_calls rt mods env stage workflow stageOutputs w out w' :
  executeStage rt mods env stage workflow stageOutputs w = (out, w') →
  calls w ≤ calls w' ≤ calls w + (effective_retries stage workflow + 1) ∧
  ∃ new, log w' = log w ++ new ∧
    (∀ e n, e ∈ new → started_stage e = Some n → n = name stage) ∧
    (errorHandler mods || checkpoint mods = true →
     calls w' ≤ calls w + 1 ∧
     (∀ e, e ∈ new → is_retry e = false) ∧
     ∀ f, out = inl f →
          f = ReferenceError ∨ ∃ message, f = ContextFromFailed message).
Proof.
  unfold executeStage.
  destruct (match contextFrom stage with Some _ => _ | None => _ end).
  - intros [= <- <-]. split; [lia|]. exists []. rewrite app_nil_r.
    split_and!; try done.
    + by intros e n ?%elem_of_nil.
    + intros _. split_and!; [lia| |].
      * by intros e ?%elem_of_nil.
      * intros f [= <-]. right. by eexists.
  - intros Hloop.
    apply attempts_loop_calls in Hloop as (Hcalls & new & Hlog & Hnames & Hloaded).
    split; [done|]. exists new. split_and!; try done.
    intros Hmods. destruct (Hloaded Hmods) as (? & ? & Hf).
    split_and!; try done. intros f ->. left. apply Hf; [done|lia].
Qed.

(** X14: With the error handler or the checkpoint library loaded, a stage is
    never retried: [executeStage] calls the spawner at most once, logs no
    retry, and what it throws is the ReferenceError of its [catch] block
    (or the error of [contextFrom]), never the report of exhausted
    retries. *)
Theorem loaded_handler_prevents_every_retry (rt : Runtime) (mods : Modules)
    (env : Environment) (stage : Stage) (workflow : Workflow)
    (stageOutputs : gmap string StageResult) (w : World) :
  errorHandler mods || checkpoint mods = true →
  let run := executeStage rt mods env stage workflow stageOutputs w in
  calls run.2 ≤ calls w + 1 ∧
  (∃ new, log run.2 = log w ++ new ∧ ∀ e, e ∈ new → is_retry e = false) ∧
  ∀ f, run.1 = inl f →
       f = ReferenceError ∨ ∃ message, f = ContextFromFailed message.
Proof.
  intros Hmods. cbn zeta.
  destruct (executeStage _ _ _ _ _ _ _) as [out w'] eqn:Hrun.
  apply executeStage_calls in Hrun as (_ & new & Hlog & _ & Hloaded).
  destruct (Hloaded Hmods) as (? & ? & ?). split_and!; try done.
  by exists new.
Qed.

Lemma loaded_handler_prevents_every_retry_witness :
  let run :=
    executeStage Scenario.rt Scenario.all_modules Scenario.hostile
      Scenario.build (Scenario.simple_workflow [Scenario.build]) ∅
      Scenario.start in
  calls run.2 ≤ calls Scenario.start + 1 ∧
  (∃ new, log run.2 = log Scenario.start ++ new ∧
          ∀ e, e ∈ new → is_retry e = false) ∧
  ∀ f, run.1 = inl f →
       f = ReferenceError ∨ ∃ message, f = ContextFromFailed message.
Proof.
  apply (loaded_handler_prevents_every_retry Scenario.rt Scenario.all_modules
           Scenario.hostile Scenario.build
           (Scenario.simple_workflow [Scenario.build]) ∅ Scenario.start).
  reflexivity.
Defined.

(** *** What a complete result went through *)

Lemma run_attempt_validated rt ae stage workflow attempt si r si' :
  run_attempt rt ae stage workflow attempt si = (inr r, si') →
  ∃ output,
    sr_output r = Some output ∧
    ae_saveError ae = None ∧
    sr_file r = Some (outputFile rt workflow (name stage)) ∧
    valid (validateCompletionEvidence rt (ae_fs ae) (ae_validateAt ae) output
             (name stage) (isDocStage (name stage))) = true ∧
    sr_evidence r
    = evidence (validateCompletionEvidence rt (ae_fs ae) (ae_validateAt ae)
                  output (name stage) (isDocStage (name stage))) ∧
    ∀ sessionId, nonempty (sr_sessionId r) = Some sessionId →
      detectAbandonedStage (ae_sessions ae) (ae_now ae) (ae_outputFiles ae)
        sessionId = false ∧
      ∃ session,
        ae_wait ae = Completed session ∧
        sr_sessionTranscript r = session ≫= s_messages.
Proof.
  assert (Hfinish : ∀ spawned output si0,
    finish_attempt rt ae stage workflow attempt spawned output si0 = inr r →
    sr_output r = Some output ∧
    ae_saveError ae = None ∧
    sr_file r = Some (outputFile rt workflow (name stage)) ∧
    valid (validateCompletionEvidence rt (ae_fs ae) (ae_validateAt ae) output
             (name stage) (isDocStage (name stage))) = true ∧
    sr_evidence r
    = evidence (validateCompletionEvidence rt (ae_fs ae) (ae_validateAt ae)
                  output (name stage) (isDocStage (name stage))) ∧
    sr_sessionId r = sp_sessionId spawned ∧
    sr_sessionTranscript r = si0 ≫= c_transcript).
  { intros spawned output si0. unfold finish_attempt.
    destruct (ae_saveError ae); [done|].
    destruct (valid _) eqn:Hvalid; [|done]. cbn. by intros [= <-]. }
  unfold run_attempt. destruct (ae_spawn ae) as [|spawned]; [done|].
  destruct (nonempty (sp_sessionId spawned)) as [sessionId|] eqn:Hid.
  - destruct (ae_wait ae) as [|session]; [done|].
    destruct (detectAbandonedStage _ _ _ _) eqn:Hab; [done|].
    intros [= Hr _].
    apply Hfinish in Hr as (Hout & Hsave & Hfile & Hvalid & Hev & Hsid & Htr).
    eexists. split_and!; try done.
    intros sessionId'. rewrite Hsid, Hid. intros [= <-]. split; [done|].
    by exists session.
  - intros [= Hr _].
    apply Hfinish in Hr as (Hout & Hsave & Hfile & Hvalid & Hev & Hsid & Htr).
    eexists. split_and!; try done.
    intros sessionId'. by rewrite Hsid, Hid.
Qed.

Lemma attempts_loop_validated rt mods env stage workflow len :
  ∀ a si lastError w r w',
    attempts_loop rt mods env stage workflow (seq a len) si lastError w
      = (inr r, w') →
    calls w < calls w' ∧
    ∃ attempt si0 si1,
      run_attempt rt (attemptEnv env (calls w' - 1)) stage workflow attempt si0
      = (inr r, si1).
Proof.
  induction len as [|len IH]; intros a si lastError w r w' Hloop; [done|].
  cbn [seq attempts_loop] in Hloop.
  destruct (run_attempt rt (attemptEnv env (calls w)) stage workflow a si)
    as [[message|r0] si'] eqn:Hrun.
  - destruct (errorHandler mods || checkpoint mods); [done|].
    destruct (negb (a <=? effective_retries stage workflow)); [done|].
    apply IH in Hloop as [Hcalls Hrest]. cbn in Hcalls. split; [lia|done].
  - injection Hloop as <- <-. cbn. split; [lia|].
    rewrite Nat.sub_0_r. by exists a, si, si'.
Qed.

(** X24: A complete result of [executeStage] comes from an attempt, the last
    call of the spawner, in which the output was saved and
    [validateCompletionEvidence] accepted that output; the evidence of the
    result is the one the validator extracted. When the spawner named a
    session, the session was awaited to its completion, was not found
    abandoned, and its messages are the transcript of the result. *)
Theorem complete_stages_passed_the_evidence_check (rt : Runtime)
    (mods : Modules) (env : Environment) (stage : Stage) (workflow : Workflow)
    (stageOutputs : gmap string StageResult) (w w' : World)
    (result : StageResult) :
  executeStage rt mods env stage workflow stageOutputs w = (inr result, w') →
  calls w < calls w' ∧
  let ae := attemptEnv env (calls w' - 1) in
  ∃ output,
    sr_output result = Some output ∧
    ae_saveError ae = None ∧
    sr_file result = Some (outputFile rt workflow (name stage)) ∧
    valid (validateCompletionEvidence rt (ae_fs ae) (ae_validateAt ae) output
             (name stage) (isDocStage (name stage))) = true ∧
    sr_evidence result
    = evidence (validateCompletionEvidence rt (ae_fs ae) (ae_validateAt ae)
                  output (name stage) (isDocStage (name stage))) ∧
    ∀ sessionId, nonempty (sr_sessionId result) = Some sessionId →
      detectAbandonedStage (ae_sessions ae) (ae_now ae) (ae_outputFiles ae)
        sessionId = false ∧
      ∃ session,
        ae_wait ae = Completed session ∧
        sr_sessionTranscript result = session ≫= s_messages.
Proof.
  unfold executeStage.
  destruct (match contextFrom stage with Some _ => _ | None => _ end); [done|].
  intros Hloop.
  apply attempts_loop_validated in Hloop
    as (Hcalls & attempt & si0 & si1 & Hrun).
  split; [done|]. by apply run_attempt_validated in Hrun.
Qed.

Lemma complete_stages_passed_the_evidence_check_witness :
  ∃ result w' output,
    executeStage Scenario.rt Scenario.no_modules Scenario.cooperative
      Scenario.build (Scenario.simple_workflow [Scenario.build]) ∅
      Scenario.start = (inr result, w') ∧
    sr_output result = Some output ∧
    valid (validateCompletionEvidence Scenario.rt
             (ae_fs (attemptEnv Scenario.cooperative (calls w' - 1)))
             (ae_validateAt (attemptEnv Scenario.cooperative (calls w' - 1)))
             output (name Scenario.build)
             (isDocStage (name Scenario.build))) = true.
Proof.
  destruct (executeStage Scenario.rt Scenario.no_modules Scenario.cooperative
              Scenario.build (Scenario.simple_workflow [Scenario.build]) ∅
              Scenario.start) as [[failure|result] w'] eqn:Hrun;
    [vm_compute in Hrun; discriminate Hrun|].
  destruct (complete_stages_passed_the_evidence_check Scenario.rt
              Scenario.no_modules Scenario.cooperative Scenario.build
              (Scenario.simple_workflow [Scenario.build]) ∅ Scenario.start w'
              result Hrun)
    as (_ & output & Hout & _ & _ & Hvalid & _).
  exists result, w', output.
  split; [reflexivity|]. split; [exact Hout|exact Hvalid].
Defined.


(** *** The spawner calls of a pass *)

Lemma find_stage_Some workflow n stage :
  find_stage workflow n = Some stage → stage ∈ stages workflow ∧ name stage = n.
Proof.
  intros [Hin Heq]%find_some. split; [by apply list_elem_of_In|].
  by apply String.eqb_eq.
Qed.

Lemma find_stage_unique workflow stage :
  NoDup (stageNames (stages workflow)) → stage ∈ stages workflow →
  find_stage workflow (name stage) = Some stage.
Proof.
  unfold find_stage, stageNames. induction (stages workflow) as [|s l IH];
    intros Hnd Hin; [by apply elem_of_nil in Hin|].
  cbn in *. apply NoDup_cons in Hnd as [Hs Hnd].
  destruct (String.eqb_spec (name s) (name stage)) as [Heq|Hne].
  - apply elem_of_cons in Hin as [->|Hin]; [done|]. exfalso. apply Hs.
    rewrite Heq. apply list_elem_of_In, in_map, list_elem_of_In, Hin.
  - apply elem_of_cons in Hin as [->|Hin]; [done|]. by apply IH.
Qed.

Lemma find_stage_is_Some workflow n :
  n ∈ stageNames (stages workflow) → is_Some (find_stage workflow n).
Proof.
  intros (s & <- & Hs)%list_elem_of_In%in_map_iff.
  unfold find_stage. destruct (List.find _ _) eqn:Hfind; [done|].
  pose proof (find_none _ _ Hfind s Hs) as Hno. cbn in Hno.
  by rewrite String.eqb_refl in Hno.
Qed.

Lemma schedule_stage_calls host env now workflow workflowState stage outputs w
    r threw w' :
  schedule_stage host env now workflow workflowState stage outputs w
    = (r, threw, w') →
  calls w ≤ calls w' ≤ calls w + (effective_retries stage workflow + 1) ∧
  ∃ new, log w' = log w ++ new ∧
    ∀ e n, e ∈ new → started_stage e = Some n → n = name stage.
Proof.
  unfold schedule_stage.
  destruct (executeStage _ _ _ _ _ _ _) as [[failure|result] w1] eqn:Hexec;
    apply executeStage_calls in Hexec as (Hcalls & new & Hlog & Hnames & _);
    intros [= <- <- <-];
    (split; [by destruct workflowState, (persistence (modules host))|]);
    exists new; (split; [|done]);
    by destruct workflowState, (persistence (modules host)).
Qed.

Lemma turn_calls host env now workflow isResume workflowState stopOnError
    stageName outputs failedStage w :
  let w' :=
    turn_world (turn host env now workflow isResume workflowState stopOnError
                  stageName outputs failedStage w) in
  calls w ≤ calls w'
    ≤ calls w + turn_budget workflow isResume workflowState stageName ∧
  ∃ new, log w' = log w ++ new ∧
    ∀ e n, e ∈ new → started_stage e = Some n →
      n = stageName ∧
      already_complete isResume workflowState stageName = None ∧
      ∃ stage, find_stage workflow n = Some stage ∧ unmet outputs stage = [].
Proof.
  unfold turn, turn_budget, name_budget, find_stage.
  destruct (List.find _ _) as [stage|] eqn:Hfind.
  2:{ cbn. split; [destruct (already_complete _ _ _); lia|].
      exists []. rewrite app_nil_r. split; [done|]. by intros e n ?%elem_of_nil. }
  destruct (already_complete isResume workflowState stageName) eqn:Hac.
  { cbn. split; [lia|]. exists [StageAlreadyComplete stageName].
    split; [done|]. by intros e n ->%list_elem_of_singleton [=]. }
  change (List.filter _ (dependencies stage)) with (unmet outputs stage).
  destruct (unmet outputs stage) as [|dep deps] eqn:Hunmet.
  - destruct (schedule_stage _ _ _ _ _ _ _ _) as [[r threw] w1] eqn:Hsched.
    apply schedule_stage_calls in Hsched as (Hc & new & Hlog & Hnames).
    assert (Hw : ∀ A B C, turn_world (if threw then if stopOnError
              then Break A (Some stageName) w1
              else Continue B (Some stageName) w1
            else Continue C failedStage w1) = w1)
      by (intros; by destruct threw, stopOnError).
    cbn zeta. rewrite Hw. split; [done|]. exists new. split; [done|].
    intros e n He Hst. apply find_stage_Some in Hfind as Hstage.
    destruct Hstage as [_ Hname].
    rewrite (Hnames e n He Hst), Hname. split; [done|]. split; [done|].
    exists stage. by split.
  - cbn. split; [lia|]. exists [StageSkipped stageName].
    split; [done|]. by intros e n ->%list_elem_of_singleton [=].
Qed.

Lemma run_stages_calls host env now workflow isResume workflowState
    stopOnError order :
  ∀ outputs failedStage w res w',
    run_stages host env now workflow isResume workflowState stopOnError order
      outputs failedStage w = (res, w') →
    calls w ≤ calls w'
      ≤ calls w
        + sum_list_with (turn_budget workflow isResume workflowState) order ∧
    ∃ new, log w' = log w ++ new ∧
      ∀ e n, e ∈ new → started_stage e = Some n →
        n ∈ order ∧ already_complete isResume workflowState n = None.
Proof.
  induction order as [|stageName rest IH];
    intros outputs failedStage w res w' Hrun.
  - cbn in Hrun. injection Hrun as <- <-. split; [cbn; lia|].
    exists []. rewrite app_nil_r. split; [done|]. by intros e n ?%elem_of_nil.
  - cbn [run_stages] in Hrun.
    pose proof (turn_calls host env now workflow isResume workflowState
                  stopOnError stageName outputs failedStage w)
      as (Hc & new & Hlog & Hnew).
    cbn [sum_list_with].
    destruct (turn _ _ _ _ _ _ _ _ _ _ _) as [o f w1|o f w1|w1];
      cbn [turn_world] in Hc, Hlog.
    + apply IH in Hrun as (Hc' & new' & Hlog' & Hnew').
      split; [lia|]. exists (new ++ new').
      split; [by rewrite Hlog', Hlog, app_assoc|].
      intros e n [He|He]%elem_of_app Hst.
      * destruct (Hnew e n He Hst) as (-> & Hac & _). split; [by left|done].
      * destruct (Hnew' e n He Hst) as [Hin Hac]. split; [by right|done].
    + injection Hrun as <- <-. split; [lia|]. exists new. split; [done|].
      intros e n He Hst.
      destruct (Hnew e n He Hst) as (-> & Hac & _). split; [by left|done].
    + injection Hrun as <- <-. split; [lia|]. exists new. split; [done|].
      intros e n He Hst.
      destruct (Hnew e n He Hst) as (-> & Hac & _). split; [by left|done].
Qed.

Lemma turn_budget_le workflow isResume workflowState n :
  turn_budget workflow isResume workflowState n ≤ name_budget workflow n.
Proof. unfold turn_budget. destruct (already_complete _ _ _); lia. Qed.

Lemma sum_list_with_le {A} (f g : A → nat) l :
  (∀ x, f x ≤ g x) → sum_list_with f l ≤ sum_list_with g l.
Proof.
  intros Hle. induction l as [|x l IH]; cbn; [lia|]. specialize (Hle x). lia.
Qed.

Lemma sum_list_with_names (f : Stage → nat) (g : string → nat) l :
  (∀ s, s ∈ l → g (name s) = f s) →
  sum_list_with g (map name l) = sum_list (map f l).
Proof.
  induction l as [|s l IH]; intros Hall; [done|].
  cbn. rewrite Hall by (by left). f_equal. apply IH.
  intros s' Hs'. apply Hall. by right.
Qed.

Lemma name_budget_total workflow :
  NoDup (stageNames (stages workflow)) →
  sum_list_with (name_budget workflow) (stageNames (stages workflow))
  = attempt_budget workflow.
Proof.
  intros Hnd. apply sum_list_with_names.
  intros s Hs. unfold name_budget. by rewrite find_stage_unique.
Qed.

Lemma begin_pass_calls host pe workflow order cur mx context w
    workflowState isResume context' w1 :
  begin_pass host pe workflow order cur mx context w
    = inr (workflowState, isResume, context', w1) →
  calls w1 = calls w ∧ log w1 = log w ∧
  (persistence (modules host) = false ∨ nonempty (ctx_workflowId context) = None →
   isResume = false ∧ context' = context).
Proof.
  unfold begin_pass, fresh_pass.
  destruct (persistence (modules host)) eqn:Hp.
  - destruct (nonempty (ctx_workflowId context)) as [id|].
    + destruct (Persistence.resumeWorkflow _ _ _) as [message|[data σ]].
      * destruct (ctx_requireResume context) as [[|]|]; try done.
        intros [= <- <- <- <-]. split; [done|]. split; [done|].
        by intros [|].
      * intros [= <- <- <- <-]. split; [done|]. split; [done|]. by intros [|].
    + intros [= <- <- <- <-]. done.
  - intros [= <- <- <- <-]. done.
Qed.

Lemma mark_completed_calls host now workflowState success w :
  calls (mark_completed host now workflowState success w) = calls w ∧
  log (mark_completed host now workflowState success w) = log w.
Proof.
  unfold mark_completed.
  by destruct workflowState, (persistence (modules host) && success).
Qed.

(** The world at the end of a pass. *)
Lemma run_pass_calls host env workflow context w :
  let w' :=
    match run_pass host env workflow context w with
    | Done _ w' => w'
    | Recurse _ w' => w'
    end in
  calls w ≤ calls w' ≤ calls w + attempt_budget workflow.
Proof.
  unfold run_pass.
  destruct (validateWorkflow workflow) as [|v vs] eqn:Hval; [|cbn; lia].
  destruct (validateWorkflow_sound workflow Hval) as [Hnd Hres].
  destruct (topologicalSort (stages workflow)) as [e|order] eqn:Hsort;
    [cbn; lia|].
  destruct (topologicalSort_inr _ _ Hnd Hres Hsort) as (Hperm & Hndo & Htopo).
  destruct (begin_pass _ _ _ _ _ _ _ _)
    as [message|[[[workflowState isResume] context'] w1]] eqn:Hbegin;
    [cbn; lia|].
  apply begin_pass_calls in Hbegin as (Hc1 & _). cbn [count_pass calls] in Hc1.
  destruct (resourceManager (modules host) && _); [cbn; lia|].
  destruct (run_stages _ _ _ _ _ _ _ _ _ _ _) as [res w2] eqn:Hrun.
  apply run_stages_calls in Hrun as (Hc2 & _). cbn [emit calls] in Hc2.
  assert (calls w ≤ calls w2 ≤ calls w + attempt_budget workflow) as Hc.
  { rewrite <- (name_budget_total workflow Hnd), <- Hperm.
    pose proof (sum_list_with_le _ _ order
                  (turn_budget_le workflow isResume workflowState)). lia. }
  destruct res as [[outputs failedStage]|]; [|done].
  cbn zeta.
  repeat match goal with
  | |- context [if ?b then _ else _] => destruct b
  end; cbn [emit calls]; rewrite ?(proj1 (mark_completed_calls _ _ _ _ _)); done.
Qed.

Lemma run_pass_log host env workflow context w :
  match run_pass host env workflow context w with
  | Done _ w' => ∃ new, log w' = log w ++ new ∧ restarts new = 0
  | Recurse _ w' => ∃ new, log w' = log w ++ new ∧ restarts new = 1
  end.
Proof.
  pose proof (run_pass_spec host env workflow context w) as Hspec.
  cbn zeta in Hspec.
  by destruct (run_pass host env workflow context w); destruct Hspec as [? _].
Qed.

Lemma executeWorkflow_rec_calls host env workflow budget :
  ∀ context w,
    let run := executeWorkflow_rec budget host env workflow context w in
    ∃ new, log run.2 = log w ++ new ∧
      calls w ≤ calls run.2
        ≤ calls w + S (restarts new) * attempt_budget workflow.
Proof.
  induction budget as [|budget IH]; intros context w.
  { exists []. cbn. rewrite app_nil_r. split; [done|]. lia. }
  cbn [executeWorkflow_rec].
  pose proof (run_pass_calls host env workflow context w) as Hc.
  pose proof (run_pass_log host env workflow context w) as Hlog.
  destruct (run_pass host env workflow context w) as [outcome w1|context1 w1];
    cbn zeta in Hc |- *; destruct Hlog as (new & Hlog & Hre).
  - exists new. cbn [snd]. split; [done|]. rewrite Hre. lia.
  - destruct (IH context1 w1) as (new' & Hlog' & Hc').
    exists (new ++ new'). split; [by rewrite Hlog', Hlog, app_assoc|].
    rewrite restarts_app, Hre. lia.
Qed.

(** X15: Every pass of the scheduler calls the spawner at most once for each
    attempt that the retry settings allow: a run calls it at most
    (restarts + 1) times the sum over the stages of retries + 1, hence at most
    (maxIterations + 1) times that sum. *)
Theorem spawner_calls_stay_within_the_attempt_budget (host : Host)
    (env : Environment) (workflow : Workflow) (context : Context) (w : World) :
  let run := executeWorkflow host env workflow context w in
  ∃ new, log run.2 = log w ++ new ∧
    calls w ≤ calls run.2 ∧
    calls run.2 ≤ calls w + S (restarts new) * attempt_budget workflow ∧
    calls run.2
      ≤ calls w + S (effective_maxIterations workflow) * attempt_budget workflow.
Proof.
  intros run. subst run.
  destruct (executeWorkflow_rec_calls host env workflow
              (S (effective_maxIterations workflow)) context w)
    as (new & Hlog & Hc).
  fold (executeWorkflow host env workflow context w) in Hlog, Hc.
  executeWorkflow_spec host env workflow context w
    as ((new' & Hlog' & Hre & _) & _).
  assert (new' = new) as -> by (eapply app_inv_head; by rewrite <- Hlog, <- Hlog').
  exists new. split; [done|]. split; [lia|]. split; [lia|].
  etrans; [apply Hc|]. apply Nat.add_le_mono_l, Nat.mul_le_mono_r. lia.
Qed.


(** *** What a pass that does not resume keeps *)

Lemma before_in_prefix pre m post d n :
  NoDup (pre ++ m :: post) → n ∈ pre ++ [m] →
  before (pre ++ m :: post) d n → d ∈ pre.
Proof.
  intros Hnd Hn (i & j & Hi & Hj & Hlt).
  apply list_elem_of_lookup in Hn as [j' Hj'].
  pose proof (lookup_lt_Some _ _ _ Hj') as Hlen.
  rewrite length_app in Hlen. cbn in Hlen.
  assert (j = j') as ->.
  { eapply NoDup_lookup; [done..|].
    rewrite (cons_middle m), app_assoc. by apply lookup_app_l_Some. }
  rewrite lookup_app_l in Hi by lia. by eapply list_elem_of_lookup_2.
Qed.

Lemma unmet_insert workflow pre m post outputs r n stage :
  NoDup (pre ++ m :: post) → topo (stages workflow) (pre ++ m :: post) →
  n ∈ pre ++ [m] → find_stage workflow n = Some stage →
  unmet (<[m := r]> outputs) stage = unmet outputs stage ∧
  ∀ d, d ∈ dependencies stage → d ∈ pre.
Proof.
  intros Hnd Htopo Hn Hfind.
  assert (Hdeps : ∀ d, d ∈ dependencies stage → d ∈ pre).
  { intros d Hd. apply (before_in_prefix pre m post d n); [done..|].
    apply (topo_before (stages workflow)); [done| |].
    - rewrite (cons_middle m), app_assoc. apply elem_of_app. by left.
    - apply find_stage_Some in Hfind as [Hs Hname]. by exists stage. }
  split; [|done]. unfold unmet. apply filter_ext_in.
  intros d Hd%list_elem_of_In%Hdeps. unfold is_complete.
  rewrite lookup_insert_ne; [done|]. intros ->.
  apply NoDup_app in Hnd as (_ & Hdisj & _). apply (Hdisj _ Hd). by left.
Qed.

Lemma unmet_elem outputs stage d :
  d ∈ unmet outputs stage ↔
  d ∈ dependencies stage ∧ is_complete outputs d = false.
Proof.
  unfold unmet. rewrite !list_elem_of_In, filter_In, negb_true_iff. done.
Qed.

Lemma unmet_nil outputs stage :
  unmet outputs stage = [] ↔
  ∀ d, d ∈ dependencies stage → is_complete outputs d = true.
Proof.
  split.
  - intros Hnil d Hd. destruct (is_complete outputs d) eqn:Hc; [done|].
    assert (d ∈ unmet outputs stage) as Hin by (by apply unmet_elem).
    rewrite Hnil in Hin. by apply elem_of_nil in Hin.
  - intros Hall. destruct (unmet outputs stage) as [|d l] eqn:Hu; [done|].
    assert (d ∈ unmet outputs stage) as [Hd Hc]%unmet_elem
      by (rewrite Hu; by left).
    by rewrite Hall in Hc.
Qed.

Lemma fresh_inv_empty workflow stopOnError :
  fresh_inv workflow stopOnError [] ∅ None.
Proof.
  split.
  - intros n. rewrite lookup_empty. split; [by intros [? [=]]|].
    by intros ?%elem_of_nil.
  - intros n r stage Hr. by rewrite lookup_empty in Hr.
  - intros n r Hr. by rewrite lookup_empty in Hr.
Qed.

Lemma turn_fresh host env now workflow isResume workflowState stopOnError
    processed stageName rest outputs failedStage w :
  NoDup (processed ++ stageName :: rest) →
  topo (stages workflow) (processed ++ stageName :: rest) →
  is_Some (find_stage workflow stageName) →
  already_complete isResume workflowState stageName = None →
  fresh_inv workflow stopOnError processed outputs failedStage →
  (stopOnError = true → failedStage = None) →
  match turn host env now workflow isResume workflowState stopOnError
          stageName outputs failedStage w with
  | Crash _ => False
  | Continue outputs' failedStage' _ =>
      fresh_inv workflow stopOnError (processed ++ [stageName]) outputs'
        failedStage' ∧
      (stopOnError = true → failedStage' = None)
  | Break outputs' failedStage' _ =>
      fresh_inv workflow stopOnError (processed ++ [stageName]) outputs'
        failedStage' ∧
      is_Some failedStage' ∧ stopOnError = true
  end.
Proof.
  intros Hnd Htopo [stage Hfind] Hac [Hdom Hstatus Hfailed] Hstop.
  assert (Hfresh : stageName ∉ processed).
  { intros Hin. apply NoDup_app in Hnd as (_ & Hdisj & _).
    apply (Hdisj _ Hin). by left. }
  assert (Hnone : outputs !! stageName = None).
  { destruct (outputs !! stageName) eqn:Hl; [|done].
    exfalso. apply Hfresh, Hdom. by eexists. }
  assert (Hdom' : ∀ r n,
    is_Some (<[stageName := r]> outputs !! n) ↔ n ∈ processed ++ [stageName]).
  { intros r n. rewrite elem_of_app, list_elem_of_singleton, <- Hdom.
    destruct (decide (n = stageName)) as [->|Hne].
    - rewrite lookup_insert_eq. split; [by right|by eexists].
    - rewrite lookup_insert_ne by done. split; [by left|by intros [|]]. }
  assert (Hkeep : ∀ r n r0 stage0,
    <[stageName := r]> outputs !! n = Some r0 →
    find_stage workflow n = Some stage0 →
    unmet (<[stageName := r]> outputs) stage0 = unmet outputs stage0).
  { intros r n r0 stage0 Hr0 Hf0.
    apply (unmet_insert workflow processed stageName rest outputs r n);
      [done..| |done].
    apply (Hdom' r). by eexists. }
  assert (Hold : ∀ r F,
    (∃ r0, outputs !! F = Some r0 ∧ sr_status r0 = failed) →
    ∃ r0, <[stageName := r]> outputs !! F = Some r0 ∧ sr_status r0 = failed).
  { intros r F (r0 & Hr0 & Hs0). exists r0. split; [|done].
    rewrite lookup_insert_ne; [done|]. intros ->. by rewrite Hnone in Hr0. }
  unfold turn. unfold find_stage in Hfind. rewrite Hfind, Hac.
  change (List.filter _ (dependencies stage)) with (unmet outputs stage).
  destruct (unmet outputs stage) as [|dep deps] eqn:Hunmet.
  - destruct (schedule_stage _ _ _ _ _ _ _ _) as [[r threw] w1] eqn:Hsched.
    apply schedule_stage_spec in Hsched as (_ & _ & _ & new & _ & _ & Hcount).
    cbn zeta in Hcount.
    assert (Hinv : ∀ failedStage',
      (if threw then failedStage' = Some stageName
       else failedStage' = failedStage) →
      fresh_inv workflow stopOnError (processed ++ [stageName])
        (<[stageName := r]> outputs) failedStage').
    { intros failedStage' Hf'. split; [apply Hdom'| |].
      - intros n r0 stage0 Hr0 Hf0. rewrite (Hkeep r n r0 stage0 Hr0 Hf0).
        destruct (decide (n = stageName)) as [->|Hne].
        + rewrite lookup_insert_eq in Hr0. injection Hr0 as <-.
          unfold find_stage in Hf0. rewrite Hfind in Hf0. injection Hf0 as <-.
          by destruct threw; destruct Hcount as [-> _].
        + rewrite lookup_insert_ne in Hr0 by done. by apply (Hstatus n).
      - destruct threw; subst failedStage'.
        + exists r. rewrite lookup_insert_eq. by destruct Hcount as [-> _].
        + destruct failedStage as [F|]; [by apply Hold|].
          intros n r0 Hr0. destruct (decide (n = stageName)) as [->|Hne].
          * rewrite lookup_insert_eq in Hr0. injection Hr0 as <-.
            by destruct Hcount as [-> _].
          * rewrite lookup_insert_ne in Hr0 by done. by apply (Hfailed n). }
    destruct threw; [destruct stopOnError eqn:Hs|].
    + split; [by apply Hinv|]. split; [by eexists|done].
    + split; [by apply Hinv|]. done.
    + split; [by apply Hinv|]. done.
  - assert (Hdep : dep ∈ dependencies stage ∧ is_complete outputs dep = false)
      by (apply unmet_elem; rewrite Hunmet; by left).
    destruct Hdep as [Hdep Hincomplete].
    assert (Hin : dep ∈ processed).
    { apply (unmet_insert workflow processed stageName rest outputs
               (skipped_result []) stageName stage); [done..| | |done].
      - apply elem_of_app. right. by left.
      - done. }
    apply Hdom in Hin as [rd Hrd].
    assert (Hsome : ∃ F, failedStage = Some F).
    { destruct failedStage as [F|]; [by eexists|]. exfalso.
      unfold is_complete in Hincomplete. rewrite Hrd in Hincomplete.
      by rewrite (Hfailed dep rd Hrd) in Hincomplete. }
    destruct Hsome as [F ->].
    assert (stopOnError = false) as Hfalse.
    { destruct stopOnError; [|done]. by specialize (Hstop eq_refl). }
    split; [|by rewrite Hfalse].
    split; [apply Hdom'| |by apply Hold].
    intros n r0 stage0 Hr0 Hf0. rewrite (Hkeep _ n r0 stage0 Hr0 Hf0).
    destruct (decide (n = stageName)) as [->|Hne].
    + rewrite lookup_insert_eq in Hr0. injection Hr0 as <-.
      unfold find_stage in Hf0. rewrite Hfind in Hf0. injection Hf0 as <-.
      cbn. rewrite Hunmet. by split_and!.
    + rewrite lookup_insert_ne in Hr0 by done. by apply (Hstatus n).
Qed.

Lemma run_stages_fresh host env now workflow isResume workflowState
    stopOnError rest :
  ∀ processed outputs failedStage w,
    NoDup (processed ++ rest) →
    topo (stages workflow) (processed ++ rest) →
    (∀ n, n ∈ rest → is_Some (find_stage workflow n)) →
    (∀ n, already_complete isResume workflowState n = None) →
    fresh_inv workflow stopOnError processed outputs failedStage →
    (stopOnError = true → failedStage = None) →
    ∃ outputs' failedStage' processed' rest',
      (run_stages host env now workflow isResume workflowState stopOnError
         rest outputs failedStage w).1 = Some (outputs', failedStage') ∧
      processed ++ rest = processed' ++ rest' ∧
      fresh_inv workflow stopOnError processed' outputs' failedStage' ∧
      (failedStage' = None ∨ stopOnError = false → rest' = []).
Proof.
  induction rest as [|stageName rest IH];
    intros processed outputs failedStage w Hnd Htopo Hfind Hac Hinv Hstop.
  { exists outputs, failedStage, processed, []. by split_and!. }
  cbn [run_stages].
  pose proof (turn_fresh host env now workflow isResume workflowState
                stopOnError processed stageName rest outputs failedStage w
                Hnd Htopo (Hfind _ ltac:(by left)) (Hac _) Hinv Hstop) as Hturn.
  destruct (turn _ _ _ _ _ _ _ _ _ _ _) as [o f w1|o f w1|w1]; [| |done].
  - destruct Hturn as [Hinv' Hstop'].
    rewrite (cons_middle stageName), app_assoc in Hnd, Htopo |- *.
    apply IH; try done. intros n Hn. apply Hfind. by right.
  - destruct Hturn as (Hinv' & [F ->] & ->).
    exists o, (Some F), (processed ++ [stageName]), rest.
    split; [done|]. split; [by rewrite <- app_assoc|]. split; [done|].
    by intros [|].
Qed.

Lemma some_failed_false (outputs : gmap string StageResult) :
  (∀ n r, outputs !! n = Some r → sr_status r = complete) →
  some_failed outputs = false.
Proof.
  intros Hall. unfold some_failed. apply not_true_is_false.
  intros ([n r] & Hin%list_elem_of_In%elem_of_map_to_list & Hf)%existsb_exists.
  unfold is_failed in Hf. cbn in Hf. by rewrite (Hall n r Hin) in Hf.
Qed.

(** A pass that does not resume, either because the persistence module is
    not loaded or because the context names no workflow to resume. *)
Lemma run_pass_fresh host env workflow context w :
  persistence (modules host) = false ∨ nonempty (ctx_workflowId context) = None →
  match run_pass host env workflow context w with
  | Done outcome _ =>
      ∀ r, outcome = Returned r →
        NoDup (stageNames (stages workflow)) ∧
        r_executionOrder r ≡ₚ stageNames (stages workflow) ∧
        r_success r
          = is_none (r_failedStage r) && negb (some_failed (r_stages r)) ∧
        ∃ processed rest,
          r_executionOrder r = processed ++ rest ∧
          fresh_inv workflow (default true (stopOnError workflow)) processed
            (r_stages r) (r_failedStage r) ∧
          (r_failedStage r = None ∨ stopOnError workflow = Some false →
           rest = [])
  | Recurse context' _ =>
      persistence (modules host) = false ∨
      nonempty (ctx_workflowId context') = None
  end.
Proof.
  intros Hfresh. unfold run_pass.
  destruct (validateWorkflow workflow) as [|v vs] eqn:Hval; [|done].
  destruct (validateWorkflow_sound workflow Hval) as [Hnd Hres].
  destruct (topologicalSort (stages workflow)) as [e|order] eqn:Hsort; [done|].
  destruct (topologicalSort_inr _ _ Hnd Hres Hsort) as (Hperm & Hndo & Htopo).
  destruct (begin_pass _ _ _ _ _ _ _ _)
    as [message|[[[workflowState isResume] context'] w1]] eqn:Hbegin; [done|].
  apply begin_pass_calls in Hbegin as (_ & _ & Hb).
  destruct (Hb Hfresh) as [-> ->].
  destruct (resourceManager (modules host) && _); [done|].
  destruct (run_stages_fresh host env (pe_now (passEnv env (passes w)))
              workflow false workflowState
              (default true (stopOnError workflow)) order [] ∅ None
              (emit (WorkflowStarted (default 0 (ctx_iteration context))) w1))
    as (outputs & failedStage & processed & rest & Hrun & Horder & Hinv & Hall);
    try done.
  { intros n Hn. apply find_stage_is_Some. by rewrite <- Hperm. }
  { intros n. by destruct workflowState. }
  { apply fresh_inv_empty. }
  destruct (run_stages _ _ _ _ _ _ _ _ _ _ _) as [res w2].
  cbn [fst] in Hrun. subst res. cbn [app] in Horder.
  assert (Hfinish : ∀ r,
    r_stages r = outputs → r_failedStage r = failedStage →
    r_executionOrder r = order →
    r_success r = is_none failedStage && negb (some_failed outputs) →
    NoDup (stageNames (stages workflow)) ∧
    r_executionOrder r ≡ₚ stageNames (stages workflow) ∧
    r_success r = is_none (r_failedStage r) && negb (some_failed (r_stages r)) ∧
    ∃ processed rest,
      r_executionOrder r = processed ++ rest ∧
      fresh_inv workflow (default true (stopOnError workflow)) processed
        (r_stages r) (r_failedStage r) ∧
      (r_failedStage r = None ∨ stopOnError workflow = Some false →
       rest = [])).
  { intros r -> -> -> ->. split; [done|]. split; [done|]. split; [done|].
    exists processed, rest. split; [done|]. split; [done|].
    intros [H|H]; apply Hall; [by left|right; by rewrite H]. }
  cbn zeta.
  repeat match goal with
  | |- context [if ?b then _ else _] => destruct b
  end; try (intros r [= <-]; by apply Hfinish).
  cbn. done.
Qed.

Lemma executeWorkflow_rec_fresh host env workflow budget :
  ∀ context w r,
    persistence (modules host) = false ∨
    nonempty (ctx_workflowId context) = None →
    (executeWorkflow_rec budget host env workflow context w).1 = Returned r →
    NoDup (stageNames (stages workflow)) ∧
    r_executionOrder r ≡ₚ stageNames (stages workflow) ∧
    r_success r
      = is_none (r_failedStage r) && negb (some_failed (r_stages r)) ∧
    ∃ processed rest,
      r_executionOrder r = processed ++ rest ∧
      fresh_inv workflow (default true (stopOnError workflow)) processed
        (r_stages r) (r_failedStage r) ∧
      (r_failedStage r = None ∨ stopOnError workflow = Some false →
       rest = []).
Proof.
  induction budget as [|budget IH]; intros context w r Hfresh; [done|].
  cbn [executeWorkflow_rec].
  pose proof (run_pass_fresh host env workflow context w Hfresh) as Hpass.
  destruct (run_pass host env workflow context w) as [outcome w1|context1 w1].
  - cbn [fst]. apply Hpass.
  - by apply IH.
Qed.

(** X17: In the result of a run that does not resume, every stage result
    belongs to a stage of the workflow. A stage that was run, whether it is
    complete or failed, has all its dependencies complete. A skipped stage
    records exactly its dependencies that are not complete, at least one,
    which only happens with [stopOnError: false] and after a failure. No
    result is pending. *)
Theorem stages_run_only_after_their_dependencies (host : Host)
    (env : Environment) (workflow : Workflow) (context : Context) (w : World)
    (r : WorkflowResult) :
  persistence (modules host) = false ∨
  nonempty (ctx_workflowId context) = None →
  (executeWorkflow host env workflow context w).1 = Returned r →
  ∀ n result, r_stages r !! n = Some result →
    ∃ stage, stage ∈ stages workflow ∧ name stage = n ∧
      match sr_status result with
      | complete | failed =>
          ∀ d, d ∈ dependencies stage → is_complete (r_stages r) d = true
      | skipped =>
          sr_unmetDependencies result = unmet (r_stages r) stage ∧
          sr_unmetDependencies result ≠ [] ∧
          stopOnError workflow = Some false ∧
          is_Some (r_failedStage r)
      | pending => False
      end.
Proof.
  intros Hfresh Hrun n result Hres.
  destruct (executeWorkflow_rec_fresh _ _ _ _ _ _ _ Hfresh Hrun)
    as (Hnd & Hperm & _ & processed & rest & Horder & [Hdom Hstatus Hfailed] & _).
  assert (n ∈ stageNames (stages workflow)) as Hn.
  { rewrite <- Hperm, Horder. apply elem_of_app. left. apply Hdom. by eexists. }
  destruct (find_stage_is_Some workflow n Hn) as [stage Hfind].
  destruct (find_stage_Some _ _ _ Hfind) as [Hin Hname].
  exists stage. split; [done|]. split; [done|].
  specialize (Hstatus n result stage Hres Hfind).
  destruct (sr_status result) eqn:Hst; try done.
  - by apply unmet_nil.
  - by apply unmet_nil.
  - destruct Hstatus as (Hu & Hne & Hstop). split; [done|].
    split; [by rewrite Hu|]. split.
    + by destruct (stopOnError workflow) as [[|]|].
    + destruct (r_failedStage r); [by eexists|].
      by rewrite (Hfailed n result Hres) in Hst.
Qed.

Lemma stages_run_only_after_their_dependencies_witness :
  ∃ r result stage,
    (executeWorkflow (Scenario.host Scenario.no_modules) Scenario.hostile
       Examples.tolerant empty_context Scenario.start).1 = Returned r ∧
    r_stages r !! "C" = Some result ∧
    sr_status result = skipped ∧
    stage ∈ stages Examples.tolerant ∧ name stage = "C" ∧
    sr_unmetDependencies result = unmet (r_stages r) stage ∧
    sr_unmetDependencies result ≠ [].
Proof.
  destruct (executeWorkflow (Scenario.host Scenario.no_modules)
              Scenario.hostile Examples.tolerant empty_context
              Scenario.start).1 as [r|message|] eqn:Hrun;
    [|vm_compute in Hrun; discriminate Hrun..].
  destruct (r_stages r !! "C") as [result|] eqn:Hres.
  2:{ exfalso. vm_compute in Hrun. injection Hrun as <-.
      vm_compute in Hres. discriminate Hres. }
  destruct (stages_run_only_after_their_dependencies
              (Scenario.host Scenario.no_modules) Scenario.hostile
              Examples.tolerant empty_context Scenario.start r
              (or_introl eq_refl) Hrun "C" result Hres)
    as (stage & Hin & Hname & Hmatch).
  assert (sr_status result = skipped) as Hst.
  { vm_compute in Hrun. injection Hrun as <-.
    vm_compute in Hres. by injection Hres as <-. }
  rewrite Hst in Hmatch. destruct Hmatch as (Hu & Hne & _).
  exists r, result, stage. by split_and!.
Defined.

(** X18: A run that does not resume reports success exactly when every stage of
    the workflow has a complete result, and failure exactly when it names a
    failed stage, whose result is failed. When no stage failed or
    [stopOnError] is false, the stages with a result are exactly the stages
    of the workflow. *)
Theorem success_means_every_stage_complete (host : Host) (env : Environment)
    (workflow : Workflow) (context : Context) (w : World)
    (r : WorkflowResult) :
  persistence (modules host) = false ∨
  nonempty (ctx_workflowId context) = None →
  (executeWorkflow host env workflow context w).1 = Returned r →
  (r_success r = true ↔
   ∀ n, n ∈ stageNames (stages workflow) → is_complete (r_stages r) n = true) ∧
  (r_success r = false ↔
   ∃ F result, r_failedStage r = Some F ∧ r_stages r !! F = Some result ∧
     sr_status result = failed) ∧
  (r_failedStage r = None ∨ stopOnError workflow = Some false →
   ∀ n, n ∈ stageNames (stages workflow) ↔ is_Some (r_stages r !! n)).
Proof.
  intros Hfresh Hrun.
  destruct (executeWorkflow_rec_fresh _ _ _ _ _ _ _ Hfresh Hrun)
    as (Hnd & Hperm & Hsuccess & processed & rest & Horder
        & [Hdom Hstatus Hfailed] & Hall).
  assert (Hsub : ∀ n, n ∈ processed → n ∈ stageNames (stages workflow)).
  { intros n Hn. rewrite <- Hperm, Horder. apply elem_of_app. by left. }
  assert (Hlast : r_failedStage r = None ∨ stopOnError workflow = Some false →
    ∀ n, n ∈ stageNames (stages workflow) ↔ is_Some (r_stages r !! n)).
  { intros Hcase n. rewrite Hdom, <- Hperm, Horder, (Hall Hcase), app_nil_r.
    done. }
  split; [|split; [|done]].
  - destruct (r_failedStage r) as [F|] eqn:HF.
    + destruct Hfailed as (result & Hres & Hst).
      rewrite Hsuccess. cbn. split; [done|]. intros Hcomplete.
      specialize (Hcomplete F (Hsub F (proj1 (Hdom F) (mk_is_Some _ _ Hres)))).
      unfold is_complete in Hcomplete. by rewrite Hres, Hst in Hcomplete.
    + rewrite Hsuccess, (some_failed_false _ Hfailed). cbn. split; [|done].
      intros _ n [result Hres]%(Hlast (or_introl eq_refl)).
      unfold is_complete. by rewrite Hres, (Hfailed n result Hres).
  - rewrite Hsuccess. destruct (r_failedStage r) as [F|] eqn:HF.
    + cbn. split; [|done]. intros _. destruct Hfailed as (result & Hres & Hst).
      by exists F, result.
    + rewrite (some_failed_false _ Hfailed). cbn. split; [done|].
      by intros (F & result & [=] & _).
Qed.

Lemma success_means_every_stage_complete_witness :
  ∃ r,
    (executeWorkflow (Scenario.host Scenario.no_modules) Scenario.cooperative
       (Scenario.simple_workflow Scenario.chain) empty_context Scenario.start).1
      = Returned r ∧
    r_success r = true ∧
    ∀ n, n ∈ ["A"; "B"; "C"] → is_complete (r_stages r) n = true.
Proof.
  destruct (executeWorkflow (Scenario.host Scenario.no_modules)
              Scenario.cooperative (Scenario.simple_workflow Scenario.chain)
              empty_context Scenario.start).1 as [r|message|] eqn:Hrun;
    [|vm_compute in Hrun; discriminate Hrun..].
  destruct (success_means_every_stage_complete
              (Scenario.host Scenario.no_modules) Scenario.cooperative
              (Scenario.simple_workflow Scenario.chain) empty_context
              Scenario.start r (or_introl eq_refl) Hrun) as (Hiff & _).
  assert (r_success r = true) as Hs.
  { vm_compute in Hrun. by injection Hrun as <-. }
  exists r. split; [done|]. split; [done|]. by apply Hiff.
Defined.

End RunFacts.

(** ** persistence.js: what the store keeps of a workflow *)

Module StoreFacts.
Import Text Data Persistence Registry.
Import DefinitionFacts.

Lemma well_keyed_insert id st σ :
  well_keyed σ → workflowId st = id → well_keyed (<[id := st]> σ).
Proof.
  intros Hσ Hid id' st'. destruct (decide (id' = id)) as [->|Hne].
  - rewrite lookup_insert_eq. by intros [= <-].
  - rewrite lookup_insert_ne by done. apply Hσ.
Qed.

Lemma snoc_prefix {A} (l : list A) x : l `prefix_of` l ++ [x].
Proof. by exists [x]. Qed.

Lemma updateStageCompletion_eq now id stageName stageResult σ st :
  σ !! id = Some st → workflowId st = id →
  updateStageCompletion now id stageName stageResult σ
  = <[id :=
        {| workflowId := workflowId st; workflowName := workflowName st;
           startedAt := startedAt st; lastUpdated := now;
           status := status st;
           iteration := iteration st; maxIterations := maxIterations st;
           completedStages :=
             if includes stageName (completedStages st)
             then completedStages st
             else completedStages st ++ [stageName];
           failedStage := clear_if stageName (failedStage st);
           pausedStage := clear_if stageName (pausedStage st);
           stageOutputs := <[stageName := stageResult]> (stageOutputs st);
           context := context st; executionOrder := executionOrder st;
           errorMessage := None |}]> σ.
Proof.
  intros Hst Hid. unfold updateStageCompletion, loadWorkflowState.
  rewrite Hst. unfold saveWorkflowState. cbn [workflowId]. by rewrite Hid.
Qed.

Lemma clear_if_idem stageName o :
  clear_if stageName (clear_if stageName o) = clear_if stageName o.
Proof.
  destruct o as [n|]; [|done]. cbn.
  destruct (String.eqb_spec n stageName) as [|Hne]; [done|].
  cbn. by apply String.eqb_neq in Hne as ->.
Qed.

Lemma clear_if_ne stageName o : clear_if stageName o ≠ Some stageName.
Proof.
  destruct o as [n|]; [|done]. cbn.
  destruct (String.eqb_spec n stageName); [done|congruence].
Qed.

(** X19: A recorded completion of a stage (of any name but [__proto__]) can
    be read back: the result given is stored under the stage; the stage is
    appended to the completed stages if it was not listed, and the list is
    left as it is if it was; the other stages, the other workflows and the
    status are as before; the stage is no longer the failed or the paused
    one, the error message is cleared and the time of the last update is
    the time of the call. Recording the same completion again, at whatever
    time, changes the time of the last update and nothing else. *)
Theorem recorded_completion_is_read_back (now later : Z)
    (id stageName : string) (stageResult : StageResult) (σ : Store)
    (st : WorkflowState) :
  σ !! id = Some st → workflowId st = id → stageName ≠ Queue.proto_key →
  let σ' := updateStageCompletion now id stageName stageResult σ in
  ∃ st', σ' = <[id := st']> σ ∧
    lastUpdated st' = now ∧
    stageOutputs st' !! stageName = Some stageResult ∧
    (∀ m, m ≠ stageName → stageOutputs st' !! m = stageOutputs st !! m) ∧
    (stageName ∈ completedStages st →
     completedStages st' = completedStages st) ∧
    (stageName ∉ completedStages st →
     completedStages st' = completedStages st ++ [stageName]) ∧
    (NoDup (completedStages st) → NoDup (completedStages st')) ∧
    status st' = status st ∧
    failedStage st' ≠ Some stageName ∧
    pausedStage st' ≠ Some stageName ∧
    errorMessage st' = None ∧
    updateStageCompletion later id stageName stageResult σ'
    = <[id := with_lastUpdated later st']> σ.
Proof.
  intros Hst Hid _ σ'. subst σ'.
  rewrite (updateStageCompletion_eq _ _ _ _ _ _ Hst Hid).
  eexists. split; [done|]. cbn [stageOutputs completedStages status
    failedStage pausedStage errorMessage lastUpdated].
  split; [done|].
  split; [by rewrite lookup_insert_eq|].
  split; [intros m Hm; by rewrite lookup_insert_ne|].
  assert (Hagain : ∀ l,
    includes stageName l = true →
    updateStageCompletion later id stageName stageResult
      (<[id :=
           {| workflowId := workflowId st; workflowName := workflowName st;
              startedAt := startedAt st; lastUpdated := now;
              status := status st;
              iteration := iteration st; maxIterations := maxIterations st;
              completedStages := l;
              failedStage := clear_if stageName (failedStage st);
              pausedStage := clear_if stageName (pausedStage st);
              stageOutputs := <[stageName := stageResult]> (stageOutputs st);
              context := context st; executionOrder := executionOrder st;
              errorMessage := None |}]> σ)
    = <[id := with_lastUpdated later
           {| workflowId := workflowId st; workflowName := workflowName st;
              startedAt := startedAt st; lastUpdated := now;
              status := status st;
              iteration := iteration st; maxIterations := maxIterations st;
              completedStages := l;
              failedStage := clear_if stageName (failedStage st);
              pausedStage := clear_if stageName (pausedStage st);
              stageOutputs := <[stageName := stageResult]> (stageOutputs st);
              context := context st; executionOrder := executionOrder st;
              errorMessage := None |}]> σ).
  { intros l Hl.
    erewrite updateStageCompletion_eq; [|apply lookup_insert_eq|done].
    unfold with_lastUpdated.
    cbn [workflowId workflowName startedAt status iteration maxIterations
         completedStages failedStage pausedStage stageOutputs context
         executionOrder errorMessage].
    rewrite Hl, !clear_if_idem, !insert_insert_eq. done. }
  destruct (includes stageName (completedStages st)) eqn:Hinc.
  - apply includes_true in Hinc as Hin.
    split_and!; try done; try apply clear_if_ne. by apply Hagain.
  - assert (stageName ∉ completedStages st) as Hnot.
    { intros Hin%includes_true. by rewrite Hin in Hinc. }
    split_and!; try done; try apply clear_if_ne.
    + intros Hnd. apply NoDup_app. split; [done|]. split.
      * by intros m Hm ->%list_elem_of_singleton.
      * apply NoDup_singleton.
    + apply Hagain. apply includes_true, elem_of_app. right. by left.
Qed.

Lemma recorded_completion_is_read_back_witness :
  ∃ st',
    updateStageCompletion 9000 "wf-1" "B" Scenario.reported
      Scenario.failed_store = <["wf-1" := st']> Scenario.failed_store ∧
    lastUpdated st' = 9000%Z ∧
    stageOutputs st' !! "B" = Some Scenario.reported ∧
    failedStage st' ≠ Some "B" ∧
    updateStageCompletion 9500 "wf-1" "B" Scenario.reported
      (updateStageCompletion 9000 "wf-1" "B" Scenario.reported
         Scenario.failed_store)
    = <["wf-1" := with_lastUpdated 9500 st']> Scenario.failed_store.
Proof.
  destruct (recorded_completion_is_read_back 9000 9500 "wf-1" "B"
              Scenario.reported Scenario.failed_store Scenario.failed_state
              (lookup_singleton_eq _ _) eq_refl ltac:(discriminate))
    as (st' & Heq & Htime & Hout & _ & _ & _ & _ & _ & Hfailed & _ & _ & Hagain).
  exists st'. split; [exact Heq|]. split; [exact Htime|].
  split; [exact Hout|]. split; [exact Hfailed|exact Hagain].
Defined.

(** *** Closing and reopening a workflow *)

(** X20: Cancelling a saved workflow succeeds unless it is completed, and a
    completed one is left as it is. After a cancellation, resuming throws
    and cancelling again succeeds without a change. After
    [markWorkflowCompleted], whatever the status was, resuming throws and
    cancelling answers [false]. After its state file is deleted, the
    workflow is not found. *)
Theorem closed_workflows_are_not_resumed (now later : Z) (id : string)
    (σ : Store) (st : WorkflowState) :
  σ !! id = Some st → workflowId st = id →
  let cancelled := cancelWorkflow now id σ in
  let finished := markWorkflowCompleted now id σ in
  let deleted := deleteWorkflowState id σ in
  (cancelled.1 = true ↔ status st ≠ completed) ∧
  (status st = completed → cancelled.2 = σ) ∧
  (status st ≠ completed →
   resumeWorkflow later id cancelled.2
     = inl ("Workflow was cancelled: " +:+ id) ∧
   cancelWorkflow later id cancelled.2 = (true, cancelled.2)) ∧
  resumeWorkflow later id finished
    = inl ("Workflow is already completed: " +:+ id) ∧
  cancelWorkflow later id finished = (false, finished) ∧
  deleted.1 = true ∧
  resumeWorkflow later id deleted.2 = inl ("Workflow state not found: " +:+ id) ∧
  cancelWorkflow later id deleted.2 = (false, deleted.2).
Proof.
  intros Hst Hid. cbn zeta.
  assert (Hfinished :
    markWorkflowCompleted now id σ
    = <[id := {| workflowId := workflowId st; workflowName := workflowName st;
                 startedAt := startedAt st; lastUpdated := now;
                 status := completed;
                 iteration := iteration st; maxIterations := maxIterations st;
                 completedStages := completedStages st;
                 failedStage := None; pausedStage := None;
                 stageOutputs := stageOutputs st;
                 context := context st; executionOrder := executionOrder st;
                 errorMessage := None |}]> σ).
  { unfold markWorkflowCompleted, loadWorkflowState, saveWorkflowState.
    rewrite Hst. cbn [workflowId]. by rewrite Hid. }
  assert (Hdeleted : deleteWorkflowState id σ = (true, delete id σ))
    by (unfold deleteWorkflowState; by rewrite Hst).
  rewrite Hfinished, Hdeleted. cbn [fst snd].
  assert (Hcancelled :
    ∃ σc st',
      cancelWorkflow now id σ
      = (match status st with completed => false | _ => true end, σc) ∧
      (status st = completed → σc = σ) ∧
      (status st ≠ completed → σc !! id = Some st' ∧ status st' = cancelled)).
  { unfold cancelWorkflow, loadWorkflowState, saveWorkflowState. rewrite Hst.
    destruct (status st) eqn:Hs; cbn [workflowId]; rewrite ?Hid.
    1,2,4: eexists _, _; (split; [done|]); (split; [done|]); intros _;
      by rewrite lookup_insert_eq.
    - by exists σ, st.
    - exists σ, st. by rewrite Hst. }
  destruct Hcancelled as (σc & st' & -> & Hsame & Hclosed). cbn [fst snd].
  split_and!.
  - by destruct (status st).
  - done.
  - intros [Hc Hs]%Hclosed.
    unfold resumeWorkflow, cancelWorkflow, loadWorkflowState.
    by rewrite Hc, Hs.
  - unfold resumeWorkflow, loadWorkflowState. by rewrite lookup_insert_eq.
  - unfold cancelWorkflow, loadWorkflowState. by rewrite lookup_insert_eq.
  - done.
  - unfold resumeWorkflow, loadWorkflowState. by rewrite lookup_delete_eq.
  - unfold cancelWorkflow, loadWorkflowState. by rewrite lookup_delete_eq.
Qed.

Lemma closed_workflows_are_not_resumed_witness :
  resumeWorkflow 9500 "wf-1" (cancelWorkflow 9000 "wf-1" Scenario.failed_store).2
    = inl "Workflow was cancelled: wf-1" ∧
  resumeWorkflow 9500 "wf-1" (markWorkflowCompleted 9000 "wf-1" Scenario.failed_store)
    = inl "Workflow is already completed: wf-1".
Proof.
  destruct (closed_workflows_are_not_resumed 9000 9500 "wf-1"
              Scenario.failed_store Scenario.failed_state
              (lookup_singleton_eq _ _) eq_refl)
    as (_ & _ & Hcancel & Hfinished & _).
  split; [|exact Hfinished]. by apply Hcancel.
Defined.

(** X21: Recording a stage failure reopens a workflow, whatever its status was,
    completed and cancelled included: it can be resumed then. The resumed
    state is running, names the failed stage as the stage to resume from
    when no stage is paused, has no failed stage and no error message any
    more, and keeps the completed stages and their outputs. *)
Theorem recorded_failure_reopens_the_workflow (now later : Z)
    (id stageName message : string) (σ : Store) (st : WorkflowState) :
  σ !! id = Some st → workflowId st = id →
  pausedStage st = None → stageName ≠ "" →
  ∃ data σ',
    resumeWorkflow later id (updateStageFailure now id stageName message σ)
      = inr (data, σ') ∧
    rd_resumeFromStage data = Some stageName ∧
    status (rd_state data) = running ∧
    failedStage (rd_state data) = None ∧
    errorMessage (rd_state data) = None ∧
    completedStages (rd_state data) = completedStages st ∧
    rd_stageOutputs data = stageOutputs st ∧
    ∃ st', σ' = <[id := st']> σ ∧ status st' = running ∧
      failedStage st' = None ∧ errorMessage st' = None ∧
      lastUpdated st' = now.
Proof.
  intros Hst Hid Hpaused _.
  unfold updateStageFailure, resumeWorkflow, loadWorkflowState.
  rewrite Hst. unfold saveWorkflowState. cbn [workflowId]. rewrite Hid.
  rewrite lookup_insert_eq. cbn [status workflowId]. rewrite ?Hid.
  eexists _, _. split; [done|]. cbn. unfold resumeFromStage. cbn.
  rewrite Hpaused. split_and!; try done.
  eexists. split; [by rewrite insert_insert_eq|]. done.
Qed.

Lemma recorded_failure_reopens_the_workflow_witness :
  ∃ data σ',
    resumeWorkflow 9500 "wf-1"
      (updateStageFailure 9000 "wf-1" "C" "agent crashed"
         (markWorkflowCompleted 8000 "wf-1" Scenario.failed_store))
      = inr (data, σ') ∧
    rd_resumeFromStage data = Some "C".
Proof.
  destruct (recorded_failure_reopens_the_workflow 9000 9500 "wf-1" "C"
              "agent crashed"
              (markWorkflowCompleted 8000 "wf-1" Scenario.failed_store)
              (set_lastUpdated 8000
                 {| workflowId := "wf-1"; workflowName := "demo";
                    startedAt := 1000; lastUpdated := 8000;
                    status := completed; iteration := 0; maxIterations := 3;
                    completedStages := ["A"]; failedStage := None;
                    pausedStage := None; stageOutputs := ∅;
                    context := empty_context;
                    executionOrder := ["A"; "B"; "C"];
                    errorMessage := None |})
              ltac:(vm_compute; reflexivity) eq_refl eq_refl
              ltac:(discriminate))
    as (data & σ' & Hresume & Hfrom & _).
  by exists data, σ'.
Defined.

End StoreFacts.

(** ** queue.js: the saved workflows by name *)

Module ControlFacts.
Import Text Data Persistence Executor Registry Control.
Import StoreFacts.

Lemma insert_newest_perm x l : insert_newest x l ≡ₚ x :: l.
Proof.
  induction l as [|y l IH]; cbn; [done|].
  destruct (_ <? _)%Z; [|done]. rewrite IH. apply Permutation_swap.
Qed.

Lemma newest_first_perm l : newest_first l ≡ₚ l.
Proof.
  induction l as [|x l IH]; cbn; [done|].
  rewrite insert_newest_perm. by f_equiv.
Qed.

Lemma insert_newest_sorted x l :
  StronglySorted (λ a b, (ss_lastUpdated b ≤ ss_lastUpdated a)%Z) l →
  StronglySorted (λ a b, (ss_lastUpdated b ≤ ss_lastUpdated a)%Z)
    (insert_newest x l).
Proof.
  induction 1 as [|y l Hsorted IH Hall]; cbn; [by repeat constructor|].
  destruct (Z.ltb_spec (ss_lastUpdated x) (ss_lastUpdated y)) as [Hlt|Hge].
  - constructor; [done|]. rewrite insert_newest_perm.
    constructor; [lia|done].
  - constructor; [by constructor|]. constructor; [done|].
    eapply Forall_impl; [done|]. cbn. intros z Hz. lia.
Qed.

Lemma newest_first_sorted l :
  StronglySorted (λ a b, (ss_lastUpdated b ≤ ss_lastUpdated a)%Z)
    (newest_first l).
Proof.
  induction l as [|x l IH]; cbn; [constructor|]. by apply insert_newest_sorted.
Qed.

Lemma find_sorted (p : StateSummary → bool) l s :
  StronglySorted (λ a b, (ss_lastUpdated b ≤ ss_lastUpdated a)%Z) l →
  List.find p l = Some s →
  ∀ s', s' ∈ l → p s' = true → (ss_lastUpdated s' ≤ ss_lastUpdated s)%Z.
Proof.
  induction 1 as [|y l Hsorted IH Hall]; [done|]. cbn.
  destruct (p y) eqn:Hy.
  - intros [= <-] s' [->|Hin]%elem_of_cons _; [lia|].
    by apply (proj1 (Forall_forall _ _) Hall).
  - intros Hfind s' [->|Hin]%elem_of_cons Hs'; [congruence|]. by apply IH.
Qed.

Lemma elem_of_listing entries σ s :
  s ∈ listWorkflowStates entries σ ↔
  ∃ id st, id ∈ entries ∧ σ !! id = Some st ∧ s = summarize st.
Proof.
  unfold listWorkflowStates, loadWorkflowState.
  rewrite newest_first_perm, list_elem_of_omap. split.
  - intros (id & Hid & Hs). destruct (σ !! id) as [st|] eqn:Hst; [|done].
    injection Hs as <-. by exists id, st.
  - intros (id & st & Hid & Hst & ->). exists id. by rewrite Hst.
Qed.

(** The first entry of the listing that passes [p] is the newest saved
    state that does. *)
Lemma find_newest (p : StateSummary → bool) entries σ :
  well_keyed σ → lists_all entries σ →
  match List.find p (listWorkflowStates entries σ) with
  | Some s =>
      ∃ st, σ !! ss_workflowId s = Some st ∧ s = summarize st ∧ p s = true ∧
        ∀ id' st', σ !! id' = Some st' → p (summarize st') = true →
          (lastUpdated st' ≤ lastUpdated st)%Z
  | None => ∀ id st, σ !! id = Some st → p (summarize st) = false
  end.
Proof.
  intros Hkeyed [_ Hall].
  destruct (List.find p _) as [s|] eqn:Hfind.
  - destruct (find_some _ _ Hfind) as [Hin Hp].
    apply list_elem_of_In, elem_of_listing in Hin as (id & st & Hid & Hst & ->).
    exists st. cbn [summarize ss_workflowId]. rewrite (Hkeyed id st Hst).
    split; [done|]. split; [done|]. split; [done|].
    intros id' st' Hst' Hp'.
    apply (find_sorted p _ _ (newest_first_sorted _) Hfind (summarize st'));
      [|done].
    apply elem_of_listing. exists id', st'. split; [|done].
    apply Hall. by eexists.
  - intros id st Hst.
    apply (find_none _ _ Hfind), list_elem_of_In, elem_of_listing.
    exists id, st. split; [|done]. apply Hall. by eexists.
Qed.

Lemma registry_well_keyed : well_keyed Examples.registry.
Proof.
  intros id st. unfold Examples.registry.
  rewrite !lookup_insert_Some, lookup_singleton_Some.
  by intros [[<- <-]|[_ [[<- <-]|[_ [<- <-]]]]].
Qed.

Lemma registry_lists_all :
  lists_all Examples.registry_entries Examples.registry.
Proof.
  split.
  - unfold Examples.registry_entries.
    apply (bool_decide_unpack _). by vm_compute.
  - intros id. unfold Examples.registry_entries, Examples.registry.
    rewrite !elem_of_cons, elem_of_nil, !lookup_insert_is_Some,
      lookup_singleton_is_Some.
    split.
    + intros [->|[->|[->|[]]]]; [by left|right..].
      * split; [done|by left].
      * split; [done|]. right. by split.
    + intros [<-|[_ [<-|[_ <-]]]]; tauto.
Qed.

(** X22: Cancelling by name cancels one workflow at most: the running workflow
    of that name that was updated last. It answers [true] exactly when the
    persistence module is loaded and a workflow of that name is running; a
    failed or paused workflow is not cancelled by its name. All other saved
    states stay as they are. *)
Theorem cancel_by_name_stops_the_newest_running_workflow (mods : Modules)
    (entries : list string) (now : Z) (workflowName : string) (σ : Store) :
  well_keyed σ → lists_all entries σ →
  let result := Control.cancelWorkflow mods entries now workflowName σ in
  (result.1 = true ↔
   persistence mods = true ∧
   ∃ id st, σ !! id = Some st ∧ Persistence.workflowName st = workflowName ∧
     status st = running) ∧
  (result.1 = false → result.2 = σ) ∧
  (result.1 = true →
   ∃ id st st',
     σ !! id = Some st ∧ Persistence.workflowName st = workflowName ∧
     status st = running ∧
     (∀ id' other, σ !! id' = Some other →
        Persistence.workflowName other = workflowName →
        status other = running →
        (lastUpdated other ≤ lastUpdated st)%Z) ∧
     result.2 = <[id := st']> σ ∧
     status st' = cancelled ∧ lastUpdated st' = now ∧
     completedStages st' = completedStages st ∧
     stageOutputs st' = stageOutputs st).
Proof.
  intros Hkeyed Hall. cbn zeta. unfold Control.cancelWorkflow.
  destruct (persistence mods).
  2:{ cbn. split_and!; [split; [done|]|done|done]. by intros [[=] _]. }
  pose proof (find_newest (named_running workflowName) entries σ Hkeyed Hall)
    as Hfind.
  assert (Hp : ∀ st, named_running workflowName (summarize st) = true ↔
            Persistence.workflowName st = workflowName ∧ status st = running).
  { intros st. unfold named_running. cbn.
    rewrite andb_true_iff, String.eqb_eq.
    split; intros [Hn Hs]; (split; [done|]); by destruct (status st). }
  destruct (List.find _ _) as [s|].
  - destruct Hfind as (st & Hst & -> & [Hname Hrun]%Hp & Hmax).
    cbn [summarize ss_workflowId] in *.
    pose proof (Hkeyed _ _ Hst) as Hid.
    unfold Persistence.cancelWorkflow, loadWorkflowState.
    rewrite Hst, Hrun. unfold saveWorkflowState. cbn [fst snd workflowId].
    split_and!.
    + split; [intros _; split; [done|]; by exists (workflowId st), st|done].
    + done.
    + intros _. eexists (workflowId st), st, _. split_and!; try done.
      intros id' other Hother Hn Hr. apply (Hmax id' other Hother).
      by apply Hp.
  - cbn [fst snd]. split_and!; [|done..]. split; [done|].
    intros (_ & id & st & Hst & Hname & Hrun).
    specialize (Hfind id st Hst).
    by rewrite (proj2 (Hp st) (conj Hname Hrun)) in Hfind.
Qed.

Lemma cancel_by_name_stops_the_newest_running_workflow_witness :
  let result :=
    Control.cancelWorkflow Scenario.all_modules Examples.registry_entries 9000
      "demo" Examples.registry in
  result.1 = true ∧
  ∃ id st st',
    Examples.registry !! id = Some st ∧
    (∀ id' other, Examples.registry !! id' = Some other →
       Persistence.workflowName other = "demo" → status other = running →
       (lastUpdated other ≤ lastUpdated st)%Z) ∧
    result.2 = <[id := st']> Examples.registry ∧ status st' = cancelled.
Proof.
  destruct (cancel_by_name_stops_the_newest_running_workflow
              Scenario.all_modules Examples.registry_entries 9000 "demo"
              Examples.registry registry_well_keyed registry_lists_all)
    as (Hiff & _ & Hcancel).
  cbn zeta.
  assert (Htrue : (Control.cancelWorkflow Scenario.all_modules
                     Examples.registry_entries 9000 "demo"
                     Examples.registry).1 = true).
  { apply Hiff. split; [done|].
    exists "wf-3", Examples.newer_state. split; [|done].
    unfold Examples.registry.
    rewrite !lookup_insert_ne by done. apply lookup_singleton_eq. }
  split; [done|].
  destruct (Hcancel Htrue)
    as (id & st & st' & Hst & _ & _ & Hmax & Heq & Hstatus & _).
  by exists id, st, st'.
Defined.

(** X23: The status asked for by name is the one of the saved workflow of that
    name that was updated last, whatever its status; there is none exactly
    when no saved workflow has the name. *)
Theorem status_by_name_reports_the_newest_workflow (mods : Modules)
    (entries : list string) (workflowName : string) (σ : Store) :
  well_keyed σ → lists_all entries σ → persistence mods = true →
  match Control.getWorkflowStatus mods entries workflowName σ with
  | Some answer =>
      ∃ id st, σ !! id = Some st ∧ answer = report st ∧
        Persistence.workflowName st = workflowName ∧
        ∀ id' other, σ !! id' = Some other →
          Persistence.workflowName other = workflowName →
          (lastUpdated other ≤ lastUpdated st)%Z
  | None =>
      ∀ id st, σ !! id = Some st → Persistence.workflowName st ≠ workflowName
  end.
Proof.
  intros Hkeyed Hall Hper. unfold Control.getWorkflowStatus. rewrite Hper.
  pose proof (find_newest (named workflowName) entries σ Hkeyed Hall) as Hfind.
  assert (Hp : ∀ st, named workflowName (summarize st) = true ↔
            Persistence.workflowName st = workflowName).
  { intros st. unfold named. cbn. by rewrite String.eqb_eq. }
  destruct (List.find _ _) as [s|].
  - destruct Hfind as (st & Hst & -> & Hname%Hp & Hmax).
    unfold Registry.getWorkflowStatus, loadWorkflowState. rewrite Hst. cbn.
    exists (workflowId st), st. cbn in Hst. split_and!; try done.
    intros id' other Hother Hn. apply (Hmax id' other Hother). by apply Hp.
  - intros id st Hst Hname. specialize (Hfind id st Hst).
    by rewrite (proj2 (Hp st) Hname) in Hfind.
Qed.

Lemma status_by_name_reports_the_newest_workflow_witness :
  ∃ answer id st,
    Control.getWorkflowStatus Scenario.all_modules Examples.registry_entries
      "demo" Examples.registry = Some answer ∧
    Examples.registry !! id = Some st ∧ answer = report st ∧
    ∀ id' other, Examples.registry !! id' = Some other →
      Persistence.workflowName other = "demo" →
      (lastUpdated other ≤ lastUpdated st)%Z.
Proof.
  pose proof (status_by_name_reports_the_newest_workflow
                Scenario.all_modules Examples.registry_entries "demo"
                Examples.registry registry_well_keyed registry_lists_all
                eq_refl) as Hstatus.
  destruct (Control.getWorkflowStatus _ _ _ _) as [answer|] eqn:Hanswer.
  - destruct Hstatus as (id & st & Hst & Heq & _ & Hmax).
    by exists answer, id, st.
  - exfalso. apply (Hstatus "wf-3" Examples.newer_state); [|done].
    unfold Examples.registry.
    rewrite !lookup_insert_ne by done. apply lookup_singleton_eq.
Defined.

End ControlFacts.
